(** * ChainTrust contracts: FreelanceEscrow, SubscriptionPool and
      ContentOwnershipRegistry

    A shallow embedding of the three Solidity contracts of the repository
    (contracts/FreelanceEscrow.sol, the SubscriptionPool contract and
    contracts/ContentOwnership.sol) and the properties of their state
    machines.

    Conventions of the embedding:
    - [uint256] and [address] values are binary naturals ([N]); Solidity 0.8
      checked arithmetic is written out ([checked_add], [checked_sub],
      [checked_mul] fail with [Panic] instead of wrapping).
    - A transaction either returns a new storage and the effects it produced
      or fails; a failed transaction leaves storage untouched ([Result]).
    - Storage mappings are finite maps read with the type's zero value as
      default, as Solidity mappings are.
    - Calls that leave the contract (ERC-20 [transfer]/[transferFrom], a
      value-carrying [call]) are answered by the transaction's [oracle]: the
      k-th external call of the transaction either reverts or returns a
      boolean.  Callbacks into the contract during such a call are not
      modelled; the [ReentrancyGuard] flag is.
    - Only payable functions take a [value] (msg.value); the others cannot
      be called with one. *)

From Stdlib Require Import NArith Lia.
From stdpp Require Import base option strings list gmap.

Local Open Scope N_scope.

(** ** Solidity prelude *)

Abbreviation address := N (only parsing).
Abbreviation uint256 := N (only parsing).

Definition MAX_UINT256 : N := 2 ^ 256 - 1.

(** Why a call failed. *)
Inductive Failure : Type :=
  | RequireFailed (reason : string) (* require(cond, reason) with cond false *)
  | CustomError (name : string)     (* revert with a custom error *)
  | Panic                           (* a checked operation failed (overflow, ...) *)
  | Bubbled                         (* an external high-level call reverted *)
  | OutOfGas.                       (* the gas of the transaction ran out *)

Inductive Result (A : Type) : Type :=
  | Ok (a : A)
  | Fail (f : Failure).
Arguments Ok {A} a.
Arguments Fail {A} f.

Global Instance Result_ret : MRet Result := fun A a => Ok a.
Global Instance Result_bind : MBind Result := fun A B k m =>
  match m with
  | Ok a => k a
  | Fail f => Fail f
  end.

Definition is_ok {A} (r : Result A) : bool :=
  match r with Ok _ => true | Fail _ => false end.

Definition require (cond : bool) (reason : string) : Result unit :=
  if cond then Ok tt else Fail (RequireFailed reason).

Definition checked_add (a b : uint256) : Result uint256 :=
  if a + b <=? MAX_UINT256 then Ok (a + b) else Fail Panic.

Definition checked_sub (a b : uint256) : Result uint256 :=
  if b <=? a then Ok (a - b) else Fail Panic.

Definition checked_mul (a b : uint256) : Result uint256 :=
  if a * b <=? MAX_UINT256 then Ok (a * b) else Fail Panic.

Definition checked_div (a b : uint256) : Result uint256 :=
  if b =? 0 then Fail Panic else Ok (a / b).

(** What the call site of an external call observes: the callee reverted,
    or it returned, with the boolean an ERC-20 function answers (false: the
    token reports that it did not perform the transfer). For a plain
    value-carrying call only the distinction between the two matters. *)
Inductive Outcome : Type :=
  | Reverts
  | Returns (b : bool).

(** The context of one transaction. [oracle k] answers the k-th external
    call made while the transaction runs; [self_balance] is what a query of
    the contract's own balance reads. *)
Record Tx : Type := {
  msg_sender : address;
  block_timestamp : uint256;
  this : address;
  self_balance : uint256;
  oracle : nat -> Outcome
}.

(** The custody calls the contracts issue. *)
Inductive LedgerCall : Type :=
  | TransferFrom (token from to : address) (amount : uint256)
      (* IERC20(token).transferFrom(from, to, amount) *)
  | Transfer (token to : address) (amount : uint256)
      (* IERC20(token).transfer(to, amount) *)
  | SendEth (to : address) (amount : uint256)
      (* to.call{value: amount}(...) *)
  | BalanceOf (token who : address).
      (* IERC20(token).balanceOf(who) *)

(** What a transaction leaves behind besides storage, in program order:
    external calls that went through, external calls that reverted and were
    caught, and emitted events of type [E]. *)
Inductive Effect (E : Type) : Type :=
  | Ledger (c : LedgerCall)
  | Caught (c : LedgerCall)
  | Emit (e : E).
Arguments Ledger {E} c.
Arguments Caught {E} c.
Arguments Emit {E} e.

Definition ledger_calls {E} (log : list (Effect E)) : list LedgerCall :=
  omap (fun x => match x with Ledger c => Some c | _ => None end) log.

(** The number of external calls attempted so far. *)
Definition calls_made {E} (log : list (Effect E)) : nat :=
  length (omap (fun x => match x with Emit _ => None | _ => Some tt end) log).

(** Every external call of the transaction is carried out and reports
    success. *)
Definition ledger_ok (tx : Tx) : Prop := forall k, oracle tx k = Returns true.

(** ** FreelanceEscrow.sol *)

Module FreelanceEscrow.

Inductive EscrowStatus : Type :=
  | Created
  | Funded
  | WorkSubmitted
  | Completed
  | Disputed
  | Cancelled
  | Refunded.

Global Instance EscrowStatus_eq_dec : EqDecision EscrowStatus.
Proof. solve_decision. Defined.

Record EscrowContract : Type := {
  id : uint256;
  client : address;
  freelancer : address;
  mediator : address;
  amount : uint256;
  token : address; (* 0 for ETH *)
  status : EscrowStatus;
  deadline : uint256;
  workDescription : string;
  deliveryHash : string;
  createdAt : uint256;
  lastUpdated : uint256;
  clientApproved : bool;
  freelancerSubmitted : bool
}.

(** The value an unwritten slot of the [escrows] mapping reads as. *)
Definition zero_escrow : EscrowContract := {|
  id := 0; client := 0; freelancer := 0; mediator := 0; amount := 0;
  token := 0; status := Created; deadline := 0;
  workDescription := EmptyString; deliveryHash := EmptyString;
  createdAt := 0; lastUpdated := 0;
  clientApproved := false; freelancerSubmitted := false |}.

Definition with_status (st : EscrowStatus) (e : EscrowContract) : EscrowContract := {|
  id := id e; client := client e; freelancer := freelancer e;
  mediator := mediator e; amount := amount e; token := token e;
  status := st; deadline := deadline e;
  workDescription := workDescription e; deliveryHash := deliveryHash e;
  createdAt := createdAt e; lastUpdated := lastUpdated e;
  clientApproved := clientApproved e;
  freelancerSubmitted := freelancerSubmitted e |}.

Definition with_lastUpdated (t : uint256) (e : EscrowContract) : EscrowContract := {|
  id := id e; client := client e; freelancer := freelancer e;
  mediator := mediator e; amount := amount e; token := token e;
  status := status e; deadline := deadline e;
  workDescription := workDescription e; deliveryHash := deliveryHash e;
  createdAt := createdAt e; lastUpdated := t;
  clientApproved := clientApproved e;
  freelancerSubmitted := freelancerSubmitted e |}.

Definition with_deliveryHash (h : string) (e : EscrowContract) : EscrowContract := {|
  id := id e; client := client e; freelancer := freelancer e;
  mediator := mediator e; amount := amount e; token := token e;
  status := status e; deadline := deadline e;
  workDescription := workDescription e; deliveryHash := h;
  createdAt := createdAt e; lastUpdated := lastUpdated e;
  clientApproved := clientApproved e;
  freelancerSubmitted := freelancerSubmitted e |}.

Definition with_freelancerSubmitted (b : bool) (e : EscrowContract) : EscrowContract := {|
  id := id e; client := client e; freelancer := freelancer e;
  mediator := mediator e; amount := amount e; token := token e;
  status := status e; deadline := deadline e;
  workDescription := workDescription e; deliveryHash := deliveryHash e;
  createdAt := createdAt e; lastUpdated := lastUpdated e;
  clientApproved := clientApproved e;
  freelancerSubmitted := b |}.

Definition with_clientApproved (b : bool) (e : EscrowContract) : EscrowContract := {|
  id := id e; client := client e; freelancer := freelancer e;
  mediator := mediator e; amount := amount e; token := token e;
  status := status e; deadline := deadline e;
  workDescription := workDescription e; deliveryHash := deliveryHash e;
  createdAt := createdAt e; lastUpdated := lastUpdated e;
  clientApproved := b;
  freelancerSubmitted := freelancerSubmitted e |}.

(** Contract storage. [owner] is Ownable's owner, [entered] is true while a
    nonReentrant function runs. *)
Record State : Type := {
  escrows : gmap N EscrowContract;
  clientEscrows : gmap N (list N);
  freelancerEscrows : gmap N (list N);
  nextEscrowId : uint256;
  platformFee : uint256;
  feeRecipient : address;
  approvedMediators : gmap N bool;
  owner : address;
  entered : bool
}.

Definition set_escrows (m : gmap N EscrowContract) (s : State) : State := {|
  escrows := m; clientEscrows := clientEscrows s;
  freelancerEscrows := freelancerEscrows s; nextEscrowId := nextEscrowId s;
  platformFee := platformFee s; feeRecipient := feeRecipient s;
  approvedMediators := approvedMediators s; owner := owner s;
  entered := entered s |}.

Definition set_entered (b : bool) (s : State) : State := {|
  escrows := escrows s; clientEscrows := clientEscrows s;
  freelancerEscrows := freelancerEscrows s; nextEscrowId := nextEscrowId s;
  platformFee := platformFee s; feeRecipient := feeRecipient s;
  approvedMediators := approvedMediators s; owner := owner s;
  entered := b |}.

Definition set_platformFee (f : uint256) (s : State) : State := {|
  escrows := escrows s; clientEscrows := clientEscrows s;
  freelancerEscrows := freelancerEscrows s; nextEscrowId := nextEscrowId s;
  platformFee := f; feeRecipient := feeRecipient s;
  approvedMediators := approvedMediators s; owner := owner s;
  entered := entered s |}.

Definition set_feeRecipient (a : address) (s : State) : State := {|
  escrows := escrows s; clientEscrows := clientEscrows s;
  freelancerEscrows := freelancerEscrows s; nextEscrowId := nextEscrowId s;
  platformFee := platformFee s; feeRecipient := a;
  approvedMediators := approvedMediators s; owner := owner s;
  entered := entered s |}.

Definition set_approvedMediators (m : gmap N bool) (s : State) : State := {|
  escrows := escrows s; clientEscrows := clientEscrows s;
  freelancerEscrows := freelancerEscrows s; nextEscrowId := nextEscrowId s;
  platformFee := platformFee s; feeRecipient := feeRecipient s;
  approvedMediators := m; owner := owner s;
  entered := entered s |}.

Definition set_nextEscrowId (n : uint256) (s : State) : State := {|
  escrows := escrows s; clientEscrows := clientEscrows s;
  freelancerEscrows := freelancerEscrows s; nextEscrowId := n;
  platformFee := platformFee s; feeRecipient := feeRecipient s;
  approvedMediators := approvedMediators s; owner := owner s;
  entered := entered s |}.

Definition set_clientEscrows (m : gmap N (list N)) (s : State) : State := {|
  escrows := escrows s; clientEscrows := m;
  freelancerEscrows := freelancerEscrows s; nextEscrowId := nextEscrowId s;
  platformFee := platformFee s; feeRecipient := feeRecipient s;
  approvedMediators := approvedMediators s; owner := owner s;
  entered := entered s |}.

Definition set_freelancerEscrows (m : gmap N (list N)) (s : State) : State := {|
  escrows := escrows s; clientEscrows := clientEscrows s;
  freelancerEscrows := m; nextEscrowId := nextEscrowId s;
  platformFee := platformFee s; feeRecipient := feeRecipient s;
  approvedMediators := approvedMediators s; owner := owner s;
  entered := entered s |}.

Definition set_owner (a : address) (s : State) : State := {|
  escrows := escrows s; clientEscrows := clientEscrows s;
  freelancerEscrows := freelancerEscrows s; nextEscrowId := nextEscrowId s;
  platformFee := platformFee s; feeRecipient := feeRecipient s;
  approvedMediators := approvedMediators s; owner := a;
  entered := entered s |}.

(** [escrows[_escrowId]] *)
Definition escrow_at (s : State) (_escrowId : uint256) : EscrowContract :=
  default zero_escrow (escrows s !! _escrowId).

Definition store_escrow (_escrowId : uint256) (e : EscrowContract) (s : State) : State :=
  set_escrows (<[_escrowId := e]> (escrows s)) s.

(** [approvedMediators[_mediator]] *)
Definition is_approved (s : State) (_mediator : address) : bool :=
  default false (approvedMediators s !! _mediator).

Inductive Event : Type :=
  | EvEscrowCreated (escrowId : uint256) (client freelancer : address)
                    (amount : uint256) (token : address)
  | EvEscrowFunded (escrowId amount : uint256)
  | EvWorkSubmitted (escrowId : uint256) (deliveryHash : string)
  | EvWorkApproved (escrowId : uint256)
  | EvDisputeRaised (escrowId : uint256) (raisedBy : address)
  | EvDisputeResolved (escrowId : uint256) (winner : address)
                      (clientAmount freelancerAmount : uint256)
  | EvEscrowCompleted (escrowId freelancerPayout platformFee : uint256)
  | EvEscrowCancelled (escrowId : uint256).

Abbreviation Effect := (Effect Event).

(** *** Modifiers *)

Definition onlyParties (tx : Tx) (s : State) (_escrowId : uint256) : Result unit :=
  let escrow := escrow_at s _escrowId in
  require ((msg_sender tx =? client escrow) || (msg_sender tx =? freelancer escrow))
          "Only client or freelancer can call this".

Definition onlyClient (tx : Tx) (s : State) (_escrowId : uint256) : Result unit :=
  require (client (escrow_at s _escrowId) =? msg_sender tx) "Only client can call this".

Definition onlyFreelancer (tx : Tx) (s : State) (_escrowId : uint256) : Result unit :=
  require (freelancer (escrow_at s _escrowId) =? msg_sender tx)
          "Only freelancer can call this".

Definition onlyMediator (tx : Tx) (s : State) (_escrowId : uint256) : Result unit :=
  require (mediator (escrow_at s _escrowId) =? msg_sender tx)
          "Only assigned mediator can call this".

Definition validEscrow (s : State) (_escrowId : uint256) : Result unit :=
  require (_escrowId <? nextEscrowId s) "Escrow does not exist".

(** Ownable.onlyOwner *)
Definition onlyOwner (tx : Tx) (s : State) : Result unit :=
  if owner s =? msg_sender tx then Ok tt
  else Fail (CustomError "OwnableUnauthorizedAccount").

(** ReentrancyGuard.nonReentrant: the part before and the part after the body. *)
Definition nonReentrantBefore (s : State) : Result State :=
  if entered s then Fail (CustomError "ReentrancyGuardReentrantCall")
  else Ok (set_entered true s).

Definition nonReentrantAfter (s : State) : State := set_entered false s.

(** *** External calls *)

(** [IERC20(_token).transferFrom(from, to, amt);] the returned boolean is
    dropped by the caller, a revert is bubbled up. *)
Definition erc20_transferFrom (tx : Tx) (_token from to : address) (amt : uint256)
    (log : list Effect) : Result (list Effect) :=
  match oracle tx (calls_made log) with
  | Reverts => Fail Bubbled
  | Returns _ => Ok (log ++ [Ledger (TransferFrom _token from to amt)])
  end.

Definition _transferFunds (tx : Tx) (_to : address) (_amount : uint256) (_token : address)
    (log : list Effect) : Result (list Effect) :=
  if _token =? 0 then
    match oracle tx (calls_made log) with
    | Returns _ => Ok (log ++ [Ledger (SendEth _to _amount)])
    | Reverts => Fail (RequireFailed "ETH transfer failed")
    end
  else
    match oracle tx (calls_made log) with
    | Returns _ => Ok (log ++ [Ledger (Transfer _token _to _amount)])
    | Reverts => Fail Bubbled
    end.

Definition _releasePayment (tx : Tx) (_escrowId : uint256) (s : State)
    (log : list Effect) : Result (list Effect) :=
  let escrow := escrow_at s _escrowId in
  prod ← checked_mul (amount escrow) (platformFee s);
  let fee := prod / 10000 in
  freelancerPayout ← checked_sub (amount escrow) fee;
  log1 ← _transferFunds tx (freelancer escrow) freelancerPayout (token escrow) log;
  log2 ← _transferFunds tx (feeRecipient s) fee (token escrow) log1;
  Ok (log2 ++ [Emit (EvEscrowCompleted _escrowId freelancerPayout fee)]).

(** *** Constructor *)

Definition constructor (deployer _feeRecipient : address) : State := {|
  escrows := ∅; clientEscrows := ∅; freelancerEscrows := ∅;
  nextEscrowId := 1; platformFee := 250; feeRecipient := _feeRecipient;
  approvedMediators := ∅; owner := deployer; entered := false |}.

(** *** External functions *)

(** [m[k].push(x)] on a mapping to dynamic arrays. *)
Definition push_to (k : address) (x : uint256) (m : gmap N (list N)) : gmap N (list N) :=
  <[k := default [] (m !! k) ++ [x]]> m.

Definition createEscrow (tx : Tx) (_freelancer _mediator : address) (_amount : uint256)
    (_token : address) (_deadline : uint256) (_workDescription : string)
    (s : State) : Result (uint256 * State * list Effect) :=
  require (negb (_freelancer =? 0)) "Invalid freelancer address";;
  require (0 <? _amount) "Amount must be greater than 0";;
  require (block_timestamp tx <? _deadline) "Deadline must be in the future";;
  require (is_approved s _mediator || (_mediator =? owner s)) "Invalid mediator";;
  let escrowId := nextEscrowId s in
  next ← checked_add (nextEscrowId s) 1;
  let s1 := set_nextEscrowId next s in
  let old := escrow_at s1 escrowId in
  let newEscrow := {|
    id := escrowId; client := msg_sender tx; freelancer := _freelancer;
    mediator := _mediator; amount := _amount; token := _token;
    status := Created; deadline := _deadline;
    workDescription := _workDescription; deliveryHash := deliveryHash old;
    createdAt := block_timestamp tx; lastUpdated := block_timestamp tx;
    clientApproved := clientApproved old;
    freelancerSubmitted := freelancerSubmitted old |} in
  let s2 := store_escrow escrowId newEscrow s1 in
  let s3 := set_clientEscrows (push_to (msg_sender tx) escrowId (clientEscrows s2)) s2 in
  let s4 := set_freelancerEscrows (push_to _freelancer escrowId (freelancerEscrows s3)) s3 in
  Ok (escrowId, s4,
      [Emit (EvEscrowCreated escrowId (msg_sender tx) _freelancer _amount _token)]).

(** [fundEscrow] is payable: [value] is msg.value. *)
Definition fundEscrow (tx : Tx) (value : uint256) (_escrowId : uint256)
    (s : State) : Result (State * list Effect) :=
  validEscrow s _escrowId;;
  onlyClient tx s _escrowId;;
  s1 ← nonReentrantBefore s;
  let escrow := escrow_at s1 _escrowId in
  require (bool_decide (status escrow = Created)) "Escrow already funded or completed";;
  log ← (if token escrow =? 0 then
           require (value =? amount escrow) "Incorrect ETH amount";;
           Ok []
         else
           require (value =? 0) "Do not send ETH for token payments";;
           erc20_transferFrom tx (token escrow) (msg_sender tx) (this tx) (amount escrow) []);
  let escrow1 := with_lastUpdated (block_timestamp tx) (with_status Funded escrow) in
  let s2 := store_escrow _escrowId escrow1 s1 in
  Ok (nonReentrantAfter s2, log ++ [Emit (EvEscrowFunded _escrowId (amount escrow1))]).

Definition submitWork (tx : Tx) (_escrowId : uint256) (_deliveryHash : string)
    (s : State) : Result (State * list Effect) :=
  validEscrow s _escrowId;;
  onlyFreelancer tx s _escrowId;;
  let escrow := escrow_at s _escrowId in
  require (bool_decide (status escrow = Funded)) "Escrow not funded";;
  require (block_timestamp tx <=? deadline escrow) "Deadline passed";;
  require (0 <? N.of_nat (String.length _deliveryHash)) "Delivery hash required";;
  let escrow1 :=
    with_lastUpdated (block_timestamp tx)
      (with_status WorkSubmitted
        (with_freelancerSubmitted true
          (with_deliveryHash _deliveryHash escrow))) in
  Ok (store_escrow _escrowId escrow1 s, [Emit (EvWorkSubmitted _escrowId _deliveryHash)]).

Definition approveWork (tx : Tx) (_escrowId : uint256)
    (s : State) : Result (State * list Effect) :=
  validEscrow s _escrowId;;
  onlyClient tx s _escrowId;;
  s1 ← nonReentrantBefore s;
  let escrow := escrow_at s1 _escrowId in
  require (bool_decide (status escrow = WorkSubmitted)) "Work not submitted";;
  let escrow1 :=
    with_lastUpdated (block_timestamp tx)
      (with_status Completed (with_clientApproved true escrow)) in
  let s2 := store_escrow _escrowId escrow1 s1 in
  log ← _releasePayment tx _escrowId s2 [];
  Ok (nonReentrantAfter s2, log ++ [Emit (EvWorkApproved _escrowId)]).

Definition raiseDispute (tx : Tx) (_escrowId : uint256)
    (s : State) : Result (State * list Effect) :=
  validEscrow s _escrowId;;
  onlyParties tx s _escrowId;;
  let escrow := escrow_at s _escrowId in
  require (bool_decide (status escrow = Funded) || bool_decide (status escrow = WorkSubmitted))
          "Cannot dispute at this stage";;
  let escrow1 := with_lastUpdated (block_timestamp tx) (with_status Disputed escrow) in
  Ok (store_escrow _escrowId escrow1 s, [Emit (EvDisputeRaised _escrowId (msg_sender tx))]).

Definition resolveDispute (tx : Tx) (_escrowId _clientAmount _freelancerAmount : uint256)
    (s : State) : Result (State * list Effect) :=
  validEscrow s _escrowId;;
  onlyMediator tx s _escrowId;;
  s1 ← nonReentrantBefore s;
  let escrow := escrow_at s1 _escrowId in
  require (bool_decide (status escrow = Disputed)) "Escrow not disputed";;
  total ← checked_add _clientAmount _freelancerAmount;
  require (total =? amount escrow) "Amounts must sum to total";;
  let escrow1 := with_lastUpdated (block_timestamp tx) (with_status Completed escrow) in
  let s2 := store_escrow _escrowId escrow1 s1 in
  log1 ← (if 0 <? _freelancerAmount
          then _transferFunds tx (freelancer escrow1) _freelancerAmount (token escrow1) []
          else Ok []);
  log2 ← (if 0 <? _clientAmount
          then _transferFunds tx (client escrow1) _clientAmount (token escrow1) log1
          else Ok log1);
  let winner := if _clientAmount <? _freelancerAmount
                then freelancer escrow1 else client escrow1 in
  Ok (nonReentrantAfter s2,
      log2 ++ [Emit (EvDisputeResolved _escrowId winner _clientAmount _freelancerAmount)]).

Definition cancelEscrow (tx : Tx) (_escrowId : uint256)
    (s : State) : Result (State * list Effect) :=
  validEscrow s _escrowId;;
  onlyClient tx s _escrowId;;
  s1 ← nonReentrantBefore s;
  let escrow := escrow_at s1 _escrowId in
  require (bool_decide (status escrow = Created)) "Cannot cancel funded escrow";;
  let escrow1 := with_lastUpdated (block_timestamp tx) (with_status Cancelled escrow) in
  let s2 := store_escrow _escrowId escrow1 s1 in
  Ok (nonReentrantAfter s2, [Emit (EvEscrowCancelled _escrowId)]).

(** *** Admin functions *)

Definition addMediator (tx : Tx) (_mediator : address) (s : State) : Result (State * list Effect) :=
  onlyOwner tx s;;
  Ok (set_approvedMediators (<[_mediator := true]> (approvedMediators s)) s, []).

Definition removeMediator (tx : Tx) (_mediator : address) (s : State) : Result (State * list Effect) :=
  onlyOwner tx s;;
  Ok (set_approvedMediators (<[_mediator := false]> (approvedMediators s)) s, []).

Definition setPlatformFee (tx : Tx) (_fee : uint256) (s : State) : Result (State * list Effect) :=
  onlyOwner tx s;;
  require (_fee <=? 1000) "Fee cannot exceed 10%";;
  Ok (set_platformFee _fee s, []).

Definition setFeeRecipient (tx : Tx) (_feeRecipient : address) (s : State) : Result (State * list Effect) :=
  onlyOwner tx s;;
  require (negb (_feeRecipient =? 0)) "Invalid fee recipient";;
  Ok (set_feeRecipient _feeRecipient s, []).

(** The two state-changing functions inherited from OpenZeppelin's Ownable
    (not part of this repository; behaviour as in the library's release 5). *)
Definition transferOwnership (tx : Tx) (newOwner : address) (s : State) : Result (State * list Effect) :=
  onlyOwner tx s;;
  if newOwner =? 0 then Fail (CustomError "OwnableInvalidOwner")
  else Ok (set_owner newOwner s, []).

Definition renounceOwnership (tx : Tx) (s : State) : Result (State * list Effect) :=
  onlyOwner tx s;;
  Ok (set_owner 0 s, []).

(** *** Transactions *)

Inductive Call : Type :=
  | CreateEscrow (_freelancer _mediator : address) (_amount : uint256)
                 (_token : address) (_deadline : uint256) (_workDescription : string)
  | FundEscrow (value _escrowId : uint256)
  | SubmitWork (_escrowId : uint256) (_deliveryHash : string)
  | ApproveWork (_escrowId : uint256)
  | RaiseDispute (_escrowId : uint256)
  | ResolveDispute (_escrowId _clientAmount _freelancerAmount : uint256)
  | CancelEscrow (_escrowId : uint256)
  | AddMediator (_mediator : address)
  | RemoveMediator (_mediator : address)
  | SetPlatformFee (_fee : uint256)
  | SetFeeRecipient (_feeRecipient : address)
  | TransferOwnership (newOwner : address)
  | RenounceOwnership.

Definition step (tx : Tx) (c : Call) (s : State) : Result (State * list Effect) :=
  match c with
  | CreateEscrow f m a t d w =>
      '(_, s1, log) ← createEscrow tx f m a t d w s; Ok (s1, log)
  | FundEscrow v i => fundEscrow tx v i s
  | SubmitWork i h => submitWork tx i h s
  | ApproveWork i => approveWork tx i s
  | RaiseDispute i => raiseDispute tx i s
  | ResolveDispute i ca fa => resolveDispute tx i ca fa s
  | CancelEscrow i => cancelEscrow tx i s
  | AddMediator m => addMediator tx m s
  | RemoveMediator m => removeMediator tx m s
  | SetPlatformFee f => setPlatformFee tx f s
  | SetFeeRecipient r => setFeeRecipient tx r s
  | TransferOwnership o => transferOwnership tx o s
  | RenounceOwnership => renounceOwnership tx s
  end.

(** One call into the contract, taken alone: a failed call leaves storage
    as it was and produces no effect. While the call runs, the callee of an
    external call is not let back into the contract (see the conventions at
    the head of the file): [transact] is a whole transaction of the chain
    when no call is nested in it. The functions without [nonReentrant]
    ([createEscrow], [submitWork], [raiseDispute] and the administration)
    make no external call, so a call of one of them is never entered
    again, also when it is itself nested in another call. *)
Definition transact (tx : Tx) (c : Call) (s : State) : State * list Effect :=
  match step tx c s with
  | Ok r => r
  | Fail _ => (s, [])
  end.

(** A sequence of transactions, oldest first. *)
Fixpoint run (txs : list (Tx * Call)) (s : State) : State * list Effect :=
  match txs with
  | [] => (s, [])
  | (tx, c) :: rest =>
      let '(s1, log1) := transact tx c s in
      let '(s2, log2) := run rest s1 in
      (s2, log1 ++ log2)
  end.

(** States the deployed contract can be in. No account has the zero
    address, so no transaction is sent from it. *)
Inductive reachable : State -> Prop :=
  | reachable_constructor deployer _feeRecipient :
      deployer <> 0 -> reachable (constructor deployer _feeRecipient)
  | reachable_step tx c s s1 log :
      reachable s -> msg_sender tx <> 0 -> step tx c s = Ok (s1, log) -> reachable s1.

(** *** Vocabulary for the statements *)

(** The custody call [_transferFunds] issues to pay [_amount] to [_to]. *)
Definition credit (_token _to : address) (_amount : uint256) : LedgerCall :=
  if _token =? 0 then SendEth _to _amount else Transfer _token _to _amount.

(** The record each transition writes back. *)
Definition funded_escrow (tx : Tx) (e : EscrowContract) : EscrowContract :=
  with_lastUpdated (block_timestamp tx) (with_status Funded e).

Definition submitted_escrow (tx : Tx) (h : string) (e : EscrowContract) : EscrowContract :=
  with_lastUpdated (block_timestamp tx)
    (with_status WorkSubmitted (with_freelancerSubmitted true (with_deliveryHash h e))).

Definition approved_escrow (tx : Tx) (e : EscrowContract) : EscrowContract :=
  with_lastUpdated (block_timestamp tx) (with_status Completed (with_clientApproved true e)).

Definition disputed_escrow (tx : Tx) (e : EscrowContract) : EscrowContract :=
  with_lastUpdated (block_timestamp tx) (with_status Disputed e).

Definition resolved_escrow (tx : Tx) (e : EscrowContract) : EscrowContract :=
  with_lastUpdated (block_timestamp tx) (with_status Completed e).

Definition cancelled_escrow (tx : Tx) (e : EscrowContract) : EscrowContract :=
  with_lastUpdated (block_timestamp tx) (with_status Cancelled e).

(** The custody calls of a dispute resolution, in program order. *)
Definition dispute_credits (e : EscrowContract) (a b : uint256) : list LedgerCall :=
  (if 0 <? b then [credit (token e) (freelancer e) b] else []) ++
  (if 0 <? a then [credit (token e) (client e) a] else []).

Definition dispute_winner (e : EscrowContract) (a b : uint256) : address :=
  if a <? b then freelancer e else client e.

Definition terminal (st : EscrowStatus) : bool :=
  match st with
  | Completed | Cancelled | Refunded => true
  | _ => false
  end.

(** The escrow a state-changing escrow operation works on. *)
Definition targets (c : Call) : option uint256 :=
  match c with
  | FundEscrow _ i | SubmitWork i _ | ApproveWork i | RaiseDispute i
  | ResolveDispute i _ _ | CancelEscrow i => Some i
  | _ => None
  end.

(** The reason string of the status [require] of each escrow operation. *)
Definition status_guard (c : Call) : string :=
  match c with
  | FundEscrow _ _ => "Escrow already funded or completed"
  | SubmitWork _ _ => "Escrow not funded"
  | ApproveWork _ => "Work not submitted"
  | RaiseDispute _ => "Cannot dispute at this stage"
  | ResolveDispute _ _ _ => "Escrow not disputed"
  | CancelEscrow _ => "Cannot cancel funded escrow"
  | _ => EmptyString
  end.

(** The modifiers of an escrow operation all let the call through. *)
Definition modifiers_pass (tx : Tx) (c : Call) (s : State) : bool :=
  match c with
  | FundEscrow _ i | ApproveWork i | CancelEscrow i =>
      is_ok (validEscrow s i) && is_ok (onlyClient tx s i) && is_ok (nonReentrantBefore s)
  | SubmitWork i _ => is_ok (validEscrow s i) && is_ok (onlyFreelancer tx s i)
  | RaiseDispute i => is_ok (validEscrow s i) && is_ok (onlyParties tx s i)
  | ResolveDispute i _ _ =>
      is_ok (validEscrow s i) && is_ok (onlyMediator tx s i) && is_ok (nonReentrantBefore s)
  | _ => true
  end.

Definition is_create (c : Call) : bool :=
  match c with CreateEscrow _ _ _ _ _ _ => true | _ => false end.

(** The caller holds one of the three roles of the escrow. *)
Definition has_role (tx : Tx) (e : EscrowContract) : Prop :=
  msg_sender tx = client e \/ msg_sender tx = freelancer e \/ msg_sender tx = mediator e.

(** The amount a custody call pays out of the contract. *)
Definition paid_out (c : LedgerCall) : uint256 :=
  match c with
  | Transfer _ _ a | SendEth _ a => a
  | _ => 0
  end.

Definition total_paid (calls : list LedgerCall) : uint256 :=
  foldr (fun c acc => paid_out c + acc) 0 calls.

(** [l] is [n], [n+1], [n+2], ... *)
Fixpoint consecutive_from (n : uint256) (l : list uint256) : Prop :=
  match l with
  | [] => True
  | x :: rest => x = n /\ consecutive_from (n + 1) rest
  end.

(** The ids announced by the EscrowCreated events of a log. *)
Definition created_ids (log : list Effect) : list uint256 :=
  omap (fun x => match x with
                 | Emit (EvEscrowCreated i _ _ _ _) => Some i
                 | _ => None
                 end) log.

(** *** Sample transactions and states *)

(** A caller at a time whose custody calls all go through. *)
Definition honest (who : address) (now : uint256) : Tx :=
  {| msg_sender := who; block_timestamp := now; this := 999;
     self_balance := 0; oracle := fun _ => Returns true |}.

(** A caller whose token reports every transfer as not performed. *)
Definition unfunded (who : address) (now : uint256) : Tx :=
  {| msg_sender := who; block_timestamp := now; this := 999;
     self_balance := 0; oracle := fun _ => Returns false |}.

Definition deployed : State := constructor 100 200.

(** Client 1 hires freelancer 2 for 1000 wei, mediated by the owner. *)
Definition eth_created : State :=
  fst (run [(honest 1 10, CreateEscrow 2 100 1000 0 50 "job")] deployed).

Definition eth_funded : State :=
  fst (run [(honest 1 11, FundEscrow 1000 1)] eth_created).

Definition eth_submitted : State :=
  fst (run [(honest 2 12, SubmitWork 1 "Qm")] eth_funded).

Definition eth_disputed : State :=
  fst (run [(honest 2 13, RaiseDispute 1)] eth_submitted).

Definition eth_completed : State :=
  fst (run [(honest 1 14, ApproveWork 1)] eth_submitted).

(** The same job paid in token 7. *)
Definition token_created : State :=
  fst (run [(honest 1 10, CreateEscrow 2 100 1000 7 50 "job")] deployed).

(** A job of 2^255 units of token 7. *)
Definition huge_submitted : State :=
  fst (run [(honest 1 10, CreateEscrow 2 100 (2 ^ 255) 7 50 "job");
            (honest 1 11, FundEscrow 0 1);
            (honest 2 12, SubmitWork 1 "Qm")] deployed).

(** A caller whose counterparties refuse every transfer: each external call
    of the transaction reverts. *)
Definition refusing (who : address) (now : uint256) : Tx :=
  {| msg_sender := who; block_timestamp := now; this := 999;
     self_balance := 0; oracle := fun _ => Reverts |}.

(** The job paid in token 7, funded and then disputed by the freelancer. *)
Definition token_disputed : State :=
  fst (run [(honest 1 11, FundEscrow 0 1); (honest 2 12, RaiseDispute 1)] token_created).

(** *** View functions *)

Definition getEscrowDetails (s : State) (_escrowId : uint256) : Result EscrowContract :=
  validEscrow s _escrowId;;
  Ok (escrow_at s _escrowId).

Definition getClientEscrows (s : State) (_client : address) : list uint256 :=
  default [] (clientEscrows s !! _client).

Definition getFreelancerEscrows (s : State) (_freelancer : address) : list uint256 :=
  default [] (freelancerEscrows s !! _freelancer).

(** *** Vocabulary for the properties of whole runs *)

(** The storage a call leaves when it succeeds. *)
Definition commit (tx : Tx) (c : Call) (s : State) : State :=
  match c with
  | CreateEscrow f m a t d w =>
      let i := nextEscrowId s in
      let e := {|
        id := i; client := msg_sender tx; freelancer := f; mediator := m;
        amount := a; token := t; status := Created; deadline := d;
        workDescription := w; deliveryHash := deliveryHash (escrow_at s i);
        createdAt := block_timestamp tx; lastUpdated := block_timestamp tx;
        clientApproved := clientApproved (escrow_at s i);
        freelancerSubmitted := freelancerSubmitted (escrow_at s i) |} in
      let s2 := store_escrow i e (set_nextEscrowId (i + 1) s) in
      let s3 := set_clientEscrows (push_to (msg_sender tx) i (clientEscrows s2)) s2 in
      set_freelancerEscrows (push_to f i (freelancerEscrows s3)) s3
  | FundEscrow _ i => store_escrow i (funded_escrow tx (escrow_at s i)) s
  | SubmitWork i h => store_escrow i (submitted_escrow tx h (escrow_at s i)) s
  | ApproveWork i => store_escrow i (approved_escrow tx (escrow_at s i)) s
  | RaiseDispute i => store_escrow i (disputed_escrow tx (escrow_at s i)) s
  | ResolveDispute i _ _ => store_escrow i (resolved_escrow tx (escrow_at s i)) s
  | CancelEscrow i => store_escrow i (cancelled_escrow tx (escrow_at s i)) s
  | AddMediator m => set_approvedMediators (<[m := true]> (approvedMediators s)) s
  | RemoveMediator m => set_approvedMediators (<[m := false]> (approvedMediators s)) s
  | SetPlatformFee f => set_platformFee f s
  | SetFeeRecipient r => set_feeRecipient r s
  | TransferOwnership o => set_owner o s
  | RenounceOwnership => set_owner 0 s
  end.

(** The edges of the status machine. *)
Definition transition (a b : EscrowStatus) : bool :=
  match a, b with
  | Created, Funded | Created, Cancelled
  | Funded, WorkSubmitted | Funded, Disputed
  | WorkSubmitted, Completed | WorkSubmitted, Disputed
  | Disputed, Completed => true
  | _, _ => false
  end.

(** The terms of an escrow, fixed when it is created. *)
Definition terms (e : EscrowContract) :=
  (id e, client e, freelancer e, mediator e, amount e, token e, deadline e,
   workDescription e, createdAt e).

(** The statuses in which the contract holds the escrow's amount. *)
Definition holds_funds (st : EscrowStatus) : bool :=
  match st with
  | Funded | WorkSubmitted | Disputed => true
  | _ => false
  end.

Definition earmarked (_token : address) (e : EscrowContract) : uint256 :=
  if holds_funds (status e) && (token e =? _token) then amount e else 0.

(** The sum of the amounts of the escrows held in currency [_token]. *)
Definition custodied (_token : address) (s : State) : uint256 :=
  map_fold (fun _ e acc => earmarked _token e + acc) 0 (escrows s).

(** What a custody call moves into, and out of, the contract in currency
    [_token] (0 is the native coin). *)
Definition call_in (this_ _token : address) (c : LedgerCall) : uint256 :=
  match c with
  | TransferFrom t _ to a => if (t =? _token) && (to =? this_) then a else 0
  | _ => 0
  end.

Definition call_out (_token : address) (c : LedgerCall) : uint256 :=
  match c with
  | Transfer t _ a => if t =? _token then a else 0
  | SendEth _ a => if _token =? 0 then a else 0
  | _ => 0
  end.

(** What a successful transaction takes into custody: the native coin sent
    with a payable call and the token debits it issued. *)
Definition custody_in (_token : address) (tx : Tx) (c : Call) (log : list Effect) : uint256 :=
  (if _token =? 0 then match c with FundEscrow v _ => v | _ => 0 end else 0) +
  foldr (fun x acc => call_in (this tx) _token x + acc) 0 (ledger_calls log).

Definition custody_out (_token : address) (log : list Effect) : uint256 :=
  foldr (fun x acc => call_out _token x + acc) 0 (ledger_calls log).

(** What holds of the storage of a deployed contract: the escrows are those
    numbered from 1 up to the counter, each record carries its own id and
    the terms [createEscrow] checked, nothing has been delivered before a
    submission, and the two index mappings list each escrow under its
    client and under its freelancer, once. *)
Record well_formed (s : State) : Prop := {
  wf_counter : 1 <= nextEscrowId s;
  wf_domain : forall i, is_Some (escrows s !! i) <-> 1 <= i < nextEscrowId s;
  wf_record : forall i e, escrows s !! i = Some e ->
    id e = i /\ 0 < amount e /\ freelancer e <> 0 /\ createdAt e < deadline e /\
    status e <> Refunded;
  wf_undelivered : forall i e, escrows s !! i = Some e ->
    status e = Created \/ status e = Funded \/ status e = Cancelled ->
    deliveryHash e = EmptyString /\ freelancerSubmitted e = false;
  wf_clients : forall a i,
    i ∈ getClientEscrows s a <-> exists e, escrows s !! i = Some e /\ client e = a;
  wf_clients_once : forall a, NoDup (getClientEscrows s a);
  wf_freelancers : forall a i,
    i ∈ getFreelancerEscrows s a <-> exists e, escrows s !! i = Some e /\ freelancer e = a;
  wf_freelancers_once : forall a, NoDup (getFreelancerEscrows s a)
}.

End FreelanceEscrow.

(** ** SubscriptionPool *)

Module SubscriptionPool.

Inductive PoolStatus : Type :=
  | Active
  | Paused
  | Cancelled.

Global Instance PoolStatus_eq_dec : EqDecision PoolStatus.
Proof. solve_decision. Defined.

Record Member : Type := {
  isActive : bool;
  joinedAt : uint256;
  lastPayment : uint256;
  failedPaymentCount : uint256;
  totalPaid : uint256
}.

Definition zero_member : Member := {|
  isActive := false; joinedAt := 0; lastPayment := 0;
  failedPaymentCount := 0; totalPaid := 0 |}.

Record Pool : Type := {
  id : uint256;
  owner : address;
  serviceName : string;
  monthlyAmount : uint256;
  token : address; (* 0 for ETH *)
  maxMembers : uint256;
  currentMembers : uint256;
  status : PoolStatus;
  nextPaymentDue : uint256;
  createdAt : uint256;
  members : gmap N Member;
  memberList : list N;
  failedPayments : uint256
}.

Definition zero_pool : Pool := {|
  id := 0; owner := 0; serviceName := EmptyString; monthlyAmount := 0;
  token := 0; maxMembers := 0; currentMembers := 0; status := Active;
  nextPaymentDue := 0; createdAt := 0; members := ∅; memberList := [];
  failedPayments := 0 |}.

Definition with_currentMembers (n : uint256) (p : Pool) : Pool := {|
  id := id p; owner := owner p; serviceName := serviceName p;
  monthlyAmount := monthlyAmount p; token := token p;
  maxMembers := maxMembers p; currentMembers := n; status := status p;
  nextPaymentDue := nextPaymentDue p; createdAt := createdAt p;
  members := members p; memberList := memberList p;
  failedPayments := failedPayments p |}.

Definition with_nextPaymentDue (t : uint256) (p : Pool) : Pool := {|
  id := id p; owner := owner p; serviceName := serviceName p;
  monthlyAmount := monthlyAmount p; token := token p;
  maxMembers := maxMembers p; currentMembers := currentMembers p;
  status := status p; nextPaymentDue := t; createdAt := createdAt p;
  members := members p; memberList := memberList p;
  failedPayments := failedPayments p |}.

Definition with_members (m : gmap N Member) (p : Pool) : Pool := {|
  id := id p; owner := owner p; serviceName := serviceName p;
  monthlyAmount := monthlyAmount p; token := token p;
  maxMembers := maxMembers p; currentMembers := currentMembers p;
  status := status p; nextPaymentDue := nextPaymentDue p;
  createdAt := createdAt p; members := m; memberList := memberList p;
  failedPayments := failedPayments p |}.

Definition with_memberList (l : list N) (p : Pool) : Pool := {|
  id := id p; owner := owner p; serviceName := serviceName p;
  monthlyAmount := monthlyAmount p; token := token p;
  maxMembers := maxMembers p; currentMembers := currentMembers p;
  status := status p; nextPaymentDue := nextPaymentDue p;
  createdAt := createdAt p; members := members p; memberList := l;
  failedPayments := failedPayments p |}.

(** Contract storage; [_owner] is Ownable's owner. *)
Record State : Type := {
  pools : gmap N Pool;
  ownerPools : gmap N (list N);
  memberPools : gmap N (list N);
  nextPoolId : uint256;
  platformFee : uint256;
  feeRecipient : address;
  _owner : address;
  entered : bool
}.

Definition set_pools (m : gmap N Pool) (s : State) : State := {|
  pools := m; ownerPools := ownerPools s; memberPools := memberPools s;
  nextPoolId := nextPoolId s; platformFee := platformFee s;
  feeRecipient := feeRecipient s; _owner := _owner s; entered := entered s |}.

Definition set_ownerPools (m : gmap N (list N)) (s : State) : State := {|
  pools := pools s; ownerPools := m; memberPools := memberPools s;
  nextPoolId := nextPoolId s; platformFee := platformFee s;
  feeRecipient := feeRecipient s; _owner := _owner s; entered := entered s |}.

Definition set_memberPools (m : gmap N (list N)) (s : State) : State := {|
  pools := pools s; ownerPools := ownerPools s; memberPools := m;
  nextPoolId := nextPoolId s; platformFee := platformFee s;
  feeRecipient := feeRecipient s; _owner := _owner s; entered := entered s |}.

Definition set_nextPoolId (n : uint256) (s : State) : State := {|
  pools := pools s; ownerPools := ownerPools s; memberPools := memberPools s;
  nextPoolId := n; platformFee := platformFee s;
  feeRecipient := feeRecipient s; _owner := _owner s; entered := entered s |}.

Definition set_entered (b : bool) (s : State) : State := {|
  pools := pools s; ownerPools := ownerPools s; memberPools := memberPools s;
  nextPoolId := nextPoolId s; platformFee := platformFee s;
  feeRecipient := feeRecipient s; _owner := _owner s; entered := b |}.

Definition PAYMENT_GRACE_PERIOD : uint256 := 3 * 86400.
Definition MAX_FAILED_PAYMENTS : uint256 := 2.
Definition THIRTY_DAYS : uint256 := 30 * 86400.

(** [pools[_poolId]] and [pool.members[_member]] *)
Definition pool_at (s : State) (_poolId : uint256) : Pool :=
  default zero_pool (pools s !! _poolId).

Definition member_at (p : Pool) (_member : address) : Member :=
  default zero_member (members p !! _member).

Definition store_pool (_poolId : uint256) (p : Pool) (s : State) : State :=
  set_pools (<[_poolId := p]> (pools s)) s.

Definition store_member (_member : address) (m : Member) (p : Pool) : Pool :=
  with_members (<[_member := m]> (members p)) p.

Inductive Event : Type :=
  | EvPoolCreated (poolId : uint256) (owner : address) (serviceName : string)
                  (monthlyAmount maxMembers : uint256)
  | EvMemberJoined (poolId : uint256) (member : address)
  | EvMemberLeft (poolId : uint256) (member : address)
  | EvPaymentCollected (poolId : uint256) (member : address) (amount : uint256)
  | EvPayoutCompleted (poolId ownerAmount platformFee : uint256)
  | EvPaymentFailed (poolId : uint256) (member : address)
  | EvMemberRemoved (poolId : uint256) (member : address) (reason : string)
  | EvPoolStatusChanged (poolId : uint256) (newStatus : PoolStatus).

Abbreviation Effect := (Effect Event).

(** *** Modifiers *)

Definition validPool (s : State) (_poolId : uint256) : Result unit :=
  require (_poolId <? nextPoolId s) "Pool does not exist".

Definition poolActive (s : State) (_poolId : uint256) : Result unit :=
  require (bool_decide (status (pool_at s _poolId) = Active)) "Pool not active".

Definition nonReentrantBefore (s : State) : Result State :=
  if entered s then Fail (CustomError "ReentrancyGuardReentrantCall")
  else Ok (set_entered true s).

Definition nonReentrantAfter (s : State) : State := set_entered false s.

(** *** Internal functions *)

(** The swap-with-last-and-pop loop: overwrite the first slot holding [x]
    with the last element and drop the last slot; nothing if [x] is absent. *)
Definition swap_remove (x : N) (l : list N) : list N :=
  match list_find (fun y => y = x) l, last l with
  | Some (i, _), Some z => take (length l - 1) (<[i := z]> l)
  | _, _ => l
  end.

Definition _removeMember (_poolId : uint256) (_member : address) (_reason : string)
    (s : State) (log : list Effect) : Result (State * list Effect) :=
  let pool := pool_at s _poolId in
  let pool1 :=
    store_member _member
      {| isActive := false;
         joinedAt := joinedAt (member_at pool _member);
         lastPayment := lastPayment (member_at pool _member);
         failedPaymentCount := failedPaymentCount (member_at pool _member);
         totalPaid := totalPaid (member_at pool _member) |} pool in
  n ← checked_sub (currentMembers pool1) 1;
  let pool2 := with_currentMembers n pool1 in
  let pool3 := with_memberList (swap_remove _member (memberList pool2)) pool2 in
  let s1 := store_pool _poolId pool3 s in
  let userPools := default [] (memberPools s1 !! _member) in
  let s2 := set_memberPools (<[_member := swap_remove _poolId userPools]> (memberPools s1)) s1 in
  Ok (s2, log ++ [Emit (EvMemberRemoved _poolId _member _reason);
                  Emit (EvMemberLeft _poolId _member)]).

(** [collectFromMember], reached through [this.collectFromMember(...)]:
    true when the call returned, false when it reverted. *)
Definition collectFromMember (tx : Tx) (_poolId : uint256) (_member : address)
    (_amount : uint256) (s : State) (log : list Effect) : bool * list Effect :=
  let pool := pool_at s _poolId in
  if token pool =? 0 then (false, log)
  else
    match oracle tx (calls_made log) with
    | Reverts => (false, log ++ [Caught (TransferFrom (token pool) _member (this tx) _amount)])
    | Returns _ => (true, log ++ [Ledger (TransferFrom (token pool) _member (this tx) _amount)])
    end.

Definition _tryCollectPayment (tx : Tx) (_poolId : uint256) (_member : address)
    (_amount : uint256) (s : State) (log : list Effect)
    : Result (bool * State * list Effect) :=
  let pool := pool_at s _poolId in
  let '(returned, log1) := collectFromMember tx _poolId _member _amount s log in
  if returned then
    paid ← checked_add (totalPaid (member_at pool _member)) _amount;
    let m := {| isActive := isActive (member_at pool _member);
                joinedAt := joinedAt (member_at pool _member);
                lastPayment := block_timestamp tx;
                failedPaymentCount := 0;
                totalPaid := paid |} in
    Ok (true, store_pool _poolId (store_member _member m pool) s,
        log1 ++ [Emit (EvPaymentCollected _poolId _member _amount)])
  else Ok (false, s, log1).

Definition _processPayout (tx : Tx) (_poolId _amount : uint256) (s : State)
    (log : list Effect) : Result (list Effect) :=
  let pool := pool_at s _poolId in
  prod ← checked_mul _amount (platformFee s);
  let fee := prod / 10000 in
  ownerPayout ← checked_sub _amount fee;
  log2 ←
    (if token pool =? 0 then
       log1 ← match oracle tx (calls_made log) with
              | Returns _ => Ok (log ++ [Ledger (SendEth (owner pool) ownerPayout)])
              | Reverts => Fail (RequireFailed "Owner payout failed")
              end;
       match oracle tx (calls_made log1) with
       | Returns _ => Ok (log1 ++ [Ledger (SendEth (feeRecipient s) fee)])
       | Reverts => Fail (RequireFailed "Fee payout failed")
       end
     else
       log1 ← match oracle tx (calls_made log) with
              | Returns _ => Ok (log ++ [Ledger (Transfer (token pool) (owner pool) ownerPayout)])
              | Reverts => Fail Bubbled
              end;
       match oracle tx (calls_made log1) with
       | Returns _ => Ok (log1 ++ [Ledger (Transfer (token pool) (feeRecipient s) fee)])
       | Reverts => Fail Bubbled
       end);
  Ok (log2 ++ [Emit (EvPayoutCompleted _poolId ownerPayout fee)]).

Definition _checkAndProcessPayout (tx : Tx) (_poolId : uint256) (s : State)
    (log : list Effect) : Result (list Effect) :=
  let pool := pool_at s _poolId in
  memberShare ← checked_div (monthlyAmount pool) (maxMembers pool);
  expectedTotal ← checked_mul memberShare (currentMembers pool);
  log1 ←
    (if token pool =? 0 then Ok log
     else match oracle tx (calls_made log) with
          | Returns _ => Ok (log ++ [Ledger (BalanceOf (token pool) (this tx))])
          | Reverts => Fail Bubbled
          end);
  if expectedTotal <=? self_balance tx
  then _processPayout tx _poolId expectedTotal s log1
  else Ok log1.

(** *** Constructor and external functions *)

Definition constructor (deployer _feeRecipient : address) : State := {|
  pools := ∅; ownerPools := ∅; memberPools := ∅; nextPoolId := 1;
  platformFee := 200; feeRecipient := _feeRecipient; _owner := deployer;
  entered := false |}.

Definition push_to (k : address) (x : uint256) (m : gmap N (list N)) : gmap N (list N) :=
  <[k := default [] (m !! k) ++ [x]]> m.

Definition createPool (tx : Tx) (_serviceName : string) (_monthlyAmount : uint256)
    (_token : address) (_maxMembers : uint256) (s : State)
    : Result (uint256 * State * list Effect) :=
  require (0 <? N.of_nat (String.length _serviceName)) "Service name required";;
  require (0 <? _monthlyAmount) "Monthly amount must be greater than 0";;
  require ((2 <=? _maxMembers) && (_maxMembers <=? 20)) "Max members must be between 2-20";;
  let poolId := nextPoolId s in
  next ← checked_add (nextPoolId s) 1;
  let s1 := set_nextPoolId next s in
  let old := pool_at s1 poolId in
  due ← checked_add (block_timestamp tx) THIRTY_DAYS;
  let newPool := {|
    id := poolId; owner := msg_sender tx; serviceName := _serviceName;
    monthlyAmount := _monthlyAmount; token := _token;
    maxMembers := _maxMembers; currentMembers := 0; status := Active;
    nextPaymentDue := due; createdAt := block_timestamp tx;
    members := members old; memberList := memberList old;
    failedPayments := failedPayments old |} in
  let s2 := store_pool poolId newPool s1 in
  let s3 := set_ownerPools (push_to (msg_sender tx) poolId (ownerPools s2)) s2 in
  Ok (poolId, s3,
      [Emit (EvPoolCreated poolId (msg_sender tx) _serviceName _monthlyAmount _maxMembers)]).

(** [joinPool] is payable: [value] is msg.value. *)
Definition joinPool (tx : Tx) (value : uint256) (_poolId : uint256)
    (s : State) : Result (State * list Effect) :=
  validPool s _poolId;;
  poolActive s _poolId;;
  s1 ← nonReentrantBefore s;
  let pool := pool_at s1 _poolId in
  require (currentMembers pool <? maxMembers pool) "Pool is full";;
  require (negb (isActive (member_at pool (msg_sender tx)))) "Already a member";;
  require (negb (msg_sender tx =? owner pool)) "Owner cannot join their own pool";;
  memberShare ← checked_div (monthlyAmount pool) (maxMembers pool);
  log ← (if token pool =? 0 then
           require (value =? memberShare) "Incorrect ETH amount";;
           Ok []
         else
           require (value =? 0) "Do not send ETH for token payments";;
           match oracle tx 0%nat with
           | Reverts => Fail Bubbled
           | Returns _ =>
               Ok [Ledger (TransferFrom (token pool) (msg_sender tx) (this tx) memberShare)]
           end);
  let pool1 :=
    store_member (msg_sender tx)
      {| isActive := true; joinedAt := block_timestamp tx;
         lastPayment := block_timestamp tx; failedPaymentCount := 0;
         totalPaid := memberShare |} pool in
  let pool2 := with_memberList (memberList pool1 ++ [msg_sender tx]) pool1 in
  n ← checked_add (currentMembers pool2) 1;
  let pool3 := with_currentMembers n pool2 in
  let s2 := store_pool _poolId pool3 s1 in
  let s3 := set_memberPools (push_to (msg_sender tx) _poolId (memberPools s2)) s2 in
  let log1 := log ++ [Emit (EvMemberJoined _poolId (msg_sender tx));
                      Emit (EvPaymentCollected _poolId (msg_sender tx) memberShare)] in
  log2 ← _checkAndProcessPayout tx _poolId s3 log1;
  Ok (nonReentrantAfter s3, log2).

Definition leavePool (tx : Tx) (_poolId : uint256)
    (s : State) : Result (State * list Effect) :=
  validPool s _poolId;;
  s1 ← nonReentrantBefore s;
  let pool := pool_at s1 _poolId in
  require (isActive (member_at pool (msg_sender tx))) "Not a member of this pool";;
  '(s2, log) ← _removeMember _poolId (msg_sender tx) "Member left voluntarily" s1 [];
  Ok (nonReentrantAfter s2, log).

(** The body of the for loop of [collectPayments], from index [i] on.
    [gas] bounds the number of iterations the transaction can pay for. *)
Fixpoint collect_loop (gas : nat) (tx : Tx) (_poolId memberShare : uint256)
    (i successfulPayments totalCollected : uint256) (s : State) (log : list Effect)
    : Result (uint256 * State * list Effect) :=
  let pool := pool_at s _poolId in
  if negb (i <? N.of_nat (length (memberList pool))) then Ok (totalCollected, s, log)
  else
    match gas with
    | O => Fail OutOfGas
    | S gas1 =>
        match memberList pool !! N.to_nat i with
        | None => Fail Panic
        | Some member =>
            if negb (isActive (member_at pool member)) then
              i1 ← checked_add i 1;
              collect_loop gas1 tx _poolId memberShare i1
                successfulPayments totalCollected s log
            else
              '(collected, s1, log1) ← _tryCollectPayment tx _poolId member memberShare s log;
              if collected : bool then
                sp ← checked_add successfulPayments 1;
                tc ← checked_add totalCollected memberShare;
                i1 ← checked_add i 1;
                collect_loop gas1 tx _poolId memberShare i1 sp tc s1 log1
              else
                let pool1 := pool_at s1 _poolId in
                count ← checked_add (failedPaymentCount (member_at pool1 member)) 1;
                let m := {| isActive := isActive (member_at pool1 member);
                            joinedAt := joinedAt (member_at pool1 member);
                            lastPayment := lastPayment (member_at pool1 member);
                            failedPaymentCount := count;
                            totalPaid := totalPaid (member_at pool1 member) |} in
                let s2 := store_pool _poolId (store_member member m pool1) s1 in
                let log2 := log1 ++ [Emit (EvPaymentFailed _poolId member)] in
                '(s3, log3, i0) ←
                  (if MAX_FAILED_PAYMENTS <=? count then
                     '(s3, log3) ← _removeMember _poolId member
                                     "Too many failed payments" s2 log2;
                     i0 ← checked_sub i 1;
                     Ok (s3, log3, i0)
                   else Ok (s2, log2, i));
                i1 ← checked_add i0 1;
                collect_loop gas1 tx _poolId memberShare i1
                  successfulPayments totalCollected s3 log3
        end
    end.

Definition collectPayments (gas : nat) (tx : Tx) (_poolId : uint256)
    (s : State) : Result (State * list Effect) :=
  validPool s _poolId;;
  poolActive s _poolId;;
  s1 ← nonReentrantBefore s;
  let pool := pool_at s1 _poolId in
  require (nextPaymentDue pool <=? block_timestamp tx) "Payment not due yet";;
  memberShare ← checked_div (monthlyAmount pool) (maxMembers pool);
  '(totalCollected, s2, log) ← collect_loop gas tx _poolId memberShare 0 0 0 s1 [];
  due ← checked_add (block_timestamp tx) THIRTY_DAYS;
  let s3 := store_pool _poolId (with_nextPaymentDue due (pool_at s2 _poolId)) s2 in
  log1 ← (if 0 <? totalCollected
          then _processPayout tx _poolId totalCollected s3 log
          else Ok log);
  Ok (nonReentrantAfter s3, log1).

(** *** Transactions *)

Inductive Call : Type :=
  | CreatePool (_serviceName : string) (_monthlyAmount : uint256)
               (_token : address) (_maxMembers : uint256)
  | JoinPool (value _poolId : uint256)
  | LeavePool (_poolId : uint256)
  | CollectPayments (gas : nat) (_poolId : uint256).

Definition step (tx : Tx) (c : Call) (s : State) : Result (State * list Effect) :=
  match c with
  | CreatePool n a t m => '(_, s1, log) ← createPool tx n a t m s; Ok (s1, log)
  | JoinPool v i => joinPool tx v i s
  | LeavePool i => leavePool tx i s
  | CollectPayments g i => collectPayments g tx i s
  end.

Definition transact (tx : Tx) (c : Call) (s : State) : State * list Effect :=
  match step tx c s with
  | Ok r => r
  | Fail _ => (s, [])
  end.

Fixpoint run (txs : list (Tx * Call)) (s : State) : State * list Effect :=
  match txs with
  | [] => (s, [])
  | (tx, c) :: rest =>
      let '(s1, log1) := transact tx c s in
      let '(s2, log2) := run rest s1 in
      (s2, log1 ++ log2)
  end.

(** *** Sample transactions and states *)

(** A caller at a time; [failing k] tells whether the k-th external call of
    the transaction reverts. *)
Definition at_time (who : address) (now : uint256) (failing : nat -> bool) : Tx :=
  {| msg_sender := who; block_timestamp := now; this := 999; self_balance := 0;
     oracle := fun k => if failing k then Reverts else Returns true |}.

Definition none_fails (k : nat) : bool := false.
Definition first_fails (k : nat) : bool := Nat.eqb k 0.
Definition second_fails (k : nat) : bool := Nat.eqb k 1.

Definition deployed : State := constructor 100 200.

(** Owner 1 opens a pool of 400 a month in token 7 for up to 4 members;
    accounts 5 and 6 join, in this order. *)
Definition two_members : State :=
  fst (run [(at_time 1 10 none_fails, CreatePool "svc" 400 7 4);
            (at_time 5 11 none_fails, JoinPool 0 1);
            (at_time 6 12 none_fails, JoinPool 0 1)] deployed).

(** The first collection: the debit of member 5 (first in the list) fails. *)
Definition first_listed_failed_once : State :=
  fst (transact (at_time 50 (THIRTY_DAYS + 10) first_fails) (CollectPayments 10 1)
                two_members).

(** The first collection: the debit of member 6 (second in the list) fails. *)
Definition second_listed_failed_once : State :=
  fst (transact (at_time 50 (THIRTY_DAYS + 10) second_fails) (CollectPayments 10 1)
                two_members).

(** The events of a log that report a removal from the given pool. *)
Definition removals (log : list Effect) : list (address * string) :=
  omap (fun x => match x with
                 | Emit (EvMemberRemoved _ m r) => Some (m, r)
                 | _ => None
                 end) log.

(** *** The remaining external functions *)

Definition with_status (st : PoolStatus) (p : Pool) : Pool := {|
  id := id p; owner := owner p; serviceName := serviceName p;
  monthlyAmount := monthlyAmount p; token := token p;
  maxMembers := maxMembers p; currentMembers := currentMembers p;
  status := st; nextPaymentDue := nextPaymentDue p; createdAt := createdAt p;
  members := members p; memberList := memberList p;
  failedPayments := failedPayments p |}.

Definition set_platformFee (f : uint256) (s : State) : State := {|
  pools := pools s; ownerPools := ownerPools s; memberPools := memberPools s;
  nextPoolId := nextPoolId s; platformFee := f;
  feeRecipient := feeRecipient s; _owner := _owner s; entered := entered s |}.

Definition set_feeRecipient (a : address) (s : State) : State := {|
  pools := pools s; ownerPools := ownerPools s; memberPools := memberPools s;
  nextPoolId := nextPoolId s; platformFee := platformFee s;
  feeRecipient := a; _owner := _owner s; entered := entered s |}.

Definition set_owner (a : address) (s : State) : State := {|
  pools := pools s; ownerPools := ownerPools s; memberPools := memberPools s;
  nextPoolId := nextPoolId s; platformFee := platformFee s;
  feeRecipient := feeRecipient s; _owner := a; entered := entered s |}.

Definition onlyPoolOwner (tx : Tx) (s : State) (_poolId : uint256) : Result unit :=
  require (owner (pool_at s _poolId) =? msg_sender tx) "Only pool owner can call this".

(** Ownable.onlyOwner *)
Definition onlyOwner (tx : Tx) (s : State) : Result unit :=
  if _owner s =? msg_sender tx then Ok tt
  else Fail (CustomError "OwnableUnauthorizedAccount").

(** [manualPayment] is payable: [value] is msg.value. *)
Definition manualPayment (tx : Tx) (value : uint256) (_poolId : uint256)
    (s : State) : Result (State * list Effect) :=
  validPool s _poolId;;
  poolActive s _poolId;;
  s1 ← nonReentrantBefore s;
  let pool := pool_at s1 _poolId in
  require (isActive (member_at pool (msg_sender tx))) "Not a member";;
  memberShare ← checked_div (monthlyAmount pool) (maxMembers pool);
  log ← (if token pool =? 0 then
           require (value =? memberShare) "Incorrect ETH amount";;
           Ok []
         else
           require (value =? 0) "Do not send ETH for token payments";;
           match oracle tx 0%nat with
           | Reverts => Fail Bubbled
           | Returns _ =>
               Ok [Ledger (TransferFrom (token pool) (msg_sender tx) (this tx) memberShare)]
           end);
  paid ← checked_add (totalPaid (member_at pool (msg_sender tx))) memberShare;
  let m := {| isActive := isActive (member_at pool (msg_sender tx));
              joinedAt := joinedAt (member_at pool (msg_sender tx));
              lastPayment := block_timestamp tx;
              failedPaymentCount := 0;
              totalPaid := paid |} in
  let s2 := store_pool _poolId (store_member (msg_sender tx) m pool) s1 in
  let log1 := log ++ [Emit (EvPaymentCollected _poolId (msg_sender tx) memberShare)] in
  log2 ← _checkAndProcessPayout tx _poolId s2 log1;
  Ok (nonReentrantAfter s2, log2).

Definition pausePool (tx : Tx) (_poolId : uint256) (s : State) : Result (State * list Effect) :=
  validPool s _poolId;;
  onlyPoolOwner tx s _poolId;;
  Ok (store_pool _poolId (with_status Paused (pool_at s _poolId)) s,
      [Emit (EvPoolStatusChanged _poolId Paused)]).

Definition resumePool (tx : Tx) (_poolId : uint256) (s : State) : Result (State * list Effect) :=
  validPool s _poolId;;
  onlyPoolOwner tx s _poolId;;
  Ok (store_pool _poolId (with_status Active (pool_at s _poolId)) s,
      [Emit (EvPoolStatusChanged _poolId Active)]).

Definition cancelPool (tx : Tx) (_poolId : uint256) (s : State) : Result (State * list Effect) :=
  validPool s _poolId;;
  onlyPoolOwner tx s _poolId;;
  Ok (store_pool _poolId (with_status Cancelled (pool_at s _poolId)) s,
      [Emit (EvPoolStatusChanged _poolId Cancelled)]).

Definition setPlatformFee (tx : Tx) (_fee : uint256) (s : State) : Result (State * list Effect) :=
  onlyOwner tx s;;
  require (_fee <=? 500) "Fee cannot exceed 5%";;
  Ok (set_platformFee _fee s, []).

Definition setFeeRecipient (tx : Tx) (_feeRecipient : address) (s : State)
    : Result (State * list Effect) :=
  onlyOwner tx s;;
  require (negb (_feeRecipient =? 0)) "Invalid fee recipient";;
  Ok (set_feeRecipient _feeRecipient s, []).

(** The two state-changing functions inherited from OpenZeppelin's Ownable
    (not part of this repository; behaviour as in the library's release 5). *)
Definition transferOwnership (tx : Tx) (newOwner : address) (s : State)
    : Result (State * list Effect) :=
  onlyOwner tx s;;
  if newOwner =? 0 then Fail (CustomError "OwnableInvalidOwner")
  else Ok (set_owner newOwner s, []).

Definition renounceOwnership (tx : Tx) (s : State) : Result (State * list Effect) :=
  onlyOwner tx s;;
  Ok (set_owner 0 s, []).

(** *** View functions *)

Definition getPoolDetails (s : State) (_poolId : uint256)
    : Result (uint256 * address * string * uint256 * address * uint256 * uint256 *
              PoolStatus * uint256) :=
  validPool s _poolId;;
  let pool := pool_at s _poolId in
  Ok (id pool, owner pool, serviceName pool, monthlyAmount pool, token pool,
      maxMembers pool, currentMembers pool, status pool, nextPaymentDue pool).

Definition getPoolMembers (s : State) (_poolId : uint256) : Result (list address) :=
  validPool s _poolId;;
  Ok (memberList (pool_at s _poolId)).

Definition getMemberDetails (s : State) (_poolId : uint256) (_member : address)
    : Result Member :=
  validPool s _poolId;;
  Ok (member_at (pool_at s _poolId) _member).

Definition getOwnerPools (s : State) (_owner : address) : list uint256 :=
  default [] (ownerPools s !! _owner).

Definition getMemberPools (s : State) (_member : address) : list uint256 :=
  default [] (memberPools s !! _member).

(** *** Every state-changing entry point *)

Inductive Op : Type :=
  | Core (c : Call)
  | ManualPayment (value _poolId : uint256)
  | PausePool (_poolId : uint256)
  | ResumePool (_poolId : uint256)
  | CancelPool (_poolId : uint256)
  | SetPlatformFee (_fee : uint256)
  | SetFeeRecipient (_feeRecipient : address)
  | TransferOwnership (newOwner : address)
  | RenounceOwnership.

Definition exec (tx : Tx) (o : Op) (s : State) : Result (State * list Effect) :=
  match o with
  | Core c => step tx c s
  | ManualPayment v i => manualPayment tx v i s
  | PausePool i => pausePool tx i s
  | ResumePool i => resumePool tx i s
  | CancelPool i => cancelPool tx i s
  | SetPlatformFee f => setPlatformFee tx f s
  | SetFeeRecipient r => setFeeRecipient tx r s
  | TransferOwnership o => transferOwnership tx o s
  | RenounceOwnership => renounceOwnership tx s
  end.

(** One call into the contract, taken alone: a failed call leaves storage
    as it was and produces no effect. While the call runs, the callee of an
    external call is not let back into the contract (see the conventions at
    the head of the file): [commit] is a whole transaction of the chain when
    no call is nested in it. The functions without [nonReentrant]
    ([createPool], [pausePool], [resumePool], [cancelPool] and the
    administration) make no external call, so a call of one of them is
    never entered again, also when it is itself nested in another call.
    [commits] is a sequence of such calls. *)
Definition commit (tx : Tx) (o : Op) (s : State) : State * list Effect :=
  match exec tx o s with
  | Ok r => r
  | Fail _ => (s, [])
  end.

Fixpoint commits (txs : list (Tx * Op)) (s : State) : State * list Effect :=
  match txs with
  | [] => (s, [])
  | (tx, o) :: rest =>
      let '(s1, log1) := commit tx o s in
      let '(s2, log2) := commits rest s1 in
      (s2, log1 ++ log2)
  end.

(** States the deployed contract can be in. No account has the zero
    address, so no transaction is sent from it. *)
Inductive reachable : State -> Prop :=
  | reachable_constructor deployer _feeRecipient :
      deployer <> 0 -> reachable (constructor deployer _feeRecipient)
  | reachable_exec tx o s s1 log :
      reachable s -> msg_sender tx <> 0 -> exec tx o s = Ok (s1, log) -> reachable s1.

(** *** Vocabulary for the properties *)

(** The bookkeeping of one pool agrees: the list holds each active member
    once and nobody else, and the counter is the length of the list, within
    the pool's capacity. *)
Record pool_consistent (p : Pool) : Prop := {
  pc_once : NoDup (memberList p);
  pc_listed : forall m, m ∈ memberList p <-> isActive (member_at p m) = true;
  pc_count : currentMembers p = N.of_nat (length (memberList p));
  pc_capacity : currentMembers p <= maxMembers p
}.

(** What holds of the storage of a deployed contract. *)
Record well_formed (s : State) : Prop := {
  wf_counter : 1 <= nextPoolId s;
  wf_domain : forall i, is_Some (pools s !! i) <-> 1 <= i < nextPoolId s;
  wf_pools : forall i, pool_consistent (pool_at s i);
  wf_created : forall i p, pools s !! i = Some p ->
    id p = i /\ 0 < monthlyAmount p /\ 2 <= maxMembers p <= 20 /\
    serviceName p <> EmptyString;
  wf_memberPools : forall m i,
    i ∈ getMemberPools s m <-> isActive (member_at (pool_at s i) m) = true;
  wf_memberPools_once : forall m, NoDup (getMemberPools s m);
  wf_ownerPools : forall a i,
    i ∈ getOwnerPools s a <-> exists p, pools s !! i = Some p /\ owner p = a;
  wf_ownerPools_once : forall a, NoDup (getOwnerPools s a)
}.

(** What a pool is created with. *)
Definition terms (p : Pool)
    : uint256 * address * string * uint256 * address * uint256 * uint256 :=
  (id p, owner p, serviceName p, monthlyAmount p, token p, maxMembers p, createdAt p).

(** [p'] has the terms and the members of [p]. *)
Definition same_roster (p p' : Pool) : Prop :=
  terms p' = terms p /\ currentMembers p' = currentMembers p /\
  memberList p' = memberList p /\
  forall m, isActive (member_at p' m) = isActive (member_at p m).

(** What one member pays per period. *)
Definition share_of (p : Pool) : uint256 := monthlyAmount p / maxMembers p.

(** The custody call that pays [amount] of a pool's currency to [to], and
    the one that takes it from [from]. *)
Definition credit (_token to amount : uint256) : LedgerCall :=
  if _token =? 0 then SendEth to amount else Transfer _token to amount.

Definition payout_calls (s : State) (p : Pool) (amount : uint256) : list LedgerCall :=
  let fee := amount * platformFee s / 10000 in
  [credit (token p) (owner p) (amount - fee); credit (token p) (feeRecipient s) fee].

(** The pool and the status a call of the pool's owner asks for. *)
Definition status_request (o : Op) : option (uint256 * PoolStatus) :=
  match o with
  | PausePool i => Some (i, Paused)
  | ResumePool i => Some (i, Active)
  | CancelPool i => Some (i, Cancelled)
  | _ => None
  end.

(** The pool a call is aimed at. *)
Definition target (o : Op) : option uint256 :=
  match o with
  | Core (JoinPool _ i) | Core (LeavePool i) | Core (CollectPayments _ i)
  | ManualPayment _ i | PausePool i | ResumePool i | CancelPool i => Some i
  | _ => None
  end.

(** The storage the functions leave when they succeed. *)

Definition without_member (m : address) (p : Pool) : Pool :=
  with_memberList (swap_remove m (memberList p))
    (with_currentMembers (currentMembers p - 1)
       (store_member m
          {| isActive := false;
             joinedAt := joinedAt (member_at p m);
             lastPayment := lastPayment (member_at p m);
             failedPaymentCount := failedPaymentCount (member_at p m);
             totalPaid := totalPaid (member_at p m) |} p)).

Definition removed (_poolId : uint256) (m : address) (s : State) : State :=
  set_memberPools (<[m := swap_remove _poolId (getMemberPools s m)]> (memberPools s))
    (store_pool _poolId (without_member m (pool_at s _poolId)) s).

Definition with_new_member (tx : Tx) (p : Pool) : Pool :=
  with_currentMembers (currentMembers p + 1)
    (with_memberList (memberList p ++ [msg_sender tx])
       (store_member (msg_sender tx)
          {| isActive := true; joinedAt := block_timestamp tx;
             lastPayment := block_timestamp tx; failedPaymentCount := 0;
             totalPaid := share_of p |} p)).

Definition joined (tx : Tx) (_poolId : uint256) (s : State) : State :=
  set_memberPools (push_to (msg_sender tx) _poolId (memberPools s))
    (store_pool _poolId (with_new_member tx (pool_at s _poolId)) s).

Definition with_payment (tx : Tx) (p : Pool) : Pool :=
  store_member (msg_sender tx)
    {| isActive := isActive (member_at p (msg_sender tx));
       joinedAt := joinedAt (member_at p (msg_sender tx));
       lastPayment := block_timestamp tx;
       failedPaymentCount := 0;
       totalPaid := totalPaid (member_at p (msg_sender tx)) + share_of p |} p.

Definition new_pool (tx : Tx) (_serviceName : string) (_monthlyAmount : uint256)
    (_token : address) (_maxMembers poolId : uint256) : Pool := {|
  id := poolId; owner := msg_sender tx; serviceName := _serviceName;
  monthlyAmount := _monthlyAmount; token := _token;
  maxMembers := _maxMembers; currentMembers := 0; status := Active;
  nextPaymentDue := block_timestamp tx + THIRTY_DAYS;
  createdAt := block_timestamp tx;
  members := ∅; memberList := []; failedPayments := 0 |}.

Definition created (tx : Tx) (_serviceName : string) (_monthlyAmount : uint256)
    (_token : address) (_maxMembers : uint256) (s : State) : State :=
  set_ownerPools (push_to (msg_sender tx) (nextPoolId s) (ownerPools s))
    (store_pool (nextPoolId s)
       (new_pool tx _serviceName _monthlyAmount _token _maxMembers (nextPoolId s))
       (set_nextPoolId (nextPoolId s + 1) s)).

(** The custody calls by which a member pays one share, and the balance
    query of a token pool. *)
Definition payment_calls (tx : Tx) (p : Pool) : list LedgerCall :=
  if token p =? 0 then []
  else [TransferFrom (token p) (msg_sender tx) (this tx) (share_of p)].

Definition balance_calls (tx : Tx) (p : Pool) : list LedgerCall :=
  if token p =? 0 then [] else [BalanceOf (token p) (this tx)].

(** What [_checkAndProcessPayout] pays for a pool with [n] members. *)
Definition eager_payout (tx : Tx) (s : State) (p : Pool) (n : uint256) : list LedgerCall :=
  if share_of p * n <=? self_balance tx then payout_calls s p (share_of p * n) else [].

(** The fields of a pool that membership and payments do not write, and the
    fields of the storage outside the three mappings. *)
Definition settings (p : Pool) := (terms p, status p, nextPaymentDue p).

Definition config (s : State) : uint256 * uint256 * address * address * bool :=
  (nextPoolId s, platformFee s, feeRecipient s, _owner s, entered s).

(** What the custody calls of a log take from members and what they pay. *)
Definition taken_by (c : LedgerCall) : uint256 :=
  match c with TransferFrom _ _ _ a => a | _ => 0 end.

Definition paid_by (c : LedgerCall) : uint256 :=
  match c with Transfer _ _ a | SendEth _ a => a | _ => 0 end.

Definition taken (l : list LedgerCall) : uint256 := foldr (fun c n => taken_by c + n) 0 l.
Definition paid (l : list LedgerCall) : uint256 := foldr (fun c n => paid_by c + n) 0 l.

End SubscriptionPool.

(** ** ContentOwnership.sol *)

(** The registry of content hashes. Storage mappings keyed by a string are
    finite maps keyed by the string, and the comparison of two keccak256
    digests in [_removeContentFromOwner] is the comparison of the strings:
    keccak256 is taken to be free of collisions, as the mappings themselves
    assume. The owner kept by Ownable is read by no function of the contract
    and is left out. *)
Module ContentOwnershipRegistry.

Record ContentRecord : Type := {
  owner : address;
  contentHash : string;
  ipfsHash : string;
  timestamp : uint256;
  title : string;
  description : string;
  isTransferable : bool
}.

Definition zero_record : ContentRecord := {|
  owner := 0; contentHash := EmptyString; ipfsHash := EmptyString; timestamp := 0;
  title := EmptyString; description := EmptyString; isTransferable := false |}.

Definition with_owner (a : address) (r : ContentRecord) : ContentRecord := {|
  owner := a; contentHash := contentHash r; ipfsHash := ipfsHash r;
  timestamp := timestamp r; title := title r; description := description r;
  isTransferable := isTransferable r |}.

Definition with_metadata (t d : string) (r : ContentRecord) : ContentRecord := {|
  owner := owner r; contentHash := contentHash r; ipfsHash := ipfsHash r;
  timestamp := timestamp r; title := t; description := d;
  isTransferable := isTransferable r |}.

Definition with_isTransferable (b : bool) (r : ContentRecord) : ContentRecord := {|
  owner := owner r; contentHash := contentHash r; ipfsHash := ipfsHash r;
  timestamp := timestamp r; title := title r; description := description r;
  isTransferable := b |}.

Record State : Type := {
  contentRegistry : gmap string ContentRecord;
  ownerContent : gmap N (list string);
  contentExists : gmap string bool;
  entered : bool
}.

Definition set_contentRegistry (m : gmap string ContentRecord) (s : State) : State := {|
  contentRegistry := m; ownerContent := ownerContent s;
  contentExists := contentExists s; entered := entered s |}.

Definition set_ownerContent (m : gmap N (list string)) (s : State) : State := {|
  contentRegistry := contentRegistry s; ownerContent := m;
  contentExists := contentExists s; entered := entered s |}.

Definition set_contentExists (m : gmap string bool) (s : State) : State := {|
  contentRegistry := contentRegistry s; ownerContent := ownerContent s;
  contentExists := m; entered := entered s |}.

Definition set_entered (b : bool) (s : State) : State := {|
  contentRegistry := contentRegistry s; ownerContent := ownerContent s;
  contentExists := contentExists s; entered := b |}.

(** [contentRegistry[h]], [contentExists[h]] and [ownerContent[a]] *)
Definition record_at (s : State) (h : string) : ContentRecord :=
  default zero_record (contentRegistry s !! h).

Definition exists_at (s : State) (h : string) : bool :=
  default false (contentExists s !! h).

Definition store_record (h : string) (r : ContentRecord) (s : State) : State :=
  set_contentRegistry (<[h := r]> (contentRegistry s)) s.

Inductive Event : Type :=
  | EvContentRegistered (contentHash : string) (owner : address) (ipfsHash : string)
                        (timestamp : uint256)
  | EvOwnershipTransferred (contentHash : string) (previousOwner newOwner : address)
                           (timestamp : uint256).

Abbreviation Effect := (Effect Event).

(** *** Modifiers *)

Definition contentOwner (tx : Tx) (s : State) (_contentHash : string) : Result unit :=
  require (owner (record_at s _contentHash) =? msg_sender tx) "Not the content owner".

Definition contentNotExists (s : State) (_contentHash : string) : Result unit :=
  require (negb (exists_at s _contentHash)) "Content already registered".

Definition nonReentrantBefore (s : State) : Result State :=
  if entered s then Fail (CustomError "ReentrancyGuardReentrantCall")
  else Ok (set_entered true s).

Definition nonReentrantAfter (s : State) : State := set_entered false s.

(** *** Functions *)

Definition initial : State := {|
  contentRegistry := ∅; ownerContent := ∅; contentExists := ∅; entered := false |}.

(** [ownerContent[a].push(h)] *)
Definition push_to (a : address) (h : string) (m : gmap N (list string))
    : gmap N (list string) :=
  <[a := default [] (m !! a) ++ [h]]> m.

(** The loop of [_removeContentFromOwner]: overwrite the first slot that
    holds [h] with the last element and drop the last slot; nothing if [h] is
    absent. *)
Definition swap_remove (h : string) (l : list string) : list string :=
  match list_find (fun y => y = h) l, last l with
  | Some (i, _), Some z => take (length l - 1) (<[i := z]> l)
  | _, _ => l
  end.

Definition _removeContentFromOwner (_owner : address) (_contentHash : string)
    (s : State) : State :=
  set_ownerContent
    (<[_owner := swap_remove _contentHash (default [] (ownerContent s !! _owner))]>
       (ownerContent s)) s.

Definition registerContent (tx : Tx) (_contentHash _ipfsHash _title _description : string)
    (_isTransferable : bool) (s : State) : Result (State * list Effect) :=
  s1 ← nonReentrantBefore s;
  contentNotExists s1 _contentHash;;
  require (0 <? N.of_nat (String.length _contentHash)) "Content hash required";;
  require (0 <? N.of_nat (String.length _ipfsHash)) "IPFS hash required";;
  let newRecord := {|
    owner := msg_sender tx; contentHash := _contentHash; ipfsHash := _ipfsHash;
    timestamp := block_timestamp tx; title := _title; description := _description;
    isTransferable := _isTransferable |} in
  let s2 := store_record _contentHash newRecord s1 in
  let s3 := set_ownerContent (push_to (msg_sender tx) _contentHash (ownerContent s2)) s2 in
  let s4 := set_contentExists (<[_contentHash := true]> (contentExists s3)) s3 in
  Ok (nonReentrantAfter s4,
      [Emit (EvContentRegistered _contentHash (msg_sender tx) _ipfsHash
               (block_timestamp tx))]).

Definition verifyContent (s : State) (_contentHash : string)
    : Result (address * string * uint256 * string * string) :=
  require (exists_at s _contentHash) "Content not found";;
  let record := record_at s _contentHash in
  Ok (owner record, ipfsHash record, timestamp record, title record, description record).

Definition transferOwnership (tx : Tx) (_contentHash : string) (_newOwner : address)
    (s : State) : Result (State * list Effect) :=
  contentOwner tx s _contentHash;;
  s1 ← nonReentrantBefore s;
  require (negb (_newOwner =? 0)) "Invalid new owner address";;
  require (isTransferable (record_at s1 _contentHash)) "Content not transferable";;
  let previousOwner := owner (record_at s1 _contentHash) in
  let s2 := store_record _contentHash (with_owner _newOwner (record_at s1 _contentHash)) s1 in
  let s3 := _removeContentFromOwner previousOwner _contentHash s2 in
  let s4 := set_ownerContent (push_to _newOwner _contentHash (ownerContent s3)) s3 in
  Ok (nonReentrantAfter s4,
      [Emit (EvOwnershipTransferred _contentHash previousOwner _newOwner
               (block_timestamp tx))]).

Definition getOwnerContent (s : State) (_owner : address) : list string :=
  default [] (ownerContent s !! _owner).

Definition updateContentMetadata (tx : Tx) (_contentHash _title _description : string)
    (s : State) : Result (State * list Effect) :=
  contentOwner tx s _contentHash;;
  Ok (store_record _contentHash
        (with_metadata _title _description (record_at s _contentHash)) s, []).

Definition setTransferability (tx : Tx) (_contentHash : string) (_isTransferable : bool)
    (s : State) : Result (State * list Effect) :=
  contentOwner tx s _contentHash;;
  Ok (store_record _contentHash
        (with_isTransferable _isTransferable (record_at s _contentHash)) s, []).

(** *** Transactions *)

Inductive Call : Type :=
  | RegisterContent (_contentHash _ipfsHash _title _description : string)
                    (_isTransferable : bool)
  | TransferOwnership (_contentHash : string) (_newOwner : address)
  | UpdateContentMetadata (_contentHash _title _description : string)
  | SetTransferability (_contentHash : string) (_isTransferable : bool).

Definition step (tx : Tx) (c : Call) (s : State) : Result (State * list Effect) :=
  match c with
  | RegisterContent h i t d b => registerContent tx h i t d b s
  | TransferOwnership h a => transferOwnership tx h a s
  | UpdateContentMetadata h t d => updateContentMetadata tx h t d s
  | SetTransferability h b => setTransferability tx h b s
  end.

(** A failed transaction leaves the storage as it was. *)
Definition transact (tx : Tx) (c : Call) (s : State) : State * list Effect :=
  match step tx c s with
  | Ok r => r
  | Fail _ => (s, [])
  end.

Fixpoint run (txs : list (Tx * Call)) (s : State) : State * list Effect :=
  match txs with
  | [] => (s, [])
  | (tx, c) :: rest =>
      let '(s1, log1) := transact tx c s in
      let '(s2, log2) := run rest s1 in
      (s2, log1 ++ log2)
  end.

(** States the deployed registry can be in. No account has the zero
    address, so no transaction is sent from it. *)
Inductive reachable : State -> Prop :=
  | reachable_initial : reachable initial
  | reachable_step tx c s s1 log :
      reachable s -> msg_sender tx <> 0 -> step tx c s = Ok (s1, log) -> reachable s1.

(** *** Vocabulary for the properties *)

(** What a registration fixes for good. *)
Definition proof_of (r : ContentRecord) : string * string * uint256 :=
  (contentHash r, ipfsHash r, timestamp r).

(** The content a call is aimed at. *)
Definition target (c : Call) : string :=
  match c with
  | RegisterContent h _ _ _ _ | TransferOwnership h _
  | UpdateContentMetadata h _ _ | SetTransferability h _ => h
  end.

(** What holds of the storage of a deployed registry. *)
Record well_formed (s : State) : Prop := {
  wf_exists : forall h, exists_at s h = true <-> is_Some (contentRegistry s !! h);
  wf_record : forall h r, contentRegistry s !! h = Some r ->
    contentHash r = h /\ h <> EmptyString /\ ipfsHash r <> EmptyString /\ owner r <> 0;
  wf_index : forall a h,
    h ∈ getOwnerContent s a <-> exists r, contentRegistry s !! h = Some r /\ owner r = a;
  wf_index_once : forall a, NoDup (getOwnerContent s a)
}.

(** *** Sample transactions and states *)

Definition by_at (who : address) (now : uint256) : Tx :=
  {| msg_sender := who; block_timestamp := now; this := 998; self_balance := 0;
     oracle := fun _ => Returns true |}.

(** Account 3 registers two works, the first of them transferable. *)
Definition two_works : State :=
  fst (run [(by_at 3 100, RegisterContent "h1" "Qm1" "song" "a song" true);
            (by_at 3 101, RegisterContent "h2" "Qm2" "film" "a film" false)] initial).

End ContentOwnershipRegistry.

(** * Properties of FreelanceEscrow *)

Module EscrowFacts.
Import FreelanceEscrow.

(** ** The error monad *)

Lemma require_bind_ok {A} c r (k : unit -> Result A) x :
  require c r ≫= k = Ok x -> c = true /\ k tt = Ok x.
Proof. destruct c; simpl; [auto | discriminate]. Qed.

Lemma bind_ok {A B} (m : Result A) (k : A -> Result B) x :
  m ≫= k = Ok x -> exists a, m = Ok a /\ k a = Ok x.
Proof. destruct m; simpl; [eauto | discriminate]. Qed.

Lemma not_ok_fails {A} (r : Result A) : (forall a, r <> Ok a) -> exists f, r = Fail f.
Proof. destruct r as [a|f]; [intros H; by destruct (H a) | eauto]. Qed.

(** Peel the guards off a hypothesis [H : ... = Ok _]. *)
Ltac guards H :=
  repeat first
    [ apply require_bind_ok in H as [? H]
    | let a := fresh "r" in let E := fresh "E" in
      apply bind_ok in H as (a & E & H) ].

(** ** Storage *)

Lemma escrow_at_store_eq i e s : escrow_at (store_escrow i e s) i = e.
Proof. unfold escrow_at, store_escrow. simpl. by rewrite lookup_insert_eq. Qed.

Lemma escrow_at_store_ne i j e s :
  i <> j -> escrow_at (store_escrow i e s) j = escrow_at s j.
Proof. intros. unfold escrow_at, store_escrow. simpl. by rewrite lookup_insert_ne. Qed.

Lemma escrow_at_set_entered b s i : escrow_at (set_entered b s) i = escrow_at s i.
Proof. reflexivity. Qed.

Lemma nonReentrantBefore_ok s s1 :
  nonReentrantBefore s = Ok s1 -> entered s = false /\ s1 = set_entered true s.
Proof.
  unfold nonReentrantBefore. destruct (entered s); [discriminate | by intros [= <-]].
Qed.

Lemma guard_released i e s :
  entered s = false ->
  nonReentrantAfter (store_escrow i e (set_entered true s)) = store_escrow i e s.
Proof. destruct s; simpl; intros ->; reflexivity. Qed.

(** ** Custody calls *)

Lemma ledger_calls_app (l1 l2 : list Effect) :
  ledger_calls (l1 ++ l2) = ledger_calls l1 ++ ledger_calls l2.
Proof. unfold ledger_calls. apply omap_app. Qed.

Lemma ledger_calls_map_Ledger (l : list LedgerCall) :
  ledger_calls (map (@Ledger Event) l) = l.
Proof. induction l as [|c l IH]; [done | simpl; by rewrite IH]. Qed.

Lemma transferFunds_ok tx _to _amount _token log :
  ledger_ok tx ->
  _transferFunds tx _to _amount _token log = Ok (log ++ [Ledger (credit _token _to _amount)]).
Proof.
  intros Hok. unfold _transferFunds, credit.
  rewrite (Hok (calls_made log)). by destruct (_token =? 0).
Qed.

Lemma transferFunds_inv tx _to _amount _token log log1 :
  _transferFunds tx _to _amount _token log = Ok log1 ->
  log1 = log ++ [Ledger (credit _token _to _amount)].
Proof.
  unfold _transferFunds, credit.
  destruct (_token =? 0); destruct (oracle tx (calls_made log)); congruence.
Qed.

(** ** Fee arithmetic *)

Lemma fee_le_amount a f : f <= 10000 -> a * f / 10000 <= a.
Proof. intros Hf. apply N.Div0.div_le_upper_bound. nia. Qed.

Lemma fee_le_tenth a f : f <= 1000 -> 10 * (a * f / 10000) <= a.
Proof.
  intros Hf.
  assert (H1 : a * f / 10000 <= a * 1000 / 10000).
  { apply N.Div0.div_le_mono. nia. }
  assert (H2 : 10 * (a * 1000 / 10000) <= a).
  { pose proof (N.Div0.mul_div_le (a * 1000) 10000). lia. }
  lia.
Qed.

(** ** What a successful call tells about the state it ran in *)

Lemma fundEscrow_inv tx v i s s1 log :
  let e := escrow_at s i in
  fundEscrow tx v i s = Ok (s1, log) ->
  i < nextEscrowId s /\ client e = msg_sender tx /\ entered s = false /\
  status e = Created /\
  s1 = store_escrow i (funded_escrow tx e) s /\
  ((token e = 0 /\ v = amount e /\ log = [Emit (EvEscrowFunded i (amount e))]) \/
   (token e <> 0 /\ v = 0 /\ oracle tx 0%nat <> Reverts /\
    log = [Ledger (TransferFrom (token e) (msg_sender tx) (this tx) (amount e));
           Emit (EvEscrowFunded i (amount e))])).
Proof.
  intros e H. unfold fundEscrow, validEscrow, onlyClient in H.
  guards H. apply nonReentrantBefore_ok in E as [Hent ->].
  rewrite escrow_at_set_entered in *. fold e in H1, H2, E0, H |- *.
  injection H as <- <-. rewrite guard_released by done.
  apply N.ltb_lt in H0. apply N.eqb_eq in H1. apply bool_decide_eq_true in H2.
  repeat split; try done.
  destruct (token e =? 0) eqn:Htok.
  - left. apply N.eqb_eq in Htok. guards E0. apply N.eqb_eq in H.
    by injection E0 as <-.
  - right. apply N.eqb_neq in Htok. guards E0. apply N.eqb_eq in H.
    unfold erc20_transferFrom in E0. change (calls_made []) with 0%nat in E0.
    destruct (oracle tx 0%nat) eqn:Ho; simpl in E0; [discriminate|].
    by injection E0 as <-.
Qed.

Lemma submitWork_inv tx i h s s1 log :
  let e := escrow_at s i in
  submitWork tx i h s = Ok (s1, log) ->
  i < nextEscrowId s /\ freelancer e = msg_sender tx /\ status e = Funded /\
  block_timestamp tx <= deadline e /\ h <> EmptyString /\
  s1 = store_escrow i (submitted_escrow tx h e) s /\
  log = [Emit (EvWorkSubmitted i h)].
Proof.
  intros e H. unfold submitWork, validEscrow, onlyFreelancer in H.
  guards H. fold e in H1, H2, H3, H. injection H as <- <-.
  apply N.ltb_lt in H0. apply N.eqb_eq in H1. apply bool_decide_eq_true in H2.
  apply N.leb_le in H3. apply N.ltb_lt in H4.
  repeat split; try done.
  intros ->. simpl in H4. lia.
Qed.

Lemma approveWork_inv tx i s s1 log :
  let e := escrow_at s i in
  let fee := amount e * platformFee s / 10000 in
  approveWork tx i s = Ok (s1, log) ->
  i < nextEscrowId s /\ client e = msg_sender tx /\ entered s = false /\
  status e = WorkSubmitted /\
  amount e * platformFee s <= MAX_UINT256 /\ fee <= amount e /\
  s1 = store_escrow i (approved_escrow tx e) s /\
  log = [Ledger (credit (token e) (freelancer e) (amount e - fee));
         Ledger (credit (token e) (feeRecipient s) fee);
         Emit (EvEscrowCompleted i (amount e - fee) fee);
         Emit (EvWorkApproved i)].
Proof.
  intros e fee H. unfold approveWork, validEscrow, onlyClient in H.
  guards H. apply nonReentrantBefore_ok in E as [Hent ->].
  rewrite escrow_at_set_entered in *. fold e in H1, H2, E0, H.
  injection H as <- <-. rewrite guard_released by done.
  apply N.ltb_lt in H0. apply N.eqb_eq in H1. apply bool_decide_eq_true in H2.
  unfold _releasePayment in E0. rewrite escrow_at_store_eq in E0. simpl in E0.
  unfold checked_mul, checked_sub in E0.
  destruct (amount e * platformFee s <=? MAX_UINT256) eqn:Hov; [|discriminate].
  simpl in E0. fold fee in E0.
  destruct (fee <=? amount e) eqn:Hle; [|discriminate]. simpl in E0.
  guards E0.
  repeat match goal with
  | H : _transferFunds _ _ _ _ _ = Ok _ |- _ => apply transferFunds_inv in H; subst
  end.
  injection E0 as <-.
  apply N.leb_le in Hov, Hle. repeat split; done.
Qed.

Lemma raiseDispute_inv tx i s s1 log :
  let e := escrow_at s i in
  raiseDispute tx i s = Ok (s1, log) ->
  i < nextEscrowId s /\
  (msg_sender tx = client e \/ msg_sender tx = freelancer e) /\
  (status e = Funded \/ status e = WorkSubmitted) /\
  s1 = store_escrow i (disputed_escrow tx e) s /\
  log = [Emit (EvDisputeRaised i (msg_sender tx))].
Proof.
  intros e H. unfold raiseDispute, validEscrow, onlyParties in H.
  guards H. fold e in H1, H2, H. injection H as <- <-.
  apply N.ltb_lt in H0. apply orb_true_iff in H1, H2.
  rewrite !N.eqb_eq in H1. rewrite !bool_decide_eq_true in H2.
  repeat split; done.
Qed.

Lemma resolveDispute_inv tx i a b s s1 log :
  let e := escrow_at s i in
  resolveDispute tx i a b s = Ok (s1, log) ->
  i < nextEscrowId s /\ mediator e = msg_sender tx /\ entered s = false /\
  status e = Disputed /\ a + b = amount e /\ a + b <= MAX_UINT256 /\
  s1 = store_escrow i (resolved_escrow tx e) s /\
  log = map Ledger (dispute_credits e a b) ++
        [Emit (EvDisputeResolved i (dispute_winner e a b) a b)].
Proof.
  intros e H. unfold resolveDispute, validEscrow, onlyMediator in H.
  guards H. apply nonReentrantBefore_ok in E as [Hent ->].
  rewrite escrow_at_set_entered in *. fold e in H1, H2, H3, E1, E2, H.
  injection H as <- <-. rewrite guard_released by done.
  apply N.ltb_lt in H0. apply N.eqb_eq in H1. apply bool_decide_eq_true in H2.
  unfold checked_add in E0.
  destruct (a + b <=? MAX_UINT256) eqn:Hsum; [|discriminate]. injection E0 as <-.
  apply N.eqb_eq in H3. apply N.leb_le in Hsum. repeat split; try done.
  unfold dispute_credits.
  destruct (0 <? b); destruct (0 <? a);
    repeat match goal with
    | H : _transferFunds _ _ _ _ _ = Ok _ |- _ => apply transferFunds_inv in H; subst
    | H : Ok _ = Ok _ |- _ => injection H as <-
    end; simpl; done.
Qed.

Lemma cancelEscrow_inv tx i s s1 log :
  let e := escrow_at s i in
  cancelEscrow tx i s = Ok (s1, log) ->
  i < nextEscrowId s /\ client e = msg_sender tx /\ entered s = false /\
  status e = Created /\
  s1 = store_escrow i (cancelled_escrow tx e) s /\
  log = [Emit (EvEscrowCancelled i)].
Proof.
  intros e H. unfold cancelEscrow, validEscrow, onlyClient in H.
  guards H. apply nonReentrantBefore_ok in E as [Hent ->].
  rewrite escrow_at_set_entered in *. fold e in H1, H2, H.
  injection H as <- <-. rewrite guard_released by done.
  apply N.ltb_lt in H0. apply N.eqb_eq in H1. apply bool_decide_eq_true in H2.
  repeat split; done.
Qed.

Lemma createEscrow_inv tx f m a t d w s i s1 log :
  createEscrow tx f m a t d w s = Ok (i, s1, log) ->
  f <> 0 /\ 0 < a /\ block_timestamp tx < d /\
  (is_approved s m = true \/ m = owner s) /\
  nextEscrowId s < MAX_UINT256 /\
  i = nextEscrowId s /\ nextEscrowId s1 = i + 1 /\
  escrows s1 = <[i := {|
    id := i; client := msg_sender tx; freelancer := f; mediator := m;
    amount := a; token := t; status := Created; deadline := d;
    workDescription := w; deliveryHash := deliveryHash (escrow_at s i);
    createdAt := block_timestamp tx; lastUpdated := block_timestamp tx;
    clientApproved := clientApproved (escrow_at s i);
    freelancerSubmitted := freelancerSubmitted (escrow_at s i) |}]> (escrows s) /\
  platformFee s1 = platformFee s /\ feeRecipient s1 = feeRecipient s /\
  owner s1 = owner s /\ entered s1 = entered s /\
  approvedMediators s1 = approvedMediators s /\
  log = [Emit (EvEscrowCreated i (msg_sender tx) f a t)].
Proof.
  intros H. unfold createEscrow in H. guards H.
  unfold checked_add in E.
  destruct (nextEscrowId s + 1 <=? MAX_UINT256) eqn:Hn; [|discriminate].
  injection E as <-. injection H as <- <- <-. simpl.
  apply negb_true_iff, N.eqb_neq in H0. apply N.ltb_lt in H1, H2.
  apply orb_true_iff in H3. rewrite N.eqb_eq in H3. apply N.leb_le in Hn.
  repeat split; try done. lia.
Qed.

(** ** Calls that go through *)

Lemma fundEscrow_ok tx v i s :
  let e := escrow_at s i in
  i < nextEscrowId s -> entered s = false ->
  status e = Created -> client e = msg_sender tx ->
  (token e = 0 /\ v = amount e) \/ (token e <> 0 /\ v = 0 /\ oracle tx 0%nat <> Reverts) ->
  fundEscrow tx v i s =
    Ok (store_escrow i (funded_escrow tx e) s,
        (if token e =? 0 then []
         else [Ledger (TransferFrom (token e) (msg_sender tx) (this tx) (amount e))]) ++
        [Emit (EvEscrowFunded i (amount e))]).
Proof.
  intros e Hid Hent Hst Hcl Hpay.
  unfold fundEscrow, validEscrow, onlyClient, nonReentrantBefore.
  apply N.ltb_lt in Hid. rewrite Hid. simpl.
  fold e. rewrite Hcl, N.eqb_refl. simpl. rewrite Hent. simpl.
  rewrite escrow_at_set_entered. fold e. rewrite Hst. simpl.
  rewrite guard_released by done.
  destruct Hpay as [[Ht ->] | (Ht & -> & Ho)].
  - rewrite Ht. simpl. rewrite N.eqb_refl. reflexivity.
  - apply N.eqb_neq in Ht. rewrite Ht. simpl.
    unfold erc20_transferFrom. change (calls_made []) with 0%nat.
    destruct (oracle tx 0%nat); [done | reflexivity].
Qed.

Lemma submitWork_ok tx i h s :
  let e := escrow_at s i in
  i < nextEscrowId s -> freelancer e = msg_sender tx -> status e = Funded ->
  block_timestamp tx <= deadline e -> h <> EmptyString ->
  submitWork tx i h s =
    Ok (store_escrow i (submitted_escrow tx h e) s, [Emit (EvWorkSubmitted i h)]).
Proof.
  intros e Hid Hfr Hst Hdl Hh.
  unfold submitWork, validEscrow, onlyFreelancer.
  apply N.ltb_lt in Hid. rewrite Hid. simpl.
  fold e. rewrite Hfr, N.eqb_refl. simpl. rewrite Hst. simpl.
  apply N.leb_le in Hdl. rewrite Hdl. simpl.
  destruct h as [|c h]; [done | reflexivity].
Qed.

Lemma approveWork_ok tx i s :
  let e := escrow_at s i in
  let fee := amount e * platformFee s / 10000 in
  i < nextEscrowId s -> entered s = false ->
  status e = WorkSubmitted -> client e = msg_sender tx ->
  platformFee s <= 10000 ->
  amount e * platformFee s <= MAX_UINT256 ->
  ledger_ok tx ->
  approveWork tx i s =
    Ok (store_escrow i (approved_escrow tx e) s,
        [Ledger (credit (token e) (freelancer e) (amount e - fee));
         Ledger (credit (token e) (feeRecipient s) fee);
         Emit (EvEscrowCompleted i (amount e - fee) fee);
         Emit (EvWorkApproved i)]).
Proof.
  intros e fee Hid Hent Hst Hcl Hfee Hov Hok.
  unfold approveWork, validEscrow, onlyClient, nonReentrantBefore.
  apply N.ltb_lt in Hid. rewrite Hid. simpl.
  fold e. rewrite Hcl, N.eqb_refl. simpl. rewrite Hent. simpl.
  rewrite escrow_at_set_entered. fold e. rewrite Hst. simpl.
  unfold _releasePayment. rewrite escrow_at_store_eq. simpl.
  unfold checked_mul. apply N.leb_le in Hov. rewrite Hov. simpl.
  unfold checked_sub. fold fee.
  assert (Hle : fee <= amount e) by (by apply fee_le_amount).
  apply N.leb_le in Hle. rewrite Hle. simpl.
  rewrite transferFunds_ok by done. simpl.
  rewrite transferFunds_ok by done. simpl.
  rewrite guard_released by done. reflexivity.
Qed.

Lemma resolveDispute_ok tx i a b s :
  let e := escrow_at s i in
  i < nextEscrowId s -> entered s = false ->
  status e = Disputed -> mediator e = msg_sender tx ->
  a + b = amount e -> amount e <= MAX_UINT256 ->
  ledger_ok tx ->
  resolveDispute tx i a b s =
    Ok (store_escrow i (resolved_escrow tx e) s,
        map Ledger (dispute_credits e a b) ++
        [Emit (EvDisputeResolved i (dispute_winner e a b) a b)]).
Proof.
  intros e Hid Hent Hst Hmed Hsum Hmax Hok.
  unfold resolveDispute, validEscrow, onlyMediator, nonReentrantBefore.
  apply N.ltb_lt in Hid. rewrite Hid. simpl.
  fold e. rewrite Hmed, N.eqb_refl. simpl. rewrite Hent. simpl.
  rewrite escrow_at_set_entered. fold e. rewrite Hst. simpl.
  unfold checked_add.
  assert (Hle : (a + b <=? MAX_UINT256) = true) by (apply N.leb_le; lia).
  rewrite Hle. simpl. rewrite Hsum, N.eqb_refl. simpl.
  rewrite guard_released by done. unfold dispute_credits.
  destruct (0 <? b); destruct (0 <? a); simpl;
    rewrite ?transferFunds_ok by done; simpl;
    rewrite ?transferFunds_ok by done; simpl; reflexivity.
Qed.

Lemma createEscrow_ok tx f m a t d w s :
  f <> 0 -> 0 < a -> block_timestamp tx < d ->
  (is_approved s m = true \/ m = owner s) ->
  nextEscrowId s < MAX_UINT256 ->
  exists s1, createEscrow tx f m a t d w s =
    Ok (nextEscrowId s, s1, [Emit (EvEscrowCreated (nextEscrowId s) (msg_sender tx) f a t)]).
Proof.
  intros Hf Ha Hd Hm Hn. unfold createEscrow.
  apply N.eqb_neq in Hf. rewrite Hf. simpl.
  apply N.ltb_lt in Ha, Hd. rewrite Ha, Hd. simpl.
  assert (Hm' : is_approved s m || (m =? owner s) = true).
  { apply orb_true_iff. by rewrite N.eqb_eq. }
  rewrite Hm'. simpl. unfold checked_add.
  assert (Hn' : (nextEscrowId s + 1 <=? MAX_UINT256) = true) by (apply N.leb_le; lia).
  rewrite Hn'. simpl. eauto.
Qed.

(** ** Calls stopped by the status guard *)

Lemma fundEscrow_wrong_status tx v i s :
  i < nextEscrowId s -> client (escrow_at s i) = msg_sender tx -> entered s = false ->
  status (escrow_at s i) <> Created ->
  fundEscrow tx v i s = Fail (RequireFailed "Escrow already funded or completed").
Proof.
  intros Hid Hcl Hent Hst.
  unfold fundEscrow, validEscrow, onlyClient, nonReentrantBefore.
  apply N.ltb_lt in Hid. rewrite Hid. simpl.
  rewrite Hcl, N.eqb_refl. simpl. rewrite Hent. simpl.
  rewrite escrow_at_set_entered. by rewrite bool_decide_eq_false_2.
Qed.

Lemma submitWork_wrong_status tx i h s :
  i < nextEscrowId s -> freelancer (escrow_at s i) = msg_sender tx ->
  status (escrow_at s i) <> Funded ->
  submitWork tx i h s = Fail (RequireFailed "Escrow not funded").
Proof.
  intros Hid Hfr Hst.
  unfold submitWork, validEscrow, onlyFreelancer.
  apply N.ltb_lt in Hid. rewrite Hid. simpl.
  rewrite Hfr, N.eqb_refl. simpl. by rewrite bool_decide_eq_false_2.
Qed.

Lemma approveWork_wrong_status tx i s :
  i < nextEscrowId s -> client (escrow_at s i) = msg_sender tx -> entered s = false ->
  status (escrow_at s i) <> WorkSubmitted ->
  approveWork tx i s = Fail (RequireFailed "Work not submitted").
Proof.
  intros Hid Hcl Hent Hst.
  unfold approveWork, validEscrow, onlyClient, nonReentrantBefore.
  apply N.ltb_lt in Hid. rewrite Hid. simpl.
  rewrite Hcl, N.eqb_refl. simpl. rewrite Hent. simpl.
  rewrite escrow_at_set_entered. by rewrite bool_decide_eq_false_2.
Qed.

Lemma raiseDispute_wrong_status tx i s :
  i < nextEscrowId s ->
  msg_sender tx = client (escrow_at s i) \/ msg_sender tx = freelancer (escrow_at s i) ->
  status (escrow_at s i) <> Funded -> status (escrow_at s i) <> WorkSubmitted ->
  raiseDispute tx i s = Fail (RequireFailed "Cannot dispute at this stage").
Proof.
  intros Hid Hp Hst1 Hst2.
  unfold raiseDispute, validEscrow, onlyParties.
  apply N.ltb_lt in Hid. rewrite Hid. simpl.
  assert (Hp' : (msg_sender tx =? client (escrow_at s i))
                || (msg_sender tx =? freelancer (escrow_at s i)) = true).
  { apply orb_true_iff. by rewrite !N.eqb_eq. }
  rewrite Hp'. simpl. by rewrite !bool_decide_eq_false_2.
Qed.

Lemma resolveDispute_wrong_status tx i a b s :
  i < nextEscrowId s -> mediator (escrow_at s i) = msg_sender tx -> entered s = false ->
  status (escrow_at s i) <> Disputed ->
  resolveDispute tx i a b s = Fail (RequireFailed "Escrow not disputed").
Proof.
  intros Hid Hm Hent Hst.
  unfold resolveDispute, validEscrow, onlyMediator, nonReentrantBefore.
  apply N.ltb_lt in Hid. rewrite Hid. simpl.
  rewrite Hm, N.eqb_refl. simpl. rewrite Hent. simpl.
  rewrite escrow_at_set_entered. by rewrite bool_decide_eq_false_2.
Qed.

Lemma cancelEscrow_wrong_status tx i s :
  i < nextEscrowId s -> client (escrow_at s i) = msg_sender tx -> entered s = false ->
  status (escrow_at s i) <> Created ->
  cancelEscrow tx i s = Fail (RequireFailed "Cannot cancel funded escrow").
Proof.
  intros Hid Hcl Hent Hst.
  unfold cancelEscrow, validEscrow, onlyClient, nonReentrantBefore.
  apply N.ltb_lt in Hid. rewrite Hid. simpl.
  rewrite Hcl, N.eqb_refl. simpl. rewrite Hent. simpl.
  rewrite escrow_at_set_entered. by rewrite bool_decide_eq_false_2.
Qed.

(** ** One transaction, whatever the call *)

Lemma created_ids_app (l1 l2 : list Effect) :
  created_ids (l1 ++ l2) = created_ids l1 ++ created_ids l2.
Proof. unfold created_ids. apply omap_app. Qed.

Lemma created_ids_map_Ledger (l : list LedgerCall) :
  created_ids (map Ledger l) = [].
Proof. induction l as [|c l IH]; [done | by simpl]. Qed.

Lemma step_ok_inv tx c s s1 log :
  step tx c s = Ok (s1, log) ->
  nextEscrowId s <= nextEscrowId s1 /\
  (forall j, targets c = Some j ->
     j < nextEscrowId s /\ terminal (status (escrow_at s j)) = false /\
     has_role tx (escrow_at s j)) /\
  (forall j, j < nextEscrowId s -> targets c <> Some j -> escrow_at s1 j = escrow_at s j) /\
  (platformFee s1 <> platformFee s ->
     owner s = msg_sender tx /\ c = SetPlatformFee (platformFee s1) /\ platformFee s1 <= 1000) /\
  entered s1 = entered s /\
  created_ids log = (if is_create c then [nextEscrowId s] else []) /\
  nextEscrowId s1 = nextEscrowId s + N.of_nat (length (created_ids log)).
Proof.
  intros H. unfold has_role. destruct c; simpl in H.
  - apply bind_ok in H as ([[i s2] l] & H & E). injection E as <- <-.
    apply createEscrow_inv in H
      as (_ & _ & _ & _ & Hn & -> & Hn1 & Hes & Hpf & _ & _ & Hen & _ & ->).
    repeat split; try done; try lia.
    intros j Hj _. unfold escrow_at. rewrite Hes, lookup_insert_ne; [done | lia].
  - apply fundEscrow_inv in H as (Hv & Hc & _ & Hst & -> & Hlog).
    assert (created_ids log = []) as ->
      by (destruct Hlog as [(_ & _ & ->) | (_ & _ & _ & ->)]; done).
    repeat split; try done; try (simpl; lia).
    + by injection H as <-.
    + injection H as <-. by rewrite Hst.
    + injection H as <-. by left.
    + intros j _ Hj. simpl in Hj. apply escrow_at_store_ne. congruence.
  - apply submitWork_inv in H as (Hv & Hc & Hst & _ & _ & -> & ->).
    repeat split; try done; try (simpl; lia).
    + by injection H as <-.
    + injection H as <-. by rewrite Hst.
    + injection H as <-. right; by left.
    + intros j _ Hj. simpl in Hj. apply escrow_at_store_ne. congruence.
  - apply approveWork_inv in H as (Hv & Hc & _ & Hst & _ & _ & -> & ->).
    repeat split; try done; try (simpl; lia).
    + by injection H as <-.
    + injection H as <-. by rewrite Hst.
    + injection H as <-. by left.
    + intros j _ Hj. simpl in Hj. apply escrow_at_store_ne. congruence.
  - apply raiseDispute_inv in H as (Hv & Hc & Hst & -> & ->).
    repeat split; try done; try (simpl; lia).
    + by injection H as <-.
    + injection H as <-. by destruct Hst as [-> | ->].
    + injection H as <-. destruct Hc; [by left | right; by left].
    + intros j _ Hj. simpl in Hj. apply escrow_at_store_ne. congruence.
  - apply resolveDispute_inv in H as (Hv & Hc & _ & Hst & _ & _ & -> & ->).
    rewrite created_ids_app, created_ids_map_Ledger.
    repeat split; try done; try (simpl; lia).
    + by injection H as <-.
    + injection H as <-. by rewrite Hst.
    + injection H as <-. right; by right.
    + intros j _ Hj. simpl in Hj. apply escrow_at_store_ne. congruence.
  - apply cancelEscrow_inv in H as (Hv & Hc & _ & Hst & -> & ->).
    repeat split; try done; try (simpl; lia).
    + by injection H as <-.
    + injection H as <-. by rewrite Hst.
    + injection H as <-. by left.
    + intros j _ Hj. simpl in Hj. apply escrow_at_store_ne. congruence.
  - unfold addMediator, onlyOwner in H. destruct (owner s =? msg_sender tx); [|discriminate].
    injection H as <- <-. repeat split; try done; simpl; lia.
  - unfold removeMediator, onlyOwner in H. destruct (owner s =? msg_sender tx); [|discriminate].
    injection H as <- <-. repeat split; try done; simpl; lia.
  - unfold setPlatformFee, onlyOwner in H.
    destruct (owner s =? msg_sender tx) eqn:Ho; [|discriminate]. simpl in H.
    destruct (_fee <=? 1000) eqn:Hf; [|discriminate]. injection H as <- <-.
    apply N.eqb_eq in Ho. apply N.leb_le in Hf. repeat split; try done; simpl; lia.
  - unfold setFeeRecipient, onlyOwner in H.
    destruct (owner s =? msg_sender tx); [|discriminate]. simpl in H.
    destruct (negb (_feeRecipient =? 0)); [|discriminate]. injection H as <- <-.
    repeat split; try done; simpl; lia.
  - unfold transferOwnership, onlyOwner in H.
    destruct (owner s =? msg_sender tx); [|discriminate]. simpl in H.
    destruct (newOwner =? 0); [discriminate|]. injection H as <- <-.
    repeat split; try done; simpl; lia.
  - unfold renounceOwnership, onlyOwner in H.
    destruct (owner s =? msg_sender tx); [|discriminate].
    injection H as <- <-. repeat split; try done; simpl; lia.
Qed.

(** [transact] either commits a successful [step] or changes nothing. *)
Lemma transact_cases tx c s :
  (exists s1 log, step tx c s = Ok (s1, log) /\ transact tx c s = (s1, log)) \/
  (exists f, step tx c s = Fail f /\ transact tx c s = (s, [])).
Proof.
  unfold transact. destruct (step tx c s) as [[s1 log]|f]; [left | right]; eauto.
Qed.

(** ** Invariants of the deployed contract *)

Lemma reachable_inv s :
  reachable s ->
  1 <= nextEscrowId s /\ escrow_at s 0 = zero_escrow /\
  platformFee s <= 1000 /\ entered s = false.
Proof.
  induction 1 as [d r Hd | tx c s s1 log Hr (Hn & Hz & Hf & He) Hs Hstep].
  - repeat split; simpl; try done; lia.
  - apply step_ok_inv in Hstep as (Hmono & Htgt & Hframe & Hfee & Hent & _ & _).
    repeat split.
    + lia.
    + destruct (decide (targets c = Some 0)) as [Ht | Ht].
      * destruct (Htgt 0 Ht) as (_ & _ & Hrole). rewrite Hz in Hrole.
        unfold has_role in Hrole. simpl in Hrole. intuition congruence.
      * rewrite Hframe; [done | lia | done].
    + destruct (decide (platformFee s1 = platformFee s)) as [-> | Hne]; [done|].
      by destruct (Hfee Hne) as (_ & _ & ?).
    + congruence.
Qed.

Lemma reachable_transact tx c s :
  reachable s -> msg_sender tx <> 0 -> reachable (fst (transact tx c s)).
Proof.
  intros Hr Hs. destruct (transact_cases tx c s) as [(s1 & log & H & ->) | (f & _ & ->)].
  - simpl. by eapply reachable_step.
  - done.
Qed.

Lemma reachable_run txs s :
  reachable s -> Forall (fun p => msg_sender (fst p) <> 0) txs -> reachable (fst (run txs s)).
Proof.
  intros Hr Hall. revert s Hr.
  induction Hall as [|[tx c] txs Hs _ IH]; intros s Hr; simpl; [done|].
  pose proof (reachable_transact tx c s Hr Hs) as Hr1.
  destruct (transact tx c s) as [s1 log1]. simpl in Hr1.
  specialize (IH s1 Hr1). destruct (run txs s1) as [s2 log2]. done.
Qed.

Lemma deployed_reachable : reachable deployed.
Proof. by apply reachable_constructor. Qed.

Lemma huge_submitted_reachable : reachable huge_submitted.
Proof.
  apply reachable_run; [apply deployed_reachable | by repeat constructor].
Qed.

(** ** The claims *)

(** C1, as stated, fails: the escrow below is reached by creating a job of
    2^255 units of a token, funding it and submitting work; it is in status
    WorkSubmitted, the caller is its client and every custody call would go
    through, yet [approveWork] fails because [amount * platformFee]
    (2^255 * 250) does not fit in 256 bits. *)
Lemma approveWork_overflow_fails :
  reachable huge_submitted /\
  status (escrow_at huge_submitted 1) = WorkSubmitted /\
  client (escrow_at huge_submitted 1) = msg_sender (honest 1 13) /\
  ledger_ok (honest 1 13) /\
  approveWork (honest 1 13) 1 huge_submitted = Fail Panic.
Proof.
  split; [apply huge_submitted_reachable|].
  repeat split; try (vm_compute; reflexivity).
Qed.

(** C1, amended: for every existing escrow in status WorkSubmitted whose
    [amount * platformFee] fits in 256 bits, [approveWork] called by the
    client, outside a guarded call, with the fee rate within its cap and the
    custody calls going through, succeeds, sets the status to Completed and
    issues exactly two credits, in the escrow's currency: [amount - fee] to
    the freelancer and [fee = amount * platformFee / 10000] (rounded down)
    to the fee recipient; the two add up to [amount]. With amount 1000 and a
    rate of 250 the credits are 975 and 25. *)
Theorem approveWork_releases_payment tx s i :
  let e := escrow_at s i in
  let fee := amount e * platformFee s / 10000 in
  i < nextEscrowId s -> entered s = false -> platformFee s <= 1000 ->
  status e = WorkSubmitted -> client e = msg_sender tx ->
  amount e * platformFee s <= MAX_UINT256 ->
  ledger_ok tx ->
  exists s1 log,
    approveWork tx i s = Ok (s1, log) /\
    status (escrow_at s1 i) = Completed /\
    ledger_calls log = [credit (token e) (freelancer e) (amount e - fee);
                        credit (token e) (feeRecipient s) fee] /\
    (amount e - fee) + fee = amount e /\
    (amount e = 1000 -> platformFee s = 250 -> amount e - fee = 975 /\ fee = 25).
Proof.
  intros e fee Hid Hent Hcap Hst Hcl Hov Hok.
  assert (Hle : fee <= amount e) by (apply fee_le_amount; lia).
  eexists _, _. split; [apply approveWork_ok; try done; lia|].
  rewrite escrow_at_store_eq.
  split; [done|]. split; [done|]. split; [lia|].
  intros Ha Hf. subst fee. rewrite Ha, Hf. by split.
Qed.

(** The scenario of the specification: 1000 wei at a rate of 250. *)
Lemma approveWork_releases_payment_witness :
  exists s1 log,
    approveWork (honest 1 14) 1 eth_submitted = Ok (s1, log) /\
    status (escrow_at s1 1) = Completed /\
    ledger_calls log = [SendEth 2 975; SendEth 200 25] /\
    975 + 25 = 1000 /\
    (1000 = 1000 -> 250 = 250 -> 975 = 975 /\ 25 = 25).
Proof.
  apply (approveWork_releases_payment (honest 1 14) eth_submitted 1);
    try (vm_compute; reflexivity); vm_compute; discriminate.
Defined.

Lemma paid_out_credit t to a : paid_out (credit t to a) = a.
Proof. unfold credit. by destruct (t =? 0). Qed.

Lemma total_paid_dispute e a b : total_paid (dispute_credits e a b) = a + b.
Proof.
  unfold dispute_credits.
  destruct (0 <? b) eqn:Hb; destruct (0 <? a) eqn:Ha; simpl;
    rewrite ?paid_out_credit;
    try apply N.ltb_ge in Hb; try apply N.ltb_ge in Ha; lia.
Qed.

Lemma eth_disputed_reachable : reachable eth_disputed.
Proof.
  unfold eth_disputed, eth_submitted, eth_funded, eth_created.
  repeat (apply reachable_run; [|by repeat constructor]). apply deployed_reachable.
Qed.

Lemma token_disputed_reachable : reachable token_disputed.
Proof.
  unfold token_disputed, token_created.
  repeat (apply reachable_run; [|by repeat constructor]). apply deployed_reachable.
Qed.

(** C2, as stated, fails in its success half. The escrow of 1000 wei below
    is Disputed, the caller is its mediator and 400 + 600 is its amount, yet
    [resolveDispute] fails and changes nothing when the freelancer refuses
    the value sent to it ([require(success)] in [_transferFunds]). On the
    same job paid in a token whose [transfer] answers false (nothing was
    moved), [resolveDispute] succeeds and completes the escrow although
    neither party was credited: the answer is not looked at. *)
Lemma resolveDispute_depends_on_the_recipients :
  (reachable eth_disputed /\
   status (escrow_at eth_disputed 1) = Disputed /\
   mediator (escrow_at eth_disputed 1) = msg_sender (refusing 100 14) /\
   400 + 600 = amount (escrow_at eth_disputed 1) /\
   oracle (refusing 100 14) 0%nat = Reverts /\
   resolveDispute (refusing 100 14) 1 400 600 eth_disputed =
     Fail (RequireFailed "ETH transfer failed") /\
   transact (refusing 100 14) (ResolveDispute 1 400 600) eth_disputed =
     (eth_disputed, [])) /\
  (reachable token_disputed /\
   status (escrow_at token_disputed 1) = Disputed /\
   mediator (escrow_at token_disputed 1) = msg_sender (unfunded 100 14) /\
   400 + 600 = amount (escrow_at token_disputed 1) /\
   oracle (unfunded 100 14) 0%nat = Returns false /\
   oracle (unfunded 100 14) 1%nat = Returns false /\
   status (escrow_at
             (fst (transact (unfunded 100 14) (ResolveDispute 1 400 600) token_disputed))
             1) = Completed /\
   snd (transact (unfunded 100 14) (ResolveDispute 1 400 600) token_disputed) =
     [Ledger (Transfer 7 2 600); Ledger (Transfer 7 1 400);
      Emit (EvDisputeResolved 1 2 400 600)]).
Proof.
  split.
  - split; [apply eth_disputed_reachable|].
    repeat split; vm_compute; reflexivity.
  - split; [apply token_disputed_reachable|].
    repeat split; vm_compute; reflexivity.
Qed.

(** C2: [resolveDispute(i, a, b)] fails whenever [a + b] differs from the
    escrow's amount, in every state and for every caller, and the failed
    transaction changes no storage and makes no custody call. When the
    escrow exists and is Disputed, the caller is its mediator and [a + b]
    equals the amount (a 256-bit value), the call succeeds (outside a
    guarded call, custody calls carried out), sets the status to Completed
    and credits [b] to the freelancer and [a] to the client, skipping a
    credit of zero; the credits add up to the whole amount, so no fee is
    withheld. *)
Theorem resolveDispute_conserves tx s i a b :
  let e := escrow_at s i in
  (a + b <> amount e ->
     (exists f, resolveDispute tx i a b s = Fail f) /\
     transact tx (ResolveDispute i a b) s = (s, [])) /\
  (i < nextEscrowId s -> entered s = false -> amount e <= MAX_UINT256 ->
   ledger_ok tx ->
   status e = Disputed -> mediator e = msg_sender tx -> a + b = amount e ->
     exists s1 log,
       resolveDispute tx i a b s = Ok (s1, log) /\
       status (escrow_at s1 i) = Completed /\
       ledger_calls log =
         (if 0 <? b then [credit (token e) (freelancer e) b] else []) ++
         (if 0 <? a then [credit (token e) (client e) a] else []) /\
       total_paid (ledger_calls log) = amount e).
Proof.
  intros e. split.
  - intros Hne.
    assert (Hf : exists f, resolveDispute tx i a b s = Fail f).
    { apply not_ok_fails. intros [s1 log] H.
      apply resolveDispute_inv in H as (_ & _ & _ & _ & Hsum & _). by apply Hne. }
    split; [done|]. destruct Hf as [f Hf]. unfold transact. simpl. by rewrite Hf.
  - intros Hid Hent Hmax Hok Hst Hmed Hsum.
    eexists _, _. split; [by apply resolveDispute_ok|].
    rewrite escrow_at_store_eq, ledger_calls_app, ledger_calls_map_Ledger, app_nil_r.
    split; [done|]. split; [done|].
    rewrite <- Hsum. apply total_paid_dispute.
Qed.

(** A mediated split 400/600 of an escrow of 1000 wei, and a rejected split 400/601. *)
Lemma resolveDispute_conserves_witness :
  (exists s1 log,
     resolveDispute (honest 100 14) 1 400 600 eth_disputed = Ok (s1, log) /\
     status (escrow_at s1 1) = Completed /\
     ledger_calls log = [SendEth 2 600] ++ [SendEth 1 400] /\
     total_paid (ledger_calls log) = 1000) /\
  transact (honest 100 14) (ResolveDispute 1 400 601) eth_disputed = (eth_disputed, []).
Proof.
  split.
  - apply (resolveDispute_conserves (honest 100 14) eth_disputed 1 400 600);
      try (vm_compute; reflexivity).
    vm_compute. discriminate.
  - apply (resolveDispute_conserves (honest 100 14) eth_disputed 1 400 601).
    vm_compute. discriminate.
Defined.

(** An existing escrow in a terminal status is left as it is by any
    transaction. *)
Lemma terminal_transact tx c s i :
  i < nextEscrowId s -> terminal (status (escrow_at s i)) = true ->
  i < nextEscrowId (fst (transact tx c s)) /\
  escrow_at (fst (transact tx c s)) i = escrow_at s i.
Proof.
  intros Hid Hterm.
  destruct (transact_cases tx c s) as [(s1 & log & H & ->) | (f & _ & ->)]; [|done].
  simpl. apply step_ok_inv in H as (Hmono & Htgt & Hframe & _).
  split; [lia|]. apply Hframe; [done|].
  intros Ht. destruct (Htgt i Ht) as (_ & Hnt & _). congruence.
Qed.

Lemma terminal_run txs s i :
  i < nextEscrowId s -> terminal (status (escrow_at s i)) = true ->
  escrow_at (fst (run txs s)) i = escrow_at s i.
Proof.
  revert s. induction txs as [|[tx c] txs IH]; intros s Hid Hterm; simpl; [done|].
  destruct (terminal_transact tx c s i Hid Hterm) as [Hid1 Heq].
  destruct (transact tx c s) as [s1 log1]. simpl in Hid1, Heq.
  specialize (IH s1). rewrite Heq in IH. specialize (IH Hid1 Hterm).
  destruct (run txs s1) as [s2 log2]. simpl in *. congruence.
Qed.

Lemma is_ok_require c r : is_ok (require c r) = c.
Proof. by destruct c. Qed.

Lemma is_ok_nonReentrantBefore s : is_ok (nonReentrantBefore s) = negb (entered s).
Proof. unfold nonReentrantBefore. by destruct (entered s). Qed.

(** C3: on an escrow whose status is Completed, Cancelled or Refunded every
    state-changing escrow operation fails, whoever calls it and whatever its
    arguments; when the call gets past its modifiers it is the status
    [require] that stops it. The failed transaction changes nothing, and no
    sequence of transactions ever changes any field of the record of an
    existing terminal escrow. *)
Theorem terminal_escrow_is_final tx c s i :
  terminal (status (escrow_at s i)) = true ->
  targets c = Some i ->
  (exists f, step tx c s = Fail f /\
     (modifiers_pass tx c s = true -> f = RequireFailed (status_guard c))) /\
  transact tx c s = (s, []) /\
  (i < nextEscrowId s ->
     forall txs, escrow_at (fst (run txs s)) i = escrow_at s i).
Proof.
  intros Hterm Htgt.
  assert (Hf : exists f, step tx c s = Fail f).
  { apply not_ok_fails. intros [s1 log] H.
    apply step_ok_inv in H as (_ & Ht & _).
    destruct (Ht i Htgt) as (_ & Hnt & _). congruence. }
  destruct Hf as [f Hf]. split; [|split].
  - exists f. split; [done|]. intros Hmod.
    assert (Hst : forall st, terminal st = false -> status (escrow_at s i) <> st).
    { intros st Hs Heq. rewrite Heq in Hterm. congruence. }
    destruct c; simpl in Htgt; try discriminate; injection Htgt as ->;
      simpl in Hf, Hmod |- *;
      unfold validEscrow, onlyClient, onlyFreelancer, onlyMediator, onlyParties in Hmod;
      rewrite ?is_ok_require, ?is_ok_nonReentrantBefore in Hmod;
      repeat (apply andb_true_iff in Hmod as [Hmod ?]);
      repeat match goal with
      | H : (_ <? _) = true |- _ => apply N.ltb_lt in H
      | H : (_ =? _) = true |- _ => apply N.eqb_eq in H
      | H : negb _ = true |- _ => apply negb_true_iff in H
      | H : _ || _ = true |- _ => apply orb_true_iff in H; rewrite !N.eqb_eq in H
      end.
    + rewrite fundEscrow_wrong_status in Hf; [congruence | done..| by apply Hst].
    + rewrite submitWork_wrong_status in Hf; [congruence | done..| by apply Hst].
    + rewrite approveWork_wrong_status in Hf; [congruence | done..| by apply Hst].
    + rewrite raiseDispute_wrong_status in Hf;
        [congruence | done | done | by apply Hst | by apply Hst].
    + rewrite resolveDispute_wrong_status in Hf; [congruence | done..| by apply Hst].
    + rewrite cancelEscrow_wrong_status in Hf; [congruence | done..| by apply Hst].
  - unfold transact. by rewrite Hf.
  - intros Hid txs. by apply terminal_run.
Qed.

(** A second approval of a completed escrow. *)
Lemma terminal_escrow_is_final_witness :
  (exists f, step (honest 1 20) (ApproveWork 1) eth_completed = Fail f /\
     (modifiers_pass (honest 1 20) (ApproveWork 1) eth_completed = true ->
      f = RequireFailed "Work not submitted")) /\
  transact (honest 1 20) (ApproveWork 1) eth_completed = (eth_completed, []) /\
  (1 < nextEscrowId eth_completed ->
     forall txs, escrow_at (fst (run txs eth_completed)) 1 = escrow_at eth_completed 1).
Proof.
  apply (terminal_escrow_is_final (honest 1 20) (ApproveWork 1) eth_completed 1);
    vm_compute; reflexivity.
Defined.

(** The part of C4 the code keeps: a debit that reverts, or a wrong amount
    of native coin, fails the whole call. *)
Lemma fundEscrow_failed_debit_reverts tx v i s :
  let e := escrow_at s i in
  (token e = 0 /\ v <> amount e) \/ (token e <> 0 /\ oracle tx 0%nat = Reverts) ->
  exists f, fundEscrow tx v i s = Fail f.
Proof.
  intros e Hpay. apply not_ok_fails. intros [s1 log] H.
  apply fundEscrow_inv in H as (_ & _ & _ & _ & _ & Hlog). fold e in Hlog.
  destruct Hpay as [[Ht Hv] | [Ht Ho]];
    destruct Hlog as [(Ht1 & Hv1 & _) | (Ht1 & _ & Ho1 & _)]; congruence.
Qed.

(** C4 does not hold of the code: the escrow below is in status Created and
    paid in a token; its client calls [fundEscrow] and the token answers the
    [transferFrom] with false (nothing was debited). The call succeeds all
    the same and the escrow becomes Funded. *)
Theorem fundEscrow_ignores_refused_debit :
  status (escrow_at token_created 1) = Created /\
  client (escrow_at token_created 1) = msg_sender (unfunded 1 11) /\
  oracle (unfunded 1 11) 0%nat = Returns false /\
  exists s1,
    fundEscrow (unfunded 1 11) 0 1 token_created =
      Ok (s1, [Ledger (TransferFrom 7 1 999 1000); Emit (EvEscrowFunded 1 1000)]) /\
    status (escrow_at s1 1) = Funded.
Proof.
  repeat split; try (vm_compute; reflexivity).
  eexists. split; [apply fundEscrow_ok; try (vm_compute; reflexivity)|].
  - right. repeat split; vm_compute; discriminate.
  - by rewrite escrow_at_store_eq.
Qed.

(** C5, as stated, fails: on the reachable escrow of 2^255 token units the
    first of two [approveWork] calls by the client already fails, so the two
    transactions release nothing at all. *)
Lemma approveWork_twice_overflow :
  status (escrow_at huge_submitted 1) = WorkSubmitted /\
  client (escrow_at huge_submitted 1) = msg_sender (honest 1 13) /\
  is_ok (approveWork (honest 1 13) 1 huge_submitted) = false /\
  ledger_calls (snd (run [(honest 1 13, ApproveWork 1); (honest 1 14, ApproveWork 1)]
                         huge_submitted)) = [].
Proof. repeat split; vm_compute; reflexivity. Qed.

(** C5, amended: starting from an existing escrow in status WorkSubmitted
    whose [amount * platformFee] fits in 256 bits (fee rate within its cap,
    custody calls going through), the client's first [approveWork] succeeds
    and a second [approveWork] on the result fails for every caller, at the
    status [require] when the caller is the client again; the two
    transactions together issue the two release credits exactly once. And
    [resolveDispute] on an escrow whose status is not Disputed fails,
    whatever the caller and the amounts. *)
Theorem no_double_release tx1 tx2 s i :
  let e := escrow_at s i in
  let fee := amount e * platformFee s / 10000 in
  i < nextEscrowId s -> entered s = false -> platformFee s <= 1000 ->
  status e = WorkSubmitted -> client e = msg_sender tx1 ->
  amount e * platformFee s <= MAX_UINT256 ->
  ledger_ok tx1 ->
  (exists s1 log1,
     approveWork tx1 i s = Ok (s1, log1) /\
     (exists f, approveWork tx2 i s1 = Fail f) /\
     (msg_sender tx2 = client e ->
        approveWork tx2 i s1 = Fail (RequireFailed "Work not submitted")) /\
     ledger_calls (snd (run [(tx1, ApproveWork i); (tx2, ApproveWork i)] s)) =
       [credit (token e) (freelancer e) (amount e - fee);
        credit (token e) (feeRecipient s) fee]) /\
  (forall tx3 s3 j a b,
     status (escrow_at s3 j) <> Disputed ->
     exists f, resolveDispute tx3 j a b s3 = Fail f).
Proof.
  intros e fee Hid Hent Hcap Hst Hcl Hov Hok. split.
  - pose proof (approveWork_ok tx1 i s Hid Hent Hst Hcl) as H1.
    cbv zeta in H1. fold e fee in H1.
    specialize (H1 ltac:(lia) Hov Hok).
    eexists _, _. split; [exact H1|].
    set (s1 := store_escrow i (approved_escrow tx1 e) s) in *.
    assert (Hst1 : status (escrow_at s1 i) = Completed)
      by (unfold s1; by rewrite escrow_at_store_eq).
    assert (Hf : exists f, approveWork tx2 i s1 = Fail f).
    { apply not_ok_fails. intros [s2 log2] H.
      apply approveWork_inv in H as (_ & _ & _ & Hws & _). congruence. }
    split; [done|]. split.
    + intros Hc2. apply approveWork_wrong_status.
      * done.
      * unfold s1. by rewrite escrow_at_store_eq.
      * done.
      * congruence.
    + destruct Hf as [f Hf]. simpl. unfold transact. simpl.
      rewrite H1, Hf. simpl. reflexivity.
  - intros tx3 s3 j a b Hnd. apply not_ok_fails. intros [s4 log4] H.
    apply resolveDispute_inv in H as (_ & _ & _ & Hd & _). congruence.
Qed.

(** Two approvals in a row of the escrow of 1000 wei. *)
Lemma no_double_release_witness :
  (exists s1 log1,
     approveWork (honest 1 14) 1 eth_submitted = Ok (s1, log1) /\
     (exists f, approveWork (honest 1 15) 1 s1 = Fail f) /\
     (1 = 1 -> approveWork (honest 1 15) 1 s1 = Fail (RequireFailed "Work not submitted")) /\
     ledger_calls (snd (run [(honest 1 14, ApproveWork 1); (honest 1 15, ApproveWork 1)]
                            eth_submitted)) =
       [SendEth 2 975; SendEth 200 25]) /\
  (forall tx3 s3 j a b,
     status (escrow_at s3 j) <> Disputed ->
     exists f, resolveDispute tx3 j a b s3 = Fail f).
Proof.
  apply (no_double_release (honest 1 14) (honest 1 15) eth_submitted 1);
    try (vm_compute; reflexivity); vm_compute; discriminate.
Defined.

(** C6, as stated, fails: past the deadline (50) the status and caller
    guards of [approveWork] hold on the reachable escrow of 2^255 token
    units, and the call fails on the fee computation; and the status and
    caller guards of [fundEscrow] hold on a Created escrow of 1000 wei, and
    the call fails when it carries 999 wei. *)
Lemma guards_alone_do_not_suffice_after_deadline :
  (deadline (escrow_at huge_submitted 1) < block_timestamp (honest 1 53) /\
   status (escrow_at huge_submitted 1) = WorkSubmitted /\
   client (escrow_at huge_submitted 1) = msg_sender (honest 1 53) /\
   approveWork (honest 1 53) 1 huge_submitted = Fail Panic) /\
  (deadline (escrow_at eth_created 1) < block_timestamp (honest 1 53) /\
   status (escrow_at eth_created 1) = Created /\
   client (escrow_at eth_created 1) = msg_sender (honest 1 53) /\
   fundEscrow (honest 1 53) 999 1 eth_created =
     Fail (RequireFailed "Incorrect ETH amount")).
Proof. repeat split; vm_compute; reflexivity. Qed.

(** C6, amended: [submitWork] fails whenever the time is past the escrow's
    deadline (at the deadline [require] when the earlier guards hold), and
    it succeeds exactly when the escrow exists, is Funded, the caller is
    the freelancer, the time is at most the deadline and the delivery hash
    is not empty; it then records the hash and sets the status to
    WorkSubmitted. [fundEscrow] and [approveWork] never look at the
    deadline: at any time, also past the deadline, [fundEscrow] succeeds
    when its status and caller guards hold and the payment is made (the
    amount in native coin comes with the call, or the token debit is carried
    out), and [approveWork] succeeds when its status and caller guards hold
    and [amount * platformFee] fits in 256 bits (existing escrow, outside a
    guarded call, fee rate within its cap, custody calls going through). *)
Theorem deadline_binds_submission_only tx s i :
  let e := escrow_at s i in
  (forall h, deadline e < block_timestamp tx ->
     exists f, submitWork tx i h s = Fail f /\
       (i < nextEscrowId s -> freelancer e = msg_sender tx -> status e = Funded ->
        f = RequireFailed "Deadline passed")) /\
  (forall h,
     (exists r, submitWork tx i h s = Ok r) <->
     (i < nextEscrowId s /\ status e = Funded /\ freelancer e = msg_sender tx /\
      block_timestamp tx <= deadline e /\ h <> EmptyString)) /\
  (forall h s1 log, submitWork tx i h s = Ok (s1, log) ->
     deliveryHash (escrow_at s1 i) = h /\ status (escrow_at s1 i) = WorkSubmitted) /\
  (forall v, i < nextEscrowId s -> entered s = false ->
     status e = Created -> client e = msg_sender tx ->
     (token e = 0 /\ v = amount e) \/
     (token e <> 0 /\ v = 0 /\ oracle tx 0%nat = Returns true) ->
     exists s1 log, fundEscrow tx v i s = Ok (s1, log) /\
       status (escrow_at s1 i) = Funded) /\
  (i < nextEscrowId s -> entered s = false -> platformFee s <= 1000 ->
   status e = WorkSubmitted -> client e = msg_sender tx ->
   amount e * platformFee s <= MAX_UINT256 -> ledger_ok tx ->
     exists s1 log, approveWork tx i s = Ok (s1, log) /\
       status (escrow_at s1 i) = Completed).
Proof.
  intros e. repeat apply conj.
  - intros h Hlate.
    assert (Hf : exists f, submitWork tx i h s = Fail f).
    { apply not_ok_fails. intros [s1 log] H.
      apply submitWork_inv in H as (_ & _ & _ & Hd & _). fold e in Hd. lia. }
    destruct Hf as [f Hf]. exists f. split; [done|].
    intros Hid Hfr Hst. revert Hf. unfold submitWork, validEscrow, onlyFreelancer.
    apply N.ltb_lt in Hid. rewrite Hid. simpl. fold e.
    rewrite Hfr, N.eqb_refl. simpl. rewrite Hst. simpl.
    assert (Hd : (block_timestamp tx <=? deadline e) = false) by (apply N.leb_gt; lia).
    rewrite Hd. simpl. congruence.
  - intros h. split.
    + intros [[s1 log] H].
      by apply submitWork_inv in H as (Hid & Hfr & Hst & Hd & Hh & _).
    + intros (Hid & Hst & Hfr & Hd & Hh). eexists. by apply submitWork_ok.
  - intros h s1 log H. apply submitWork_inv in H as (_ & _ & _ & _ & _ & -> & _).
    by rewrite escrow_at_store_eq.
  - intros v Hid Hent Hst Hcl Hpay. eexists _, _.
    split; [apply fundEscrow_ok; try done | by rewrite escrow_at_store_eq].
    destruct Hpay as [? | (? & ? & Ho)]; [by left | right].
    by rewrite Ho.
  - intros Hid Hent Hcap Hst Hcl Hov Hok. eexists _, _.
    split; [apply approveWork_ok; try done; lia|]. by rewrite escrow_at_store_eq.
Qed.

(** Ten time units past the deadline: submission fails, approval goes through. *)
Lemma deadline_binds_submission_only_witness :
  deadline (escrow_at eth_submitted 1) < block_timestamp (honest 1 60) /\
  (exists f, submitWork (honest 2 60) 1 "Qm" eth_funded = Fail f /\
     (1 < nextEscrowId eth_funded -> 2 = 2 -> Funded = Funded ->
      f = RequireFailed "Deadline passed")) /\
  (exists s1 log, approveWork (honest 1 60) 1 eth_submitted = Ok (s1, log) /\
     status (escrow_at s1 1) = Completed).
Proof.
  split; [vm_compute; reflexivity|]. split.
  - apply (deadline_binds_submission_only (honest 2 60) eth_funded 1).
    vm_compute. reflexivity.
  - apply (deadline_binds_submission_only (honest 1 60) eth_submitted 1);
      try (vm_compute; reflexivity); vm_compute; discriminate.
Defined.

Lemma consecutive_from_run txs s :
  consecutive_from (nextEscrowId s) (created_ids (snd (run txs s))) /\
  nextEscrowId (fst (run txs s)) =
    nextEscrowId s + N.of_nat (length (created_ids (snd (run txs s)))).
Proof.
  revert s. induction txs as [|[tx c] txs IH]; intros s; simpl.
  - split; [done | lia].
  - assert (Hone : created_ids (snd (transact tx c s)) =
                     (if nextEscrowId (fst (transact tx c s)) =? nextEscrowId s
                      then [] else [nextEscrowId s]) /\
                   nextEscrowId (fst (transact tx c s)) =
                     nextEscrowId s + N.of_nat (length (created_ids (snd (transact tx c s))))).
    { destruct (transact_cases tx c s) as [(s1 & log & H & ->) | (f & _ & ->)]; simpl.
      - apply step_ok_inv in H as (_ & _ & _ & _ & _ & Hids & Hn).
        rewrite Hn, Hids. destruct (is_create c); simpl.
        + split; [|done].
          assert (Hne : (nextEscrowId s + 1 =? nextEscrowId s) = false)
            by (apply N.eqb_neq; lia).
          change (N.of_nat 1) with 1. by rewrite Hne.
        + split; [|done]. change (N.of_nat 0) with 0. by rewrite N.add_0_r, N.eqb_refl.
      - rewrite N.eqb_refl. split; [done | lia]. }
    destruct (transact tx c s) as [s1 log1]. simpl in Hone.
    destruct Hone as [Hids Hn]. specialize (IH s1).
    destruct (run txs s1) as [s2 log2]. simpl in IH |- *.
    destruct IH as [IHc IHn]. rewrite created_ids_app, length_app, Hids.
    destruct (nextEscrowId s1 =? nextEscrowId s) eqn:Heq.
    + apply N.eqb_eq in Heq. simpl. rewrite <- Heq. split; [done | lia].
    + rewrite Hids in Hn. simpl in Hn. simpl.
      replace (nextEscrowId s + 1) with (nextEscrowId s1) by lia.
      split; [done | lia].
Qed.

(** C7: as long as the id counter has not reached the top of uint256,
    [createEscrow] succeeds if and only if the freelancer is not the zero
    address, the amount is positive, the deadline is strictly after the
    current time and the mediator is approved or is the owner. On success
    the new id is the counter's value and the counter goes up by one, the
    new escrow has status Created, no other escrow changes and no custody
    call is made. Along any sequence of transactions the ids handed out are
    consecutive numbers starting at the counter, and the counter ends past
    all of them, so none is ever handed out twice. *)
Theorem createEscrow_allocates_sequential_ids tx f m a t d w s :
  nextEscrowId s < MAX_UINT256 ->
  ((exists r, createEscrow tx f m a t d w s = Ok r) <->
   (f <> 0 /\ 0 < a /\ block_timestamp tx < d /\
    (is_approved s m = true \/ m = owner s))) /\
  (forall i s1 log, createEscrow tx f m a t d w s = Ok (i, s1, log) ->
     i = nextEscrowId s /\ nextEscrowId s1 = i + 1 /\
     status (escrow_at s1 i) = Created /\
     (forall j, j <> i -> escrow_at s1 j = escrow_at s j) /\
     ledger_calls log = [] /\ created_ids log = [i]) /\
  (forall txs,
     consecutive_from (nextEscrowId s) (created_ids (snd (run txs s))) /\
     nextEscrowId (fst (run txs s)) =
       nextEscrowId s + N.of_nat (length (created_ids (snd (run txs s))))).
Proof.
  intros Hn. split; [|split].
  - split.
    + intros [[[i s1] log] H].
      by apply createEscrow_inv in H as (Hf & Ha & Hd & Hm & _).
    + intros (Hf & Ha & Hd & Hm).
      destruct (createEscrow_ok tx f m a t d w s Hf Ha Hd Hm Hn) as [s1 H]. eauto.
  - intros i s1 log H.
    apply createEscrow_inv in H
      as (_ & _ & _ & _ & _ & -> & Hn1 & Hes & _ & _ & _ & _ & _ & ->).
    repeat split; try done.
    + unfold escrow_at. by rewrite Hes, lookup_insert_eq.
    + intros j Hj. unfold escrow_at. by rewrite Hes, lookup_insert_ne.
  - intros txs. apply consecutive_from_run.
Qed.

(** The first two escrows of a fresh contract get the ids 1 and 2. *)
Lemma createEscrow_allocates_sequential_ids_witness :
  (exists r, createEscrow (honest 1 10) 2 100 1000 0 50 "job" deployed = Ok r) /\
  created_ids (snd (run [(honest 1 10, CreateEscrow 2 100 1000 0 50 "job");
                         (honest 1 11, FundEscrow 1000 1);
                         (honest 3 12, CreateEscrow 4 100 5 7 90 "logo")] deployed)) = [1; 2].
Proof.
  assert (Hn : nextEscrowId deployed < MAX_UINT256) by (vm_compute; reflexivity).
  split; [|vm_compute; reflexivity].
  apply (createEscrow_allocates_sequential_ids
           (honest 1 10) 2 100 1000 0 50 "job" deployed Hn).
  repeat split; try (vm_compute; reflexivity).
  - vm_compute. discriminate.
  - right. vm_compute. reflexivity.
Defined.

(** C8: from a state whose fee rate is at most 1000 every transaction
    leaves a rate of at most 1000; a transaction that changes the rate is a
    [setPlatformFee] sent by the owner; [setPlatformFee] with a value above
    1000 fails for every caller and leaves the storage as it was; while the
    rate is at most 1000 the fee of a release is at most a tenth of the
    escrow's amount; and the contract is deployed with a rate of 250. *)
Theorem platformFee_capped tx c s :
  (platformFee s <= 1000 -> platformFee (fst (transact tx c s)) <= 1000) /\
  (platformFee (fst (transact tx c s)) <> platformFee s ->
     msg_sender tx = owner s /\ c = SetPlatformFee (platformFee (fst (transact tx c s)))) /\
  (forall f, 1000 < f ->
     (exists e, setPlatformFee tx f s = Fail e) /\
     transact tx (SetPlatformFee f) s = (s, [])) /\
  (forall i s1 log, platformFee s <= 1000 -> approveWork tx i s = Ok (s1, log) ->
     let e := escrow_at s i in
     let fee := amount e * platformFee s / 10000 in
     ledger_calls log = [credit (token e) (freelancer e) (amount e - fee);
                         credit (token e) (feeRecipient s) fee] /\
     10 * fee <= amount e) /\
  (forall deployer _feeRecipient, platformFee (constructor deployer _feeRecipient) = 250).
Proof.
  assert (Hstep : platformFee (fst (transact tx c s)) = platformFee s \/
                  (msg_sender tx = owner s /\
                   c = SetPlatformFee (platformFee (fst (transact tx c s))) /\
                   platformFee (fst (transact tx c s)) <= 1000)).
  { destruct (transact_cases tx c s) as [(s1 & log & H & ->) | (f & _ & ->)];
      simpl; [|by left].
    apply step_ok_inv in H as (_ & _ & _ & Hfee & _).
    destruct (decide (platformFee s1 = platformFee s)) as [Heq | Hne]; [by left|].
    right. by destruct (Hfee Hne) as (-> & -> & ?). }
  split; [|split; [|split; [|split]]].
  - intros Hcap. destruct Hstep as [-> | (_ & _ & ?)]; done.
  - intros Hne. destruct Hstep as [? | (? & ? & _)]; done.
  - intros f Hf.
    assert (He : exists e, setPlatformFee tx f s = Fail e).
    { unfold setPlatformFee, onlyOwner.
      destruct (owner s =? msg_sender tx); simpl; [|eauto].
      assert (Hb : (f <=? 1000) = false) by (apply N.leb_gt; lia).
      rewrite Hb. simpl. eauto. }
    split; [done|]. destruct He as [e He]. unfold transact. simpl. by rewrite He.
  - intros i s1 log Hcap H e fee.
    apply approveWork_inv in H as (_ & _ & _ & _ & _ & _ & _ & ->).
    split; [done|]. by apply fee_le_tenth.
  - done.
Qed.

(** The owner sets the cap itself, a value above it is refused, a stranger changes nothing. *)
Lemma platformFee_capped_witness :
  platformFee (fst (transact (honest 100 20) (SetPlatformFee 1000) eth_submitted)) = 1000 /\
  transact (honest 100 20) (SetPlatformFee 1001) eth_submitted = (eth_submitted, []) /\
  platformFee (fst (transact (honest 1 20) (SetPlatformFee 900) eth_submitted)) = 250 /\
  platformFee (fst (transact (honest 100 20) (SetPlatformFee 1001) eth_submitted)) <= 1000.
Proof.
  split; [vm_compute; reflexivity|].
  split.
  - apply (platformFee_capped (honest 100 20) (SetPlatformFee 1001) eth_submitted).
    vm_compute. reflexivity.
  - split; [vm_compute; reflexivity|].
    apply (platformFee_capped (honest 100 20) (SetPlatformFee 1001) eth_submitted).
    vm_compute. discriminate.
Defined.

(** C10: in every state the deployed contract can reach, escrow 0 passes
    [validEscrow] and reads as the all-zero record, and every state-changing
    escrow operation aimed at it fails for every caller other than the zero
    address (which no caller is); the failed transaction changes nothing and
    makes no custody call, and after any further transactions escrow 0 still
    reads as the all-zero record. *)
Theorem escrow_zero_is_inert tx c s :
  reachable s -> msg_sender tx <> 0 -> targets c = Some 0 ->
  validEscrow s 0 = Ok tt /\
  escrow_at s 0 = zero_escrow /\
  (exists f, step tx c s = Fail f) /\
  transact tx c s = (s, []) /\
  (forall txs, Forall (fun p => msg_sender (fst p) <> 0) txs ->
     escrow_at (fst (run txs s)) 0 = zero_escrow).
Proof.
  intros Hr Hs Ht.
  destruct (reachable_inv s Hr) as (Hn & Hz & _ & _).
  assert (Hf : exists f, step tx c s = Fail f).
  { apply not_ok_fails. intros [s1 log] H.
    apply step_ok_inv in H as (_ & Htgt & _).
    destruct (Htgt 0 Ht) as (_ & _ & Hrole). rewrite Hz in Hrole.
    unfold has_role in Hrole. simpl in Hrole. intuition congruence. }
  split; [|split; [|split; [|split]]].
  - unfold validEscrow.
    assert (Hlt : (0 <? nextEscrowId s) = true) by (apply N.ltb_lt; lia).
    by rewrite Hlt.
  - done.
  - done.
  - destruct Hf as [f Hf]. unfold transact. by rewrite Hf.
  - intros txs Hall.
    by destruct (reachable_inv _ (reachable_run txs s Hr Hall)) as (_ & ? & _).
Qed.

Lemma eth_submitted_reachable : reachable eth_submitted.
Proof.
  repeat (apply reachable_run; [| by repeat constructor]).
  apply deployed_reachable.
Qed.

(** Funding escrow 0 of a contract that holds one real escrow. *)
Lemma escrow_zero_is_inert_witness :
  validEscrow eth_submitted 0 = Ok tt /\
  escrow_at eth_submitted 0 = zero_escrow /\
  (exists f, step (honest 1 20) (FundEscrow 0 0) eth_submitted = Fail f) /\
  transact (honest 1 20) (FundEscrow 0 0) eth_submitted = (eth_submitted, []) /\
  (forall txs, Forall (fun p => msg_sender (fst p) <> 0) txs ->
     escrow_at (fst (run txs eth_submitted)) 0 = zero_escrow).
Proof.
  apply (escrow_zero_is_inert (honest 1 20) (FundEscrow 0 0) eth_submitted).
  - apply eth_submitted_reachable.
  - vm_compute. discriminate.
  - reflexivity.
Defined.


(** ** The rest of the contract: whole runs, views and administration *)

Lemma step_commit tx c s s1 log : step tx c s = Ok (s1, log) -> s1 = commit tx c s.
Proof.
  intros H. destruct c; simpl in H |- *.
  - apply bind_ok in H as ([[i s2] l] & H & E). injection E as <- <-.
    unfold createEscrow in H. guards H. unfold checked_add in E.
    destruct (nextEscrowId s + 1 <=? MAX_UINT256); [|discriminate].
    injection E as <-. by injection H as <- <- <-.
  - by apply fundEscrow_inv in H as (_ & _ & _ & _ & -> & _).
  - by apply submitWork_inv in H as (_ & _ & _ & _ & _ & -> & _).
  - by apply approveWork_inv in H as (_ & _ & _ & _ & _ & _ & -> & _).
  - by apply raiseDispute_inv in H as (_ & _ & _ & -> & _).
  - by apply resolveDispute_inv in H as (_ & _ & _ & _ & _ & _ & -> & _).
  - by apply cancelEscrow_inv in H as (_ & _ & _ & _ & -> & _).
  - unfold addMediator, onlyOwner in H. destruct (owner s =? msg_sender tx); [|discriminate].
    by injection H as <- <-.
  - unfold removeMediator, onlyOwner in H. destruct (owner s =? msg_sender tx); [|discriminate].
    by injection H as <- <-.
  - unfold setPlatformFee, onlyOwner in H.
    destruct (owner s =? msg_sender tx); [|discriminate]. simpl in H.
    destruct (_fee <=? 1000); [|discriminate]. by injection H as <- <-.
  - unfold setFeeRecipient, onlyOwner in H.
    destruct (owner s =? msg_sender tx); [|discriminate]. simpl in H.
    destruct (negb (_feeRecipient =? 0)); [|discriminate]. by injection H as <- <-.
  - unfold transferOwnership, onlyOwner in H.
    destruct (owner s =? msg_sender tx); [|discriminate]. simpl in H.
    destruct (newOwner =? 0); [discriminate|]. by injection H as <- <-.
  - unfold renounceOwnership, onlyOwner in H.
    destruct (owner s =? msg_sender tx); [|discriminate]. by injection H as <- <-.
Qed.

Lemma getList_push_eq k x m : default [] (push_to k x m !! k) = default [] (m !! k) ++ [x].
Proof. unfold push_to. by rewrite lookup_insert_eq. Qed.

Lemma getList_push_ne k k' x m : k <> k' -> default [] (push_to k x m !! k') = default [] (m !! k').
Proof. intros. unfold push_to. by rewrite lookup_insert_ne. Qed.

Lemma well_formed_constructor d r : well_formed (constructor d r).
Proof.
  split; simpl.
  - lia.
  - intros i. rewrite lookup_empty. split; [by intros [? ?] | lia].
  - intros i e. by rewrite lookup_empty.
  - intros i e. by rewrite lookup_empty.
  - intros a i. unfold getClientEscrows. simpl. rewrite lookup_empty. simpl. split.
    + by intros ?%elem_of_nil.
    + intros (e & He & _). by rewrite lookup_empty in He.
  - intros a. unfold getClientEscrows. simpl. rewrite lookup_empty. constructor.
  - intros a i. unfold getFreelancerEscrows. simpl. rewrite lookup_empty. simpl. split.
    + by intros ?%elem_of_nil.
    + intros (e & He & _). by rewrite lookup_empty in He.
  - intros a. unfold getFreelancerEscrows. simpl. rewrite lookup_empty. constructor.
Qed.

(** A successful operation on an escrow rewrites the record under its key
    with the same terms and indexes. *)
Lemma well_formed_store s i e e1 :
  well_formed s -> escrows s !! i = Some e ->
  terms e1 = terms e -> status e1 <> Refunded ->
  (status e1 = Created \/ status e1 = Funded \/ status e1 = Cancelled ->
   deliveryHash e1 = EmptyString /\ freelancerSubmitted e1 = false) ->
  well_formed (store_escrow i e1 s).
Proof.
  intros [Hc Hd Hr Hu Hcl Hcn Hfl Hfn] He Ht Hs Hu1.
  unfold terms in Ht. injection Ht as Hid Hcli Hfr Hme Ham Htok Hdl Hwd Hca.
  destruct (Hr i e He) as (Hrid & Hra & Hrf & Hrd & _).
  split; simpl.
  - done.
  - intros j. destruct (decide (i = j)) as [<- | Hne].
    + rewrite lookup_insert_eq. rewrite <- Hd. rewrite He. split; eauto.
    + by rewrite lookup_insert_ne.
  - intros j e2. destruct (decide (i = j)) as [<- | Hne].
    + rewrite lookup_insert_eq. intros [= <-]. repeat split; congruence.
    + rewrite lookup_insert_ne by done. apply Hr.
  - intros j e2. destruct (decide (i = j)) as [<- | Hne].
    + rewrite lookup_insert_eq. by intros [= <-].
    + rewrite lookup_insert_ne by done. apply Hu.
  - intros a j. unfold getClientEscrows in *. simpl. rewrite Hcl.
    destruct (decide (i = j)) as [<- | Hne].
    + rewrite lookup_insert_eq. split.
      * intros (e2 & He2 & <-). exists e1. split; congruence.
      * intros (e2 & [= <-] & <-). exists e. split; congruence.
    + by rewrite lookup_insert_ne.
  - done.
  - intros a j. unfold getFreelancerEscrows in *. simpl. rewrite Hfl.
    destruct (decide (i = j)) as [<- | Hne].
    + rewrite lookup_insert_eq. split.
      * intros (e2 & He2 & <-). exists e1. split; congruence.
      * intros (e2 & [= <-] & <-). exists e. split; congruence.
    + by rewrite lookup_insert_ne.
  - done.
Qed.

Lemma well_formed_present s tx i :
  well_formed s -> msg_sender tx <> 0 -> i < nextEscrowId s ->
  has_role tx (escrow_at s i) -> exists e, escrows s !! i = Some e /\ escrow_at s i = e.
Proof.
  intros Hwf Hs Hi Hrole. destruct (escrows s !! i) as [e|] eqn:He.
  - exists e. split; [done|]. unfold escrow_at. by rewrite He.
  - exfalso. unfold escrow_at in Hrole. rewrite He in Hrole.
    unfold has_role in Hrole. simpl in Hrole. intuition congruence.
Qed.

Lemma well_formed_create s tx f m a t d w :
  well_formed s -> f <> 0 -> 0 < a -> block_timestamp tx < d ->
  well_formed (commit tx (CreateEscrow f m a t d w) s).
Proof.
  intros [Hc Hd Hr Hu Hcl Hcn Hfl Hfn] Hf Ha Hdl.
  assert (Hnone : escrows s !! nextEscrowId s = None).
  { apply eq_None_not_Some. rewrite Hd. lia. }
  assert (Hz : escrow_at s (nextEscrowId s) = zero_escrow).
  { unfold escrow_at. by rewrite Hnone. }
  assert (Hfresh : forall a0, nextEscrowId s ∉ getClientEscrows s a0).
  { intros a0. rewrite Hcl. intros (e & He & _). congruence. }
  assert (Hfresh2 : forall a0, nextEscrowId s ∉ getFreelancerEscrows s a0).
  { intros a0. rewrite Hfl. intros (e & He & _). congruence. }
  split; simpl.
  - lia.
  - intros j. destruct (decide (nextEscrowId s = j)) as [<- | Hne].
    + rewrite lookup_insert_eq. split; [lia | eauto].
    + rewrite lookup_insert_ne by done. rewrite Hd. lia.
  - intros j e. destruct (decide (nextEscrowId s = j)) as [<- | Hne].
    + rewrite lookup_insert_eq. intros [= <-]. simpl. repeat split; done.
    + rewrite lookup_insert_ne by done. apply Hr.
  - intros j e. destruct (decide (nextEscrowId s = j)) as [<- | Hne].
    + rewrite lookup_insert_eq. intros [= <-]. simpl. by rewrite Hz.
    + rewrite lookup_insert_ne by done. apply Hu.
  - intros a0 j. unfold getClientEscrows in *. simpl.
    destruct (decide (msg_sender tx = a0)) as [<- | Hna].
    + rewrite getList_push_eq, elem_of_app, list_elem_of_singleton, Hcl.
      destruct (decide (nextEscrowId s = j)) as [<- | Hne].
      * rewrite lookup_insert_eq. split; [eauto|]. intros _. by right.
      * rewrite lookup_insert_ne by done. split; [|by left].
        intros [? | ->]; done.
    + rewrite getList_push_ne by done. rewrite Hcl.
      destruct (decide (nextEscrowId s = j)) as [<- | Hne].
      * rewrite lookup_insert_eq. split.
        -- intros (e & He & _). congruence.
        -- intros (e & [= <-] & Hcli). simpl in Hcli. done.
      * by rewrite lookup_insert_ne.
  - intros a0. unfold getClientEscrows in *. simpl.
    destruct (decide (msg_sender tx = a0)) as [<- | Hna].
    + rewrite getList_push_eq. apply NoDup_app. split; [apply Hcn|]. split.
      * intros x Hx ->%list_elem_of_singleton. by apply (Hfresh (msg_sender tx)).
      * apply NoDup_singleton.
    + rewrite getList_push_ne by done. apply Hcn.
  - intros a0 j. unfold getFreelancerEscrows in *. simpl.
    destruct (decide (f = a0)) as [<- | Hna].
    + rewrite getList_push_eq, elem_of_app, list_elem_of_singleton, Hfl.
      destruct (decide (nextEscrowId s = j)) as [<- | Hne].
      * rewrite lookup_insert_eq. split; [eauto|]. intros _. by right.
      * rewrite lookup_insert_ne by done. split; [|by left].
        intros [? | ->]; done.
    + rewrite getList_push_ne by done. rewrite Hfl.
      destruct (decide (nextEscrowId s = j)) as [<- | Hne].
      * rewrite lookup_insert_eq. split.
        -- intros (e & He & _). congruence.
        -- intros (e & [= <-] & Hcli). simpl in Hcli. done.
      * by rewrite lookup_insert_ne.
  - intros a0. unfold getFreelancerEscrows in *. simpl.
    destruct (decide (f = a0)) as [<- | Hna].
    + rewrite getList_push_eq. apply NoDup_app. split; [apply Hfn|]. split.
      * intros x Hx ->%list_elem_of_singleton. by apply (Hfresh2 f).
      * apply NoDup_singleton.
    + rewrite getList_push_ne by done. apply Hfn.
Qed.

Lemma well_formed_step tx c s s1 log :
  well_formed s -> msg_sender tx <> 0 -> step tx c s = Ok (s1, log) -> well_formed s1.
Proof.
  intros Hwf Hs H. pose proof (step_commit _ _ _ _ _ H) as ->.
  destruct c; simpl in H.
  - apply bind_ok in H as ([[i s2] l] & H & _).
    apply createEscrow_inv in H as (Hf & Ha & Hd & _). by apply well_formed_create.
  - apply fundEscrow_inv in H as (Hi & Hc & _ & Hst & _).
    destruct (well_formed_present s tx _escrowId Hwf Hs Hi) as (e & He & Heq);
      [by left|].
    simpl. rewrite Heq in *. apply (well_formed_store s _ e); try done.
    intros _. apply (wf_undelivered s Hwf _ e He). by left.
  - apply submitWork_inv in H as (Hi & Hc & Hst & _).
    destruct (well_formed_present s tx _escrowId Hwf Hs Hi) as (e & He & Heq);
      [right; by left|].
    simpl. rewrite Heq in *. apply (well_formed_store s _ e); try done.
    simpl. intros [? | [? | ?]]; done.
  - apply approveWork_inv in H as (Hi & Hc & _ & Hst & _).
    destruct (well_formed_present s tx _escrowId Hwf Hs Hi) as (e & He & Heq);
      [by left|].
    simpl. rewrite Heq in *. apply (well_formed_store s _ e); try done.
    simpl. intros [? | [? | ?]]; done.
  - apply raiseDispute_inv in H as (Hi & Hc & Hst & _).
    destruct (well_formed_present s tx _escrowId Hwf Hs Hi) as (e & He & Heq).
    { unfold has_role. destruct Hc; [by left | right; by left]. }
    simpl. rewrite Heq in *. apply (well_formed_store s _ e); try done.
    simpl. intros [? | [? | ?]]; done.
  - apply resolveDispute_inv in H as (Hi & Hc & _ & Hst & _).
    destruct (well_formed_present s tx _escrowId Hwf Hs Hi) as (e & He & Heq);
      [right; by right|].
    simpl. rewrite Heq in *. apply (well_formed_store s _ e); try done.
    simpl. intros [? | [? | ?]]; done.
  - apply cancelEscrow_inv in H as (Hi & Hc & _ & Hst & _).
    destruct (well_formed_present s tx _escrowId Hwf Hs Hi) as (e & He & Heq);
      [by left|].
    simpl. rewrite Heq in *. apply (well_formed_store s _ e); try done.
    intros _. apply (wf_undelivered s Hwf _ e He). by left.
  - by destruct Hwf.
  - by destruct Hwf.
  - by destruct Hwf.
  - by destruct Hwf.
  - by destruct Hwf.
  - by destruct Hwf.
Qed.

Lemma reachable_well_formed s : reachable s -> well_formed s.
Proof.
  induction 1 as [d r Hd | tx c s s1 log Hr IH Hs Hstep].
  - apply well_formed_constructor.
  - by eapply well_formed_step.
Qed.

(** How one transaction can change the record of an existing escrow. *)
Lemma transact_escrow_cases tx c s i :
  i < nextEscrowId s ->
  let e := escrow_at s i in
  let e1 := escrow_at (fst (transact tx c s)) i in
  i < nextEscrowId (fst (transact tx c s)) /\
  (e1 = e \/
   (targets c = Some i /\ has_role tx e /\
    ((status e = Created /\ e1 = funded_escrow tx e) \/
     (status e = Funded /\ exists h, h <> EmptyString /\ e1 = submitted_escrow tx h e) \/
     (status e = WorkSubmitted /\ e1 = approved_escrow tx e) \/
     ((status e = Funded \/ status e = WorkSubmitted) /\ e1 = disputed_escrow tx e) \/
     (status e = Disputed /\ e1 = resolved_escrow tx e) \/
     (status e = Created /\ e1 = cancelled_escrow tx e)))).
Proof.
  intros Hi e e1. subst e e1.
  destruct (transact_cases tx c s) as [(s1 & log & H & ->) | (f & _ & ->)];
    [|by split; [|left]].
  simpl. pose proof (step_ok_inv _ _ _ _ _ H) as (Hmono & Htgt & Hframe & _).
  split; [lia|].
  destruct (decide (targets c = Some i)) as [Ht | Ht]; [|left; by apply Hframe].
  right. destruct (Htgt i Ht) as (_ & _ & Hrole). split; [done|]. split; [done|].
  destruct c; simpl in Ht; try discriminate; injection Ht as ->; simpl in H.
  - apply fundEscrow_inv in H as (_ & _ & _ & Hst & -> & _).
    rewrite escrow_at_store_eq. by left.
  - apply submitWork_inv in H as (_ & _ & Hst & _ & Hh & -> & _).
    rewrite escrow_at_store_eq. right; left. eauto.
  - apply approveWork_inv in H as (_ & _ & _ & Hst & _ & _ & -> & _).
    rewrite escrow_at_store_eq. right; right; left. eauto.
  - apply raiseDispute_inv in H as (_ & _ & Hst & -> & _).
    rewrite escrow_at_store_eq. right; right; right; left. eauto.
  - apply resolveDispute_inv in H as (_ & _ & _ & Hst & _ & _ & -> & _).
    rewrite escrow_at_store_eq. right; right; right; right; left. eauto.
  - apply cancelEscrow_inv in H as (_ & _ & _ & Hst & -> & _).
    rewrite escrow_at_store_eq. right; right; right; right; right. eauto.
Qed.

Lemma run_invariant (P : State -> Prop) :
  (forall tx c s, P s -> P (fst (transact tx c s))) ->
  forall txs s, P s -> P (fst (run txs s)).
Proof.
  intros Hstep txs. induction txs as [|[tx c] txs IH]; intros s HP; simpl; [done|].
  specialize (Hstep tx c s HP). destruct (transact tx c s) as [s1 log1]. simpl in Hstep.
  specialize (IH s1 Hstep). by destruct (run txs s1) as [s2 log2].
Qed.

(** X7: no sequence of transactions changes the id, client, freelancer,
    mediator, amount, token, deadline, work description or creation time of
    an existing escrow. *)
Theorem escrow_terms_never_change txs s i :
  i < nextEscrowId s ->
  terms (escrow_at (fst (run txs s)) i) = terms (escrow_at s i).
Proof.
  intros Hi.
  apply (run_invariant (fun s1 => i < nextEscrowId s1 /\
                          terms (escrow_at s1 i) = terms (escrow_at s i))); [|done].
  intros tx c s1 [Hi1 Ht].
  destruct (transact_escrow_cases tx c s1 i Hi1) as [Hi2 Hcases].
  split; [done|]. rewrite <- Ht.
  destruct Hcases as [-> | (_ & _ & [[_ ->] | [(_ & h & _ & ->) | [[_ ->] | [[_ ->] | [[_ ->] | [_ ->]]]]]])];
    reflexivity.
Qed.

(** X8: a call in which no further call is nested (a top-level call whose
    external callees do not call back into the contract, or a call of one of
    the functions without [nonReentrant], which make no external call, also
    when it is itself nested in another call) leaves the status of an
    existing escrow as it is or moves it along one of the seven edges
    Created-Funded, Created-Cancelled, Funded-WorkSubmitted,
    Funded-Disputed, WorkSubmitted-Completed, WorkSubmitted-Disputed,
    Disputed-Completed, in every state of the storage; it moves only when
    this call is aimed at this escrow and sent by its client, freelancer or
    mediator. Nothing is said here of the whole of a transaction in which
    calls are nested: the freelancer paid by [approveWork] on one escrow can
    call [raiseDispute] on another escrow of its own while being paid. *)
Theorem status_moves_along_transitions tx c s i :
  i < nextEscrowId s ->
  status (escrow_at (fst (transact tx c s)) i) = status (escrow_at s i) \/
  (transition (status (escrow_at s i)) (status (escrow_at (fst (transact tx c s)) i)) = true /\
   targets c = Some i /\ has_role tx (escrow_at s i)).
Proof.
  intros Hi. destruct (transact_escrow_cases tx c s i Hi) as [_ Hcases].
  destruct Hcases as [-> | (Ht & Hr & Hc)]; [by left|]. right.
  split; [|done].
  destruct Hc as [[Hs ->] | [(Hs & h & _ & ->) | [[Hs ->] | [[Hs ->] | [[Hs ->] | [Hs ->]]]]]];
    simpl; try (by rewrite Hs).
  by destruct Hs as [-> | ->].
Qed.

Lemma custodied_store t i e1 s :
  custodied t (store_escrow i e1 s) + earmarked t (escrow_at s i) =
  custodied t s + earmarked t e1.
Proof.
  unfold custodied, store_escrow, escrow_at. simpl.
  destruct (escrows s !! i) as [e|] eqn:He; simpl.
  - rewrite (map_fold_delete_L _ 0 i e (escrows s)); [|intros; lia | done].
    rewrite <- insert_delete_eq.
    rewrite (map_fold_insert_L _ 0 i e1 (delete i (escrows s)));
      [lia | intros; lia | apply lookup_delete_eq].
  - rewrite (map_fold_insert_L _ 0 i e1 (escrows s));
      [| intros; lia | done].
    unfold earmarked at 3. simpl. lia.
Qed.

Lemma call_out_credit t tok to x :
  call_out t (credit tok to x) = if tok =? t then x else 0.
Proof.
  unfold credit. destruct (tok =? 0) eqn:Hz; simpl.
  - apply N.eqb_eq in Hz. subst tok. by rewrite (N.eqb_sym 0 t).
  - done.
Qed.

Lemma call_in_credit this_ t tok to x : call_in this_ t (credit tok to x) = 0.
Proof. unfold credit. by destruct (tok =? 0). Qed.

Lemma custody_out_dispute t e a b :
  foldr (fun x acc => call_out t x + acc) 0 (dispute_credits e a b) =
  if token e =? t then a + b else 0.
Proof.
  unfold dispute_credits.
  destruct (0 <? b) eqn:Hb; destruct (0 <? a) eqn:Ha; simpl;
    rewrite ?call_out_credit; destruct (token e =? t);
    try apply N.ltb_ge in Hb; try apply N.ltb_ge in Ha; lia.
Qed.

(** X10: for every currency and every successful transaction on a deployed
    contract, the amounts of the escrows held (Funded, WorkSubmitted or
    Disputed) afterwards plus what the transaction paid out equal the
    amounts held before plus what it took in (the native coin sent with
    [fundEscrow], the token debits it issued). *)
Theorem custody_is_conserved t tx c s s1 log :
  reachable s -> step tx c s = Ok (s1, log) ->
  custodied t s1 + custody_out t log = custodied t s + custody_in t tx c log.
Proof.
  intros Hr H. pose proof (reachable_well_formed s Hr) as Hwf.
  unfold custody_out, custody_in. destruct c; simpl in H.
  - apply bind_ok in H as ([[i s2] l] & H & E). injection E as <- <-.
    pose proof (createEscrow_inv _ _ _ _ _ _ _ _ _ _ _ H)
      as (_ & _ & _ & _ & _ & -> & _ & Hes & _ & _ & _ & _ & _ & ->).
    simpl. unfold custodied. rewrite Hes.
    rewrite map_fold_insert_L; [| intros; lia |].
    + unfold earmarked at 1. simpl. destruct (t =? 0); lia.
    + apply eq_None_not_Some. rewrite (wf_domain s Hwf). lia.
  - apply fundEscrow_inv in H as (_ & _ & _ & Hst & -> & Hlog).
    pose proof (custodied_store t _escrowId
                  (funded_escrow tx (escrow_at s _escrowId)) s) as Hc.
    unfold earmarked in Hc. simpl in Hc. rewrite Hst in Hc. simpl in Hc.
    destruct Hlog as [(Ht & -> & ->) | (Ht & -> & _ & ->)]; simpl.
    + rewrite Ht in Hc. rewrite (N.eqb_sym 0 t) in Hc. destruct (t =? 0); lia.
    + rewrite N.eqb_refl, andb_true_r.
      destruct (token (escrow_at s _escrowId) =? t); destruct (t =? 0); lia.
  - apply submitWork_inv in H as (_ & _ & Hst & _ & _ & -> & ->).
    pose proof (custodied_store t _escrowId
                  (submitted_escrow tx _deliveryHash (escrow_at s _escrowId)) s) as Hc.
    unfold earmarked in Hc. simpl in Hc. rewrite Hst in Hc. simpl in Hc.
    simpl. destruct (t =? 0); lia.
  - apply approveWork_inv in H as (_ & _ & _ & Hst & _ & Hle & -> & ->).
    pose proof (custodied_store t _escrowId
                  (approved_escrow tx (escrow_at s _escrowId)) s) as Hc.
    unfold earmarked in Hc. simpl in Hc. rewrite Hst in Hc. simpl in Hc.
    simpl. rewrite !call_out_credit, !call_in_credit.
    destruct (token (escrow_at s _escrowId) =? t); destruct (t =? 0); lia.
  - apply raiseDispute_inv in H as (_ & _ & Hst & -> & ->).
    pose proof (custodied_store t _escrowId
                  (disputed_escrow tx (escrow_at s _escrowId)) s) as Hc.
    unfold earmarked in Hc. simpl in Hc.
    simpl. destruct Hst as [Hst | Hst]; rewrite Hst in Hc; simpl in Hc;
      destruct (t =? 0); lia.
  - apply resolveDispute_inv in H as (_ & _ & _ & Hst & Hsum & _ & -> & ->).
    pose proof (custodied_store t _escrowId
                  (resolved_escrow tx (escrow_at s _escrowId)) s) as Hc.
    unfold earmarked in Hc. simpl in Hc. rewrite Hst in Hc. simpl in Hc.
    rewrite ledger_calls_app, ledger_calls_map_Ledger. simpl. rewrite app_nil_r.
    rewrite custody_out_dispute.
    assert (Hin : foldr (fun x acc => call_in (this tx) t x + acc) 0
                    (dispute_credits (escrow_at s _escrowId) _clientAmount _freelancerAmount) = 0).
    { unfold dispute_credits, credit.
      destruct (0 <? _freelancerAmount); destruct (0 <? _clientAmount);
        destruct (token (escrow_at s _escrowId) =? 0); reflexivity. }
    rewrite Hin.
    destruct (token (escrow_at s _escrowId) =? t); destruct (t =? 0); lia.
  - apply cancelEscrow_inv in H as (_ & _ & _ & Hst & -> & ->).
    pose proof (custodied_store t _escrowId
                  (cancelled_escrow tx (escrow_at s _escrowId)) s) as Hc.
    unfold earmarked in Hc. simpl in Hc. rewrite Hst in Hc. simpl in Hc.
    simpl. destruct (t =? 0); lia.
  - unfold addMediator, onlyOwner in H. destruct (owner s =? msg_sender tx); [|discriminate].
    injection H as <- <-. simpl. unfold custodied. simpl. destruct (t =? 0); lia.
  - unfold removeMediator, onlyOwner in H. destruct (owner s =? msg_sender tx); [|discriminate].
    injection H as <- <-. simpl. unfold custodied. simpl. destruct (t =? 0); lia.
  - unfold setPlatformFee, onlyOwner in H.
    destruct (owner s =? msg_sender tx); [|discriminate]. simpl in H.
    destruct (_fee <=? 1000); [|discriminate].
    injection H as <- <-. simpl. unfold custodied. simpl. destruct (t =? 0); lia.
  - unfold setFeeRecipient, onlyOwner in H.
    destruct (owner s =? msg_sender tx); [|discriminate]. simpl in H.
    destruct (negb (_feeRecipient =? 0)); [|discriminate].
    injection H as <- <-. simpl. unfold custodied. simpl. destruct (t =? 0); lia.
  - unfold transferOwnership, onlyOwner in H.
    destruct (owner s =? msg_sender tx); [|discriminate]. simpl in H.
    destruct (newOwner =? 0); [discriminate|].
    injection H as <- <-. simpl. unfold custodied. simpl. destruct (t =? 0); lia.
  - unfold renounceOwnership, onlyOwner in H.
    destruct (owner s =? msg_sender tx); [|discriminate].
    injection H as <- <-. simpl. unfold custodied. simpl. destruct (t =? 0); lia.
Qed.

(** X9: on a deployed contract the delivery hash of an escrow that is
    Created or Funded is empty; once an existing escrow has left these two
    statuses no sequence of transactions changes its delivery hash. *)
Theorem deliveryHash_is_written_once s i :
  (reachable s ->
   status (escrow_at s i) = Created \/ status (escrow_at s i) = Funded ->
   deliveryHash (escrow_at s i) = EmptyString) /\
  (i < nextEscrowId s ->
   status (escrow_at s i) <> Created -> status (escrow_at s i) <> Funded ->
   forall txs, deliveryHash (escrow_at (fst (run txs s)) i) = deliveryHash (escrow_at s i)).
Proof.
  split.
  - intros Hr Hst. pose proof (reachable_well_formed s Hr) as Hwf.
    unfold escrow_at in *. destruct (escrows s !! i) as [e|] eqn:He; simpl in *; [|done].
    apply (wf_undelivered s Hwf i e He). tauto.
  - intros Hi Hnc Hnf txs.
    apply (run_invariant (fun s1 =>
             i < nextEscrowId s1 /\ status (escrow_at s1 i) <> Created /\
             status (escrow_at s1 i) <> Funded /\
             deliveryHash (escrow_at s1 i) = deliveryHash (escrow_at s i))); [|done].
    intros tx c s1 (Hi1 & Hc1 & Hf1 & Hd1).
    destruct (transact_escrow_cases tx c s1 i Hi1) as [Hi2 Hcases].
    split; [done|]. rewrite <- Hd1.
    destruct Hcases
      as [-> | (_ & _ & [[Hs ->] | [(Hs & h & _ & ->) | [[Hs ->] | [[Hs ->] | [[Hs ->] | [Hs ->]]]]]])];
      done.
Qed.

(** X5: on a deployed contract [getEscrowDetails] fails for an id at or
    past the counter, returns the all-zero record for id 0, and for an id
    from 1 up to the counter returns the stored record, which carries this
    id, a positive amount, a non-zero freelancer, a deadline after its
    creation time and a status other than Refunded. *)
Theorem getEscrowDetails_reads_checked_records s i :
  reachable s ->
  (nextEscrowId s <= i ->
     getEscrowDetails s i = Fail (RequireFailed "Escrow does not exist")) /\
  (i = 0 -> getEscrowDetails s i = Ok zero_escrow) /\
  (1 <= i < nextEscrowId s ->
     exists e, getEscrowDetails s i = Ok e /\ escrows s !! i = Some e /\
       id e = i /\ 0 < amount e /\ freelancer e <> 0 /\ createdAt e < deadline e /\
       status e <> Refunded).
Proof.
  intros Hr. pose proof (reachable_well_formed s Hr) as Hwf.
  unfold getEscrowDetails, validEscrow. split; [|split].
  - intros Hi. assert (Hb : (i <? nextEscrowId s) = false) by (apply N.ltb_ge; lia).
    by rewrite Hb.
  - intros ->. pose proof (wf_counter s Hwf).
    assert (Hb : (0 <? nextEscrowId s) = true) by (apply N.ltb_lt; lia).
    rewrite Hb. simpl. unfold escrow_at.
    assert (Hn : escrows s !! 0 = None).
    { apply eq_None_not_Some. rewrite (wf_domain s Hwf). lia. }
    by rewrite Hn.
  - intros Hi. assert (Hb : (i <? nextEscrowId s) = true) by (apply N.ltb_lt; lia).
    rewrite Hb. simpl.
    destruct (proj2 (wf_domain s Hwf i) Hi) as [e He].
    exists e. unfold escrow_at. rewrite He. simpl.
    split; [done|]. split; [done|]. by apply (wf_record s Hwf).
Qed.

(** X6: on a deployed contract [getClientEscrows(a)] lists exactly the
    existing escrows whose client is [a] and [getFreelancerEscrows(a)]
    exactly those whose freelancer is [a], each once. *)
Theorem escrow_indexes_are_exact s a i :
  reachable s ->
  (i ∈ getClientEscrows s a <-> 1 <= i < nextEscrowId s /\ client (escrow_at s i) = a) /\
  (i ∈ getFreelancerEscrows s a <->
     1 <= i < nextEscrowId s /\ freelancer (escrow_at s i) = a) /\
  NoDup (getClientEscrows s a) /\ NoDup (getFreelancerEscrows s a).
Proof.
  intros Hr. pose proof (reachable_well_formed s Hr) as Hwf.
  split; [|split; [|split]].
  - rewrite (wf_clients s Hwf). unfold escrow_at. split.
    + intros (e & He & <-). rewrite He. simpl. split; [|done].
      apply (wf_domain s Hwf). eauto.
    + intros [Hi Hc]. destruct (proj2 (wf_domain s Hwf i) Hi) as [e He].
      rewrite He in Hc. eauto.
  - rewrite (wf_freelancers s Hwf). unfold escrow_at. split.
    + intros (e & He & <-). rewrite He. simpl. split; [|done].
      apply (wf_domain s Hwf). eauto.
    + intros [Hi Hc]. destruct (proj2 (wf_domain s Hwf i) Hi) as [e He].
      rewrite He in Hc. eauto.
  - apply (wf_clients_once s Hwf).
  - apply (wf_freelancers_once s Hwf).
Qed.

Lemma raiseDispute_ok tx i s :
  let e := escrow_at s i in
  i < nextEscrowId s ->
  msg_sender tx = client e \/ msg_sender tx = freelancer e ->
  status e = Funded \/ status e = WorkSubmitted ->
  raiseDispute tx i s =
    Ok (store_escrow i (disputed_escrow tx e) s, [Emit (EvDisputeRaised i (msg_sender tx))]).
Proof.
  intros e Hid Hp Hst. unfold raiseDispute, validEscrow, onlyParties.
  apply N.ltb_lt in Hid. rewrite Hid. simpl. fold e.
  assert (Hp' : (msg_sender tx =? client e) || (msg_sender tx =? freelancer e) = true).
  { apply orb_true_iff. by rewrite !N.eqb_eq. }
  rewrite Hp'. simpl.
  assert (Hs' : bool_decide (status e = Funded) || bool_decide (status e = WorkSubmitted) = true).
  { apply orb_true_iff. by rewrite !bool_decide_eq_true. }
  by rewrite Hs'.
Qed.

Lemma cancelEscrow_ok tx i s :
  let e := escrow_at s i in
  i < nextEscrowId s -> entered s = false ->
  client e = msg_sender tx -> status e = Created ->
  cancelEscrow tx i s =
    Ok (store_escrow i (cancelled_escrow tx e) s, [Emit (EvEscrowCancelled i)]).
Proof.
  intros e Hid Hent Hcl Hst.
  unfold cancelEscrow, validEscrow, onlyClient, nonReentrantBefore.
  apply N.ltb_lt in Hid. rewrite Hid. simpl.
  fold e. rewrite Hcl, N.eqb_refl. simpl. rewrite Hent. simpl.
  rewrite escrow_at_set_entered. fold e. rewrite Hst. simpl.
  by rewrite guard_released.
Qed.

(** X1: [raiseDispute] succeeds exactly when the escrow exists, the caller
    is its client or its freelancer and its status is Funded or
    WorkSubmitted; it then sets the status to Disputed, keeps the terms and
    the delivery hash, touches no other escrow and makes no custody call. *)
Theorem raiseDispute_is_open_to_both_parties tx i s :
  let e := escrow_at s i in
  ((exists r, raiseDispute tx i s = Ok r) <->
   (i < nextEscrowId s /\
    (msg_sender tx = client e \/ msg_sender tx = freelancer e) /\
    (status e = Funded \/ status e = WorkSubmitted))) /\
  (forall s1 log, raiseDispute tx i s = Ok (s1, log) ->
     status (escrow_at s1 i) = Disputed /\
     terms (escrow_at s1 i) = terms e /\
     deliveryHash (escrow_at s1 i) = deliveryHash e /\
     ledger_calls log = [] /\
     (forall j, j <> i -> escrow_at s1 j = escrow_at s j)).
Proof.
  intros e. split.
  - split.
    + intros [[s1 log] H]. by apply raiseDispute_inv in H as (Hi & Hp & Hst & _).
    + intros (Hi & Hp & Hst). eexists. by apply raiseDispute_ok.
  - intros s1 log H. apply raiseDispute_inv in H as (_ & _ & _ & -> & ->).
    rewrite escrow_at_store_eq. repeat split; try done.
    intros j Hj. by apply escrow_at_store_ne.
Qed.

(** X2: outside a guarded call [cancelEscrow] succeeds exactly when the
    escrow exists, the caller is its client and its status is Created; it
    makes no custody call, and after it the escrow stays Cancelled whatever
    transactions follow (it can no longer be funded). *)
Theorem cancelEscrow_is_final tx i s :
  let e := escrow_at s i in
  entered s = false ->
  ((exists r, cancelEscrow tx i s = Ok r) <->
   (i < nextEscrowId s /\ client e = msg_sender tx /\ status e = Created)) /\
  (forall s1 log, cancelEscrow tx i s = Ok (s1, log) ->
     ledger_calls log = [] /\
     forall txs, status (escrow_at (fst (run txs s1)) i) = Cancelled).
Proof.
  intros e Hent. split.
  - split.
    + intros [[s1 log] H]. by apply cancelEscrow_inv in H as (Hi & Hc & _ & Hst & _).
    + intros (Hi & Hc & Hst). eexists. by apply cancelEscrow_ok.
  - intros s1 log H. apply cancelEscrow_inv in H as (Hi & _ & _ & _ & -> & ->).
    split; [done|]. intros txs.
    rewrite terminal_run.
    + by rewrite escrow_at_store_eq.
    + done.
    + by rewrite escrow_at_store_eq.
Qed.

Lemma transact_ok tx c s s1 log : step tx c s = Ok (s1, log) -> transact tx c s = (s1, log).
Proof. intros H. unfold transact. by rewrite H. Qed.

Lemma transact_fail tx c s f : step tx c s = Fail f -> transact tx c s = (s, []).
Proof. intros H. unfold transact. by rewrite H. Qed.

Lemma onlyOwner_ok tx s : owner s = msg_sender tx -> onlyOwner tx s = Ok tt.
Proof. intros H. unfold onlyOwner. by rewrite H, N.eqb_refl. Qed.

Lemma onlyOwner_fail tx s :
  owner s <> msg_sender tx -> onlyOwner tx s = Fail (CustomError "OwnableUnauthorizedAccount").
Proof. intros H. unfold onlyOwner. apply N.eqb_neq in H. by rewrite H. Qed.

(** X3: [addMediator] and [removeMediator] change nothing unless the owner
    sends them. Sent by the owner they set the approval of that one address:
    after [addMediator(m)] an escrow naming [m] passes the mediator check,
    after [removeMediator(m)] it is refused unless [m] is the owner; the
    removal does not reach the escrows that already name a mediator, whose
    disputes that mediator still resolves. *)
Theorem mediator_list_governs_new_escrows_only tx m s :
  (owner s <> msg_sender tx ->
     transact tx (AddMediator m) s = (s, []) /\
     transact tx (RemoveMediator m) s = (s, [])) /\
  (owner s = msg_sender tx ->
     let s1 := fst (transact tx (AddMediator m) s) in
     let s2 := fst (transact tx (RemoveMediator m) s) in
     is_approved s1 m = true /\ is_approved s2 m = false /\
     (forall m', m' <> m ->
        is_approved s1 m' = is_approved s m' /\ is_approved s2 m' = is_approved s m') /\
     (forall tx' f a t d w,
        f <> 0 -> 0 < a -> block_timestamp tx' < d -> nextEscrowId s < MAX_UINT256 ->
        (exists r, createEscrow tx' f m a t d w s1 = Ok r) /\
        (m <> owner s ->
         createEscrow tx' f m a t d w s2 = Fail (RequireFailed "Invalid mediator"))) /\
     (forall tx' i a b,
        i < nextEscrowId s -> entered s = false -> ledger_ok tx' ->
        status (escrow_at s i) = Disputed -> mediator (escrow_at s i) = msg_sender tx' ->
        a + b = amount (escrow_at s i) -> amount (escrow_at s i) <= MAX_UINT256 ->
        exists s3 log, resolveDispute tx' i a b s2 = Ok (s3, log) /\
          status (escrow_at s3 i) = Completed)).
Proof.
  split.
  - intros Hno. split; apply (transact_fail _ _ _ (CustomError "OwnableUnauthorizedAccount"));
      simpl; unfold addMediator, removeMediator; by rewrite onlyOwner_fail.
  - intros Ho s1 s2.
    assert (Hs1 : s1 = set_approvedMediators (<[m := true]> (approvedMediators s)) s).
    { unfold s1, transact. simpl. unfold addMediator. by rewrite onlyOwner_ok. }
    assert (Hs2 : s2 = set_approvedMediators (<[m := false]> (approvedMediators s)) s).
    { unfold s2, transact. simpl. unfold removeMediator. by rewrite onlyOwner_ok. }
    rewrite Hs1, Hs2. clear Hs1 Hs2 s1 s2.
    split; [|split; [|split; [|split]]].
    + unfold is_approved. simpl. by rewrite lookup_insert_eq.
    + unfold is_approved. simpl. by rewrite lookup_insert_eq.
    + intros m' Hne. unfold is_approved. simpl. by rewrite !lookup_insert_ne.
    + intros tx' f a t d w Hf Ha Hd Hn. split.
      * destruct (createEscrow_ok tx' f m a t d w
                    (set_approvedMediators (<[m := true]> (approvedMediators s)) s))
          as [s3 H3]; try done; [|eauto].
        left. unfold is_approved. simpl. by rewrite lookup_insert_eq.
      * intros Hmo. unfold createEscrow.
        apply N.eqb_neq in Hf. rewrite Hf. simpl.
        apply N.ltb_lt in Ha, Hd. rewrite Ha, Hd. simpl.
        unfold is_approved. simpl. rewrite lookup_insert_eq. simpl.
        apply N.eqb_neq in Hmo. by rewrite Hmo.
    + intros tx' i a b Hi Hent Hok Hst Hm Hsum Hmax.
      eexists _, _. split; [by apply resolveDispute_ok|].
      by rewrite escrow_at_store_eq.
Qed.

(** X4: the fee rate and the fee recipient are read when the payment is
    released. Take an existing escrow in status WorkSubmitted, outside a
    guarded call, and three calls in a row, none with a call nested in it:
    the owner of the contract sets a rate [f] of at most 1000, the owner
    sets a non-zero recipient [r], and the client of the escrow calls
    [approveWork]. If [amount * f] does not
    exceed 2^256 - 1 and every external call of the [approveWork]
    transaction goes through and reports success, the custody calls of the
    three are the credit of [amount - amount * f / 10000] to the freelancer
    and the credit of [amount * f / 10000] to [r]. *)
Theorem fee_terms_are_read_at_release tx0 tx f r s i :
  let e := escrow_at s i in
  let fee := amount e * f / 10000 in
  owner s = msg_sender tx0 -> f <= 1000 -> r <> 0 ->
  i < nextEscrowId s -> entered s = false ->
  status e = WorkSubmitted -> client e = msg_sender tx ->
  amount e * f <= MAX_UINT256 -> ledger_ok tx ->
  ledger_calls (snd (run [(tx0, SetPlatformFee f); (tx0, SetFeeRecipient r);
                          (tx, ApproveWork i)] s)) =
    [credit (token e) (freelancer e) (amount e - fee); credit (token e) r fee].
Proof.
  intros e fee Ho Hf Hr Hi Hent Hst Hcl Hov Hok. simpl.
  rewrite (transact_ok tx0 (SetPlatformFee f) s (set_platformFee f s) []).
  2: { simpl. unfold setPlatformFee. rewrite onlyOwner_ok by done. simpl.
       apply N.leb_le in Hf. by rewrite Hf. }
  rewrite (transact_ok tx0 (SetFeeRecipient r) (set_platformFee f s)
             (set_feeRecipient r (set_platformFee f s)) []).
  2: { simpl. unfold setFeeRecipient. rewrite onlyOwner_ok by done. simpl.
       apply N.eqb_neq in Hr. by rewrite Hr. }
  erewrite (transact_ok tx (ApproveWork i)).
  2: { simpl. apply approveWork_ok; try done. simpl. lia. }
  reflexivity.
Qed.

(** Funding, submission and approval of the escrow of 1000 wei. *)
Lemma escrow_terms_never_change_witness :
  terms (escrow_at (fst (run [(honest 1 11, FundEscrow 1000 1);
                              (honest 2 12, SubmitWork 1 "Qm");
                              (honest 1 14, ApproveWork 1)] eth_created)) 1) =
  terms (escrow_at eth_created 1).
Proof.
  apply (escrow_terms_never_change _ eth_created 1). vm_compute. reflexivity.
Defined.

(** Funding moves the escrow of 1000 wei from Created to Funded. *)
Lemma status_moves_along_transitions_witness :
  status (escrow_at (fst (transact (honest 1 11) (FundEscrow 1000 1) eth_created)) 1) =
    status (escrow_at eth_created 1) \/
  (transition (status (escrow_at eth_created 1))
     (status (escrow_at (fst (transact (honest 1 11) (FundEscrow 1000 1) eth_created)) 1)) = true /\
   targets (FundEscrow 1000 1) = Some 1 /\
   has_role (honest 1 11) (escrow_at eth_created 1)).
Proof.
  apply (status_moves_along_transitions (honest 1 11) (FundEscrow 1000 1) eth_created 1).
  vm_compute. reflexivity.
Defined.

Lemma eth_created_reachable : reachable eth_created.
Proof. apply reachable_run; [apply deployed_reachable | by repeat constructor]. Qed.

(** Releasing the escrow of 1000 wei: 1000 held before, 975 + 25 paid out. *)
Lemma custody_is_conserved_witness :
  custodied 0 eth_completed +
    custody_out 0 (snd (transact (honest 1 14) (ApproveWork 1) eth_submitted)) =
  custodied 0 eth_submitted +
    custody_in 0 (honest 1 14) (ApproveWork 1)
      (snd (transact (honest 1 14) (ApproveWork 1) eth_submitted)).
Proof.
  apply (custody_is_conserved 0 (honest 1 14) (ApproveWork 1) eth_submitted).
  - apply eth_submitted_reachable.
  - vm_compute. reflexivity.
Defined.

(** The contract holding the one escrow of 1000 wei. *)
Lemma getEscrowDetails_reads_checked_records_witness :
  getEscrowDetails eth_submitted 2 = Fail (RequireFailed "Escrow does not exist") /\
  exists e, getEscrowDetails eth_submitted 1 = Ok e /\ escrows eth_submitted !! 1 = Some e /\
    id e = 1 /\ 0 < amount e /\ freelancer e <> 0 /\ createdAt e < deadline e /\
    status e <> Refunded.
Proof.
  split.
  - apply (getEscrowDetails_reads_checked_records eth_submitted 2 eth_submitted_reachable).
    vm_compute. discriminate.
  - apply (getEscrowDetails_reads_checked_records eth_submitted 1 eth_submitted_reachable).
    vm_compute. split; [discriminate | reflexivity].
Defined.

(** Escrow 1 is listed under its client 1 and not under account 2. *)
Lemma escrow_indexes_are_exact_witness :
  1 ∈ getClientEscrows eth_submitted 1 /\ (1 ∉ getClientEscrows eth_submitted 2).
Proof.
  split.
  - apply (escrow_indexes_are_exact eth_submitted 1 1 eth_submitted_reachable).
    vm_compute. split; [split; [discriminate | reflexivity] | reflexivity].
  - intros Hin.
    apply (escrow_indexes_are_exact eth_submitted 2 1 eth_submitted_reachable) in Hin.
    destruct Hin as [_ Hc]. vm_compute in Hc. discriminate.
Defined.

(** The client cancels the unfunded escrow of 1000 wei. *)
Lemma cancelEscrow_is_final_witness :
  exists r, cancelEscrow (honest 1 11) 1 eth_created = Ok r.
Proof.
  apply (cancelEscrow_is_final (honest 1 11) 1 eth_created); vm_compute;
    [reflexivity | by repeat split].
Defined.

(** The owner doubles the rate and redirects the fee before the approval. *)
Lemma fee_terms_are_read_at_release_witness :
  ledger_calls (snd (run [(honest 100 13, SetPlatformFee 500);
                          (honest 100 13, SetFeeRecipient 300);
                          (honest 1 14, ApproveWork 1)] eth_submitted)) =
    [SendEth 2 950; SendEth 300 50].
Proof.
  apply (fee_terms_are_read_at_release (honest 100 13) (honest 1 14) 500 300 eth_submitted 1);
    try (vm_compute; reflexivity); vm_compute; discriminate.
Defined.

End EscrowFacts.

(** * Properties of SubscriptionPool *)

Module PoolFacts.
Import SubscriptionPool.

Lemma pool_at_set_entered b s i : pool_at (set_entered b s) i = pool_at s i.
Proof. reflexivity. Qed.

(** In a transaction that reaches the threshold for the member listed first,
    the loop of [collectPayments] fails in its first iteration: [i--] is
    evaluated with [i = 0]. *)
Lemma collect_loop_head_eviction gas tx pid share sp tc s log m :
  let pool := pool_at s pid in
  memberList pool !! 0%nat = Some m ->
  isActive (member_at pool m) = true ->
  token pool = 0 \/ oracle tx (calls_made log) = Reverts ->
  MAX_FAILED_PAYMENTS <= failedPaymentCount (member_at pool m) + 1 ->
  collect_loop (S gas) tx pid share 0 sp tc s log = Fail Panic.
Proof.
  intros pool Hm Hact Hfail Hmax.
  assert (Hlen : (0 <? N.of_nat (length (memberList pool))) = true).
  { apply N.ltb_lt. apply lookup_lt_Some in Hm. lia. }
  cbn [collect_loop]. fold pool. rewrite Hlen. cbn [negb].
  change (N.to_nat 0) with 0%nat. rewrite Hm, Hact. cbn [negb].
  unfold _tryCollectPayment, collectFromMember. fold pool.
  assert (Hc : exists log1,
    (if token pool =? 0 then (false, log)
     else match oracle tx (calls_made log) with
          | Reverts => (false, log ++ [Caught (TransferFrom (token pool) m (this tx) share)])
          | Returns _ => (true, log ++ [Ledger (TransferFrom (token pool) m (this tx) share)])
          end) = (false, log1)).
  { destruct (token pool =? 0) eqn:Ht; [eauto|].
    destruct Hfail as [Hz | ->]; [|eauto]. apply N.eqb_neq in Ht. done. }
  destruct Hc as [log1 ->]. cbn [mbind Result_bind]. fold pool.
  destruct (checked_add (failedPaymentCount (member_at pool m)) 1) as [count|f] eqn:Hadd;
    unfold checked_add in Hadd;
    destruct (failedPaymentCount (member_at pool m) + 1 <=? MAX_UINT256);
    try discriminate; cbn [mbind Result_bind]; [|congruence].
  injection Hadd as <-. apply N.leb_le in Hmax. rewrite Hmax.
  unfold _removeMember. change (checked_sub 0 1) with (@Fail N Panic).
  match goal with |- context [checked_sub ?a 1] => destruct (checked_sub a 1) eqn:Hsub end;
    cbn [mbind Result_bind].
  - reflexivity.
  - unfold checked_sub in Hsub.
    match type of Hsub with (if ?c then _ else _) = _ => destruct c end; congruence.
Qed.

Lemma collectPayments_head_eviction_fails gas tx pid s m :
  let pool := pool_at s pid in
  memberList pool !! 0%nat = Some m ->
  isActive (member_at pool m) = true ->
  token pool = 0 \/ oracle tx 0%nat = Reverts ->
  MAX_FAILED_PAYMENTS <= failedPaymentCount (member_at pool m) + 1 ->
  exists f, collectPayments gas tx pid s = Fail f.
Proof.
  intros pool Hm Hact Hfail Hmax. unfold collectPayments.
  destruct (validPool s pid); cbn [mbind Result_bind]; [|eauto].
  destruct (poolActive s pid); cbn [mbind Result_bind]; [|eauto].
  unfold nonReentrantBefore.
  destruct (entered s); cbn [mbind Result_bind]; [eauto|].
  rewrite !pool_at_set_entered. fold pool.
  destruct (require _ _); cbn [mbind Result_bind]; [|eauto].
  destruct (checked_div _ _) as [share|]; cbn [mbind Result_bind]; [|eauto].
  destruct gas as [|gas].
  - cbn [collect_loop]. rewrite pool_at_set_entered. fold pool.
    assert (Hlen : (0 <? N.of_nat (length (memberList pool))) = true).
    { apply N.ltb_lt. apply lookup_lt_Some in Hm. lia. }
    rewrite Hlen. cbn [negb mbind Result_bind]. eauto.
  - rewrite (collect_loop_head_eviction gas tx pid share 0 0 (set_entered true s) [] m);
      try done.
    cbn [mbind Result_bind]. eauto.
Qed.

(** ** The removal routine and the members listed later *)

Lemma checked_add_ok a b : a + b <= MAX_UINT256 -> checked_add a b = Ok (a + b).
Proof. intros H. unfold checked_add. apply N.leb_le in H. by rewrite H. Qed.

Lemma checked_sub_ok a b : b <= a -> checked_sub a b = Ok (a - b).
Proof. intros H. unfold checked_sub. apply N.leb_le in H. by rewrite H. Qed.

Lemma pool_at_store_eq i p s : pool_at (store_pool i p s) i = p.
Proof. unfold pool_at, store_pool. simpl. by rewrite lookup_insert_eq. Qed.

Lemma member_at_store_eq m r p : member_at (store_member m r p) m = r.
Proof. unfold member_at, store_member. simpl. by rewrite lookup_insert_eq. Qed.

Lemma removals_app (l1 l2 : list Effect) : removals (l1 ++ l2) = removals l1 ++ removals l2.
Proof. unfold removals. apply omap_app. Qed.

(** What the shared removal routine does to the pool. *)
Lemma removeMember_spec pid m reason s log :
  let pool := pool_at s pid in
  1 <= currentMembers pool ->
  exists s1,
    _removeMember pid m reason s log =
      Ok (s1, log ++ [Emit (EvMemberRemoved pid m reason); Emit (EvMemberLeft pid m)]) /\
    isActive (member_at (pool_at s1 pid) m) = false /\
    failedPaymentCount (member_at (pool_at s1 pid) m) = failedPaymentCount (member_at pool m) /\
    currentMembers (pool_at s1 pid) = currentMembers pool - 1 /\
    memberList (pool_at s1 pid) = swap_remove m (memberList pool).
Proof.
  intros pool Hcm. unfold _removeMember. fold pool. simpl.
  unfold checked_sub. apply N.leb_le in Hcm. rewrite Hcm. simpl.
  eexists. split; [reflexivity|].
  unfold pool_at at 1 2 3 4. simpl. rewrite lookup_insert_eq. simpl.
  unfold member_at at 1 2. simpl. rewrite lookup_insert_eq. simpl.
  repeat split. unfold member_at at 1. simpl. by rewrite lookup_insert_eq.
Qed.

Lemma swap_remove_spec (m : N) (l : list N) :
  m ∈ l -> NoDup l ->
  (m ∉ swap_remove m l) /\ length (swap_remove m l) = (length l - 1)%nat /\
  (forall x, x ∈ swap_remove m l <-> x ∈ l /\ x <> m).
Proof.
  intros Hin Hnd. unfold swap_remove.
  destruct (list_find (λ y, y = m) l) as [[i y]|] eqn:Hfind.
  2: { apply list_find_None in Hfind. rewrite Forall_forall in Hfind.
       exfalso. by apply (Hfind m). }
  apply list_find_Some in Hfind as (Hi & -> & Hbefore).
  destruct (last l) as [z|] eqn:Hlast.
  2: { apply last_None in Hlast. subst l. by apply elem_of_nil in Hin. }
  rewrite last_lookup in Hlast.
  assert (Hlen : (0 < length l)%nat) by (apply lookup_lt_Some in Hi; lia).
  assert (Hchar : forall x, x ∈ take (length l - 1) (<[i:=z]> l) <-> x ∈ l /\ x <> m).
  { intros x. rewrite !list_elem_of_lookup. split.
    - intros [j Hj]. apply lookup_take_Some in Hj as [Hj Hjlt].
      destruct (decide (i = j)) as [-> | Hne].
      + rewrite list_lookup_insert_eq in Hj by (apply lookup_lt_Some in Hi; lia).
        injection Hj as <-. split; [eauto|]. intros ->.
        pose proof (NoDup_lookup _ _ _ _ Hnd Hi Hlast). lia.
      + rewrite list_lookup_insert_ne in Hj by done. split; [eauto|]. intros ->.
        pose proof (NoDup_lookup _ _ _ _ Hnd Hi Hj). lia.
    - intros [[j Hj] Hx].
      destruct (decide (j = pred (length l))) as [-> | Hne].
      + exists i. rewrite lookup_take_Some. split.
        * rewrite list_lookup_insert_eq by (apply lookup_lt_Some in Hi; lia).
          congruence.
        * pose proof (lookup_lt_Some _ _ _ Hi).
          destruct (decide (i = pred (length l))) as [-> | Hne2]; [congruence | lia].
      + exists j. rewrite lookup_take_Some. split.
        * rewrite list_lookup_insert_ne; [done|]. intros ->. congruence.
        * apply lookup_lt_Some in Hj. lia. }
  split; [|split; [|done]].
  - rewrite Hchar. intros [_ ?]. done.
  - rewrite length_take, length_insert. lia.
Qed.

Lemma collect_loop_evicts_later gas tx pid share i sp tc s log m :
  let pool := pool_at s pid in
  1 <= i -> i <= MAX_UINT256 ->
  memberList pool !! N.to_nat i = Some m ->
  isActive (member_at pool m) = true ->
  token pool = 0 \/ oracle tx (calls_made log) = Reverts ->
  MAX_FAILED_PAYMENTS <= failedPaymentCount (member_at pool m) + 1 ->
  failedPaymentCount (member_at pool m) + 1 <= MAX_UINT256 ->
  1 <= currentMembers pool ->
  exists s1 log1,
    collect_loop (S gas) tx pid share i sp tc s log =
      collect_loop gas tx pid share i sp tc s1 log1 /\
    isActive (member_at (pool_at s1 pid) m) = false /\
    failedPaymentCount (member_at (pool_at s1 pid) m) =
      failedPaymentCount (member_at pool m) + 1 /\
    currentMembers (pool_at s1 pid) = currentMembers pool - 1 /\
    memberList (pool_at s1 pid) = swap_remove m (memberList pool) /\
    removals log1 = removals log ++ [(m, "Too many failed payments")].
Proof.
  intros pool Hi Himax Hm Hact Hfail Hmax Hcount Hcm.
  assert (Hlen : (i <? N.of_nat (length (memberList pool))) = true).
  { apply N.ltb_lt. apply lookup_lt_Some in Hm. lia. }
  cbn [collect_loop]. fold pool. rewrite Hlen. cbn [negb].
  rewrite Hm, Hact. cbn [negb].
  unfold _tryCollectPayment, collectFromMember. fold pool.
  assert (Hc : exists log1,
    (if token pool =? 0 then (false, log)
     else match oracle tx (calls_made log) with
          | Reverts => (false, log ++ [Caught (TransferFrom (token pool) m (this tx) share)])
          | Returns _ => (true, log ++ [Ledger (TransferFrom (token pool) m (this tx) share)])
          end) = (false, log1) /\ removals log1 = removals log).
  { destruct (token pool =? 0) eqn:Ht; [eauto|].
    destruct Hfail as [Hz | ->].
    - apply N.eqb_neq in Ht. done.
    - eexists. split; [reflexivity|]. by rewrite removals_app, app_nil_r. }
  destruct Hc as (log1 & -> & Hrem). cbn [mbind Result_bind]. fold pool.
  rewrite (checked_add_ok (failedPaymentCount (member_at pool m)) 1) by done.
  cbn [mbind Result_bind]. apply N.leb_le in Hmax. rewrite Hmax.
  set (m1 := {| isActive := isActive (member_at pool m);
                joinedAt := joinedAt (member_at pool m);
                lastPayment := lastPayment (member_at pool m);
                failedPaymentCount := failedPaymentCount (member_at pool m) + 1;
                totalPaid := totalPaid (member_at pool m) |}).
  set (s2 := store_pool pid (store_member m m1 pool) s).
  destruct (removeMember_spec pid m "Too many failed payments" s2
              (log1 ++ [Emit (EvPaymentFailed pid m)]))
    as (s3 & Hrm & Hina & Hfpc & Hcur & Hlist).
  { unfold s2. by rewrite pool_at_store_eq. }
  rewrite Hrm. cbn [mbind Result_bind].
  rewrite (checked_sub_ok i 1) by done. cbn [mbind Result_bind].
  rewrite (checked_add_ok (i - 1) 1) by lia. cbn [mbind Result_bind].
  replace (i - 1 + 1) with i by lia.
  eexists _, _. split; [reflexivity|].
  unfold s2 in Hfpc, Hcur, Hlist. rewrite pool_at_store_eq in Hfpc, Hcur, Hlist.
  rewrite member_at_store_eq in Hfpc.
  repeat split; try done.
  rewrite !removals_app, Hrem. simpl. by rewrite app_nil_r.
Qed.

(** [leavePool] runs the same routine, with its own reason. *)
Lemma leavePool_spec tx pid s :
  let pool := pool_at s pid in
  pid < nextPoolId s -> entered s = false ->
  isActive (member_at pool (msg_sender tx)) = true ->
  1 <= currentMembers pool ->
  exists s1 log,
    leavePool tx pid s = Ok (s1, log) /\
    isActive (member_at (pool_at s1 pid) (msg_sender tx)) = false /\
    currentMembers (pool_at s1 pid) = currentMembers pool - 1 /\
    memberList (pool_at s1 pid) = swap_remove (msg_sender tx) (memberList pool) /\
    removals log = [(msg_sender tx, "Member left voluntarily")].
Proof.
  intros pool Hid Hent Hact Hcm. unfold leavePool, validPool, nonReentrantBefore.
  apply N.ltb_lt in Hid. rewrite Hid. cbn [require mbind Result_bind].
  rewrite Hent. cbn [mbind Result_bind]. rewrite pool_at_set_entered. fold pool.
  rewrite Hact. cbn [require mbind Result_bind].
  destruct (removeMember_spec pid (msg_sender tx) "Member left voluntarily"
              (set_entered true s) [])
    as (s3 & Hrm & Hina & _ & Hcur & Hlist); [done|].
  rewrite Hrm. cbn [mbind Result_bind].
  eexists _, _. split; [reflexivity|]. done.
Qed.

(** C9 does not hold of the code for the member listed first. The states
    below are reached by creating a token pool that accounts 5 and 6 join in
    this order, and one collection in which one debit fails. A failed debit
    does raise the member's failure count by one. In the next collection the
    debit fails again and the count reaches 2: when the member is the second
    of the list it is removed (inactive, off the list, one member fewer,
    MemberRemoved with its own reason, which is not the one [leavePool]
    gives); when it is the first of the list the whole transaction fails,
    with any amount of gas, and the member stays an active, listed member
    with one recorded failure. ([collect_loop_evicts_later] and
    [collectPayments_head_eviction_fails] state the two behaviours for any
    pool.) *)
Theorem first_listed_member_is_not_evicted :
  let tick := at_time 50 (2 * THIRTY_DAYS + 20) first_fails in
  let tick2 := at_time 50 (2 * THIRTY_DAYS + 20) second_fails in
  let after := transact tick (CollectPayments 10 1) first_listed_failed_once in
  let after2 := transact tick2 (CollectPayments 10 1) second_listed_failed_once in
  (memberList (pool_at two_members 1) = [5; 6] /\
   failedPaymentCount (member_at (pool_at two_members 1) 5) = 0 /\
   failedPaymentCount (member_at (pool_at first_listed_failed_once 1) 5) = 1 /\
   failedPaymentCount (member_at (pool_at second_listed_failed_once 1) 6) = 1) /\
  (isActive (member_at (pool_at (fst after2) 1) 6) = false /\
   memberList (pool_at (fst after2) 1) = [5] /\
   currentMembers (pool_at (fst after2) 1) = 1 /\
   removals (snd after2) = [(6, "Too many failed payments")] /\
   removals (snd (transact (at_time 6 20 none_fails) (LeavePool 1) two_members)) =
     [(6, "Member left voluntarily")]) /\
  (collectPayments 10 tick 1 first_listed_failed_once = Fail Panic /\
   (forall gas, exists f, collectPayments gas tick 1 first_listed_failed_once = Fail f) /\
   isActive (member_at (pool_at (fst after) 1) 5) = true /\
   failedPaymentCount (member_at (pool_at (fst after) 1) 5) = 1 /\
   memberList (pool_at (fst after) 1) = [5; 6] /\
   currentMembers (pool_at (fst after) 1) = 2 /\
   removals (snd after) = []).
Proof.
  intros tick tick2 after after2.
  split; [repeat split; vm_compute; reflexivity|].
  split; [repeat split; vm_compute; reflexivity|].
  split; [vm_compute; reflexivity|].
  split; [|repeat split; vm_compute; reflexivity].
  intros gas.
  apply (collectPayments_head_eviction_fails gas tick 1 first_listed_failed_once 5).
  - vm_compute. reflexivity.
  - vm_compute. reflexivity.
  - right. reflexivity.
  - vm_compute. discriminate.
Qed.

(** ** The rest of the contract: invariants of the storage *)

(** Peel the guards off a hypothesis [H : ... = Ok _]. *)
Ltac peel H :=
  repeat first
    [ apply EscrowFacts.require_bind_ok in H as [? H]
    | let a := fresh "r" in let E := fresh "E" in
      apply EscrowFacts.bind_ok in H as (a & E & H) ].

Lemma pool_at_store_ne i j p s : i <> j -> pool_at (store_pool i p s) j = pool_at s j.
Proof. intros. unfold pool_at, store_pool. simpl. by rewrite lookup_insert_ne. Qed.

Lemma member_at_store_ne m m' r p :
  m <> m' -> member_at (store_member m r p) m' = member_at p m'.
Proof. intros. unfold member_at, store_member. simpl. by rewrite lookup_insert_ne. Qed.

Lemma nonReentrantBefore_inv s s1 :
  nonReentrantBefore s = Ok s1 -> entered s = false /\ s1 = set_entered true s.
Proof.
  unfold nonReentrantBefore. destruct (entered s); [discriminate | by intros [= <-]].
Qed.

Lemma checked_add_inv a b c : checked_add a b = Ok c -> c = a + b /\ a + b <= MAX_UINT256.
Proof.
  unfold checked_add. destruct (a + b <=? MAX_UINT256) eqn:E; [|discriminate].
  intros [= <-]. by apply N.leb_le in E.
Qed.

Lemma checked_sub_inv a b c : checked_sub a b = Ok c -> c = a - b /\ b <= a.
Proof.
  unfold checked_sub. destruct (b <=? a) eqn:E; [|discriminate].
  intros [= <-]. by apply N.leb_le in E.
Qed.

Lemma checked_mul_inv a b c : checked_mul a b = Ok c -> c = a * b /\ a * b <= MAX_UINT256.
Proof.
  unfold checked_mul. destruct (a * b <=? MAX_UINT256) eqn:E; [|discriminate].
  intros [= <-]. by apply N.leb_le in E.
Qed.

Lemma checked_div_inv a b c : checked_div a b = Ok c -> c = a / b /\ b <> 0.
Proof.
  unfold checked_div. destruct (b =? 0) eqn:E; [discriminate|].
  intros [= <-]. by apply N.eqb_neq in E.
Qed.

Lemma swap_remove_NoDup (x : N) (l : list N) : NoDup l -> NoDup (swap_remove x l).
Proof.
  intros Hnd. unfold swap_remove.
  destruct (list_find (λ y, y = x) l) as [[i y]|] eqn:Hfind; [|done].
  destruct (last l) as [z|] eqn:Hlast; [|done].
  apply list_find_Some in Hfind as (Hi & -> & _).
  rewrite last_lookup in Hlast.
  pose proof (lookup_lt_Some _ _ _ Hi) as Hlt.
  apply NoDup_alt. intros j1 j2 y H1 H2.
  apply lookup_take_Some in H1 as [H1 L1]. apply lookup_take_Some in H2 as [H2 L2].
  destruct (decide (i = j1)) as [<-|N1]; destruct (decide (i = j2)) as [<-|N2]; try done.
  - rewrite list_lookup_insert_eq in H1 by done.
    rewrite list_lookup_insert_ne in H2 by done.
    injection H1 as <-. pose proof (NoDup_lookup _ _ _ _ Hnd Hlast H2). lia.
  - rewrite list_lookup_insert_eq in H2 by done.
    rewrite list_lookup_insert_ne in H1 by done.
    injection H2 as <-. pose proof (NoDup_lookup _ _ _ _ Hnd Hlast H1). lia.
  - rewrite list_lookup_insert_ne in H1, H2 by done.
    apply (NoDup_lookup _ _ _ _ Hnd H1 H2).
Qed.

Lemma swap_remove_absent (x : N) (l : list N) : x ∉ l -> swap_remove x l = l.
Proof.
  intros Hx. unfold swap_remove.
  destruct (list_find (λ y, y = x) l) as [[i y]|] eqn:Hfind; [|done].
  apply list_find_Some in Hfind as (Hi & -> & _).
  exfalso. apply Hx. by apply list_elem_of_lookup_2 in Hi.
Qed.

(** The invariant reads the three mappings and the counter only. *)
Lemma pool_well_formed_ext s s' :
  pools s' = pools s -> ownerPools s' = ownerPools s ->
  memberPools s' = memberPools s -> nextPoolId s' = nextPoolId s ->
  well_formed s -> well_formed s'.
Proof.
  intros Hp Ho Hm Hn [H1 H2 H3 H4 H5 H6 H7 H8].
  split; unfold pool_at, getMemberPools, getOwnerPools in *;
    rewrite ?Hp, ?Ho, ?Hm, ?Hn; done.
Qed.

Lemma pool_well_formed_constructor d r : well_formed (constructor d r).
Proof.
  split; simpl; try done.
  - intros i. rewrite lookup_empty. split; [by intros [? ?] | lia].
  - intros i. split; unfold pool_at; simpl; rewrite ?lookup_empty; simpl.
    + constructor.
    + intros m. unfold member_at. simpl. rewrite lookup_empty. simpl.
      split; [by intros ?%elem_of_nil | done].
    + done.
    + lia.
  - intros m i. unfold getMemberPools, pool_at, member_at. simpl.
    rewrite !lookup_empty. simpl. rewrite lookup_empty. simpl.
    split; [by intros ?%elem_of_nil | done].
  - intros m. unfold getMemberPools. simpl. rewrite lookup_empty. constructor.
  - intros a i. unfold getOwnerPools. simpl. rewrite lookup_empty. simpl.
    split; [by intros ?%elem_of_nil | by intros (p & ? & _)].
  - intros a. unfold getOwnerPools. simpl. rewrite lookup_empty. constructor.
Qed.

Lemma pool_present s i :
  well_formed s -> 1 <= i < nextPoolId s -> pools s !! i = Some (pool_at s i).
Proof.
  intros Hwf Hi. apply (wf_domain s Hwf) in Hi as [p Hp].
  unfold pool_at. by rewrite Hp.
Qed.

Lemma pool_absent s i :
  well_formed s -> ~ (1 <= i < nextPoolId s) -> pool_at s i = zero_pool.
Proof.
  intros Hwf Hi. unfold pool_at. destruct (pools s !! i) eqn:E; [|done].
  exfalso. apply Hi. apply (wf_domain s Hwf). eauto.
Qed.

(** Writing back an existing pool with the same terms and members. *)
Lemma pool_well_formed_update i p' s :
  well_formed s -> 1 <= i < nextPoolId s -> same_roster (pool_at s i) p' ->
  well_formed (store_pool i p' s).
Proof.
  intros Hwf Hi (Ht & Hc & Hl & Ha).
  pose proof (pool_present s i Hwf Hi) as Hp.
  unfold terms in Ht. injection Ht as Hid Hown Hname Hamt Htok Hmax Hcr.
  destruct Hwf as [H1 H2 H3 H4 H5 H6 H7 H8].
  split; try done.
  - intros j. unfold store_pool. simpl. rewrite lookup_insert_is_Some.
    rewrite H2. split; [intros [<- | [_ ?]]; done|].
    intros Hj. destruct (decide (i = j)); [by left | by right].
  - intros j. destruct (decide (i = j)) as [<- | Hne].
    + rewrite pool_at_store_eq. destruct (H3 i) as [A B C D].
      split.
      * by rewrite Hl.
      * intros m. rewrite Hl, Ha. apply B.
      * by rewrite Hc, Hl.
      * by rewrite Hc, Hmax.
    + rewrite pool_at_store_ne by done. apply H3.
  - intros j p. unfold store_pool. simpl.
    destruct (decide (i = j)) as [<- | Hne].
    + rewrite lookup_insert_eq. intros [= <-].
      destruct (H4 i _ Hp) as (A & B & C & D).
      rewrite Hid, Hamt, Hmax, Hname. done.
    + rewrite lookup_insert_ne by done. apply H4.
  - intros m j. change (getMemberPools (store_pool i p' s) m) with (getMemberPools s m).
    rewrite H5. destruct (decide (i = j)) as [<- | Hne].
    + by rewrite pool_at_store_eq, Ha.
    + by rewrite pool_at_store_ne.
  - intros a j. change (getOwnerPools (store_pool i p' s) a) with (getOwnerPools s a).
    rewrite H7. unfold store_pool. simpl.
    destruct (decide (i = j)) as [<- | Hne].
    + rewrite lookup_insert_eq, Hp. split.
      * intros (p & [= <-] & <-). eauto.
      * intros (p & [= <-] & <-). eauto.
    + by rewrite lookup_insert_ne.
Qed.

Lemma same_roster_refl p : same_roster p p.
Proof. done. Qed.

Lemma same_roster_member p m r :
  isActive r = isActive (member_at p m) -> same_roster p (store_member m r p).
Proof.
  intros Hr. split; [done|]. split; [done|]. split; [done|].
  intros m'. destruct (decide (m = m')) as [<- | Hne].
  - by rewrite member_at_store_eq.
  - by rewrite member_at_store_ne.
Qed.


(** ** What the internal functions do *)

Lemma removeMember_inv pid m reason s log s1 log1 :
  _removeMember pid m reason s log = Ok (s1, log1) ->
  1 <= currentMembers (pool_at s pid) /\ s1 = removed pid m s /\
  log1 = log ++ [Emit (EvMemberRemoved pid m reason); Emit (EvMemberLeft pid m)].
Proof.
  unfold _removeMember. intros H. peel H.
  apply checked_sub_inv in E as [-> Hle]. simpl in Hle.
  injection H as <- <-. split; [done|]. split; [|done].
  reflexivity.
Qed.

Lemma getMemberPools_store i p s m : getMemberPools (store_pool i p s) m = getMemberPools s m.
Proof. reflexivity. Qed.

Lemma pool_at_removed_eq pid m s :
  pool_at (removed pid m s) pid = without_member m (pool_at s pid).
Proof. unfold removed. apply pool_at_store_eq. Qed.

Lemma pool_at_removed_ne pid m s j :
  pid <> j -> pool_at (removed pid m s) j = pool_at s j.
Proof. intros. unfold removed. by apply pool_at_store_ne. Qed.

Lemma isActive_without_member m p m' :
  isActive (member_at (without_member m p) m') =
  if decide (m = m') then false else isActive (member_at p m').
Proof.
  unfold without_member. destruct (decide (m = m')) as [<- | Hne].
  - unfold member_at. simpl. by rewrite lookup_insert_eq.
  - unfold member_at. simpl. by rewrite lookup_insert_ne.
Qed.

Lemma getMemberPools_removed pid m s m' :
  getMemberPools (removed pid m s) m' =
  if decide (m = m') then swap_remove pid (getMemberPools s m) else getMemberPools s m'.
Proof.
  unfold removed, getMemberPools at 1. simpl.
  destruct (decide (m = m')) as [<- | Hne].
  - by rewrite lookup_insert_eq.
  - by rewrite lookup_insert_ne.
Qed.

(** Removing an active member of an existing pool. *)
Lemma pool_well_formed_removed pid m s :
  well_formed s -> 1 <= pid < nextPoolId s ->
  isActive (member_at (pool_at s pid) m) = true ->
  well_formed (removed pid m s).
Proof.
  intros Hwf Hi Hact.
  pose proof (pool_present s pid Hwf Hi) as Hp.
  destruct Hwf as [H1 H2 H3 H4 H5 H6 H7 H8].
  destruct (H3 pid) as [A B C D].
  assert (Hin : m ∈ memberList (pool_at s pid)) by by apply B.
  destruct (swap_remove_spec m _ Hin A) as (_ & Hlen & Hmem).
  assert (Hpos : (0 < length (memberList (pool_at s pid)))%nat).
  { destruct (memberList (pool_at s pid)); [by apply elem_of_nil in Hin | simpl; lia]. }
  assert (Hin2 : pid ∈ getMemberPools s m) by by apply H5.
  destruct (swap_remove_spec pid _ Hin2 (H6 m)) as (_ & _ & Hmem2).
  split.
  - done.
  - intros j. unfold removed, store_pool. simpl. rewrite lookup_insert_is_Some.
    rewrite H2. split; [intros [<- | [_ ?]]; done|].
    intros Hj. destruct (decide (pid = j)); [by left | by right].
  - intros j. destruct (decide (pid = j)) as [<- | Hne].
    + rewrite pool_at_removed_eq. split.
      * simpl. by apply swap_remove_NoDup.
      * intros x. rewrite isActive_without_member. simpl. rewrite Hmem, B.
        destruct (decide (m = x)) as [<- | Hne]; [split; [by intros [_ ?] | done]|].
        split; [by intros [? _] | intros ?; split; [done | congruence]].
      * simpl. rewrite Hlen, C. lia.
      * simpl. lia.
    + rewrite pool_at_removed_ne by done. apply H3.
  - intros j p. unfold removed, store_pool. simpl.
    destruct (decide (pid = j)) as [<- | Hne].
    + rewrite lookup_insert_eq. intros [= <-]. simpl. by apply H4.
    + rewrite lookup_insert_ne by done. apply H4.
  - intros m' j. rewrite getMemberPools_removed.
    destruct (decide (m = m')) as [<- | Hm].
    + rewrite Hmem2, H5. destruct (decide (pid = j)) as [<- | Hne].
      * rewrite pool_at_removed_eq, isActive_without_member.
        rewrite decide_True by done. split; [by intros [_ ?] | done].
      * rewrite pool_at_removed_ne by done.
        split; [by intros [? _] | intros ?; split; [done | congruence]].
    + rewrite H5. destruct (decide (pid = j)) as [<- | Hne].
      * rewrite pool_at_removed_eq, isActive_without_member.
        by rewrite decide_False by done.
      * by rewrite pool_at_removed_ne by done.
  - intros m'. rewrite getMemberPools_removed.
    destruct (decide (m = m')) as [<- | Hm]; [by apply swap_remove_NoDup | apply H6].
  - intros a j. change (getOwnerPools (removed pid m s) a) with (getOwnerPools s a).
    rewrite H7. unfold removed, store_pool. simpl.
    destruct (decide (pid = j)) as [<- | Hne].
    + rewrite lookup_insert_eq, Hp. split.
      * intros (p & [= <-] & <-). eauto.
      * intros (p & [= <-] & <-). eauto.
    + by rewrite lookup_insert_ne.
  - intros a. apply H8.
Qed.

Lemma getList_push (k k' x : N) (m : gmap N (list N)) :
  default [] (push_to k x m !! k') =
  if decide (k = k') then default [] (m !! k) ++ [x] else default [] (m !! k').
Proof.
  unfold push_to. destruct (decide (k = k')) as [<- | Hne].
  - by rewrite lookup_insert_eq.
  - by rewrite lookup_insert_ne.
Qed.

Lemma pool_at_joined_eq tx pid s :
  pool_at (joined tx pid s) pid = with_new_member tx (pool_at s pid).
Proof. unfold joined. apply pool_at_store_eq. Qed.

Lemma pool_at_joined_ne tx pid s j :
  pid <> j -> pool_at (joined tx pid s) j = pool_at s j.
Proof. intros. unfold joined. by apply pool_at_store_ne. Qed.

Lemma isActive_with_new_member tx p m :
  isActive (member_at (with_new_member tx p) m) =
  if decide (msg_sender tx = m) then true else isActive (member_at p m).
Proof.
  unfold with_new_member. destruct (decide (msg_sender tx = m)) as [<- | Hne].
  - unfold member_at. simpl. by rewrite lookup_insert_eq.
  - unfold member_at. simpl. by rewrite lookup_insert_ne.
Qed.

(** Adding the caller to an existing pool with a free place. *)
Lemma pool_well_formed_joined tx pid s :
  well_formed s -> 1 <= pid < nextPoolId s ->
  isActive (member_at (pool_at s pid) (msg_sender tx)) = false ->
  currentMembers (pool_at s pid) < maxMembers (pool_at s pid) ->
  well_formed (joined tx pid s).
Proof.
  intros Hwf Hi Hact Hroom.
  pose proof (pool_present s pid Hwf Hi) as Hp.
  destruct Hwf as [H1 H2 H3 H4 H5 H6 H7 H8].
  destruct (H3 pid) as [A B C D].
  assert (Hout : msg_sender tx ∉ memberList (pool_at s pid)).
  { rewrite B, Hact. done. }
  assert (Hout2 : pid ∉ getMemberPools s (msg_sender tx)).
  { rewrite H5, Hact. done. }
  split.
  - done.
  - intros j. unfold joined, store_pool. simpl. rewrite lookup_insert_is_Some.
    rewrite H2. split; [intros [<- | [_ ?]]; done|].
    intros Hj. destruct (decide (pid = j)); [by left | by right].
  - intros j. destruct (decide (pid = j)) as [<- | Hne].
    + rewrite pool_at_joined_eq. split.
      * simpl. apply NoDup_app. split; [done|]. split; [|apply NoDup_singleton].
        intros x Hx ->%list_elem_of_singleton. done.
      * intros x. rewrite isActive_with_new_member. simpl.
        rewrite elem_of_app, list_elem_of_singleton, B.
        destruct (decide (msg_sender tx = x)) as [<- | Hne]; [split; [done | by right]|].
        split; [intros [? | ?]; [done | congruence] | by left].
      * simpl. rewrite length_app, C. simpl. lia.
      * simpl. lia.
    + rewrite pool_at_joined_ne by done. apply H3.
  - intros j p. unfold joined, store_pool. simpl.
    destruct (decide (pid = j)) as [<- | Hne].
    + rewrite lookup_insert_eq. intros [= <-]. simpl. by apply H4.
    + rewrite lookup_insert_ne by done. apply H4.
  - intros m' j. unfold getMemberPools, joined. simpl. rewrite getList_push.
    fold (getMemberPools s (msg_sender tx)). fold (getMemberPools s m').
    fold (joined tx pid s).
    destruct (decide (msg_sender tx = m')) as [<- | Hm].
    + rewrite elem_of_app, list_elem_of_singleton, H5.
      destruct (decide (pid = j)) as [<- | Hne].
      * rewrite pool_at_joined_eq, isActive_with_new_member.
        rewrite decide_True by done. split; [done | by right].
      * rewrite pool_at_joined_ne by done.
        split; [intros [? | ?]; [done | congruence] | by left].
    + rewrite H5. destruct (decide (pid = j)) as [<- | Hne].
      * rewrite pool_at_joined_eq, isActive_with_new_member.
        by rewrite decide_False by done.
      * by rewrite pool_at_joined_ne by done.
  - intros m'. unfold getMemberPools, joined. simpl. rewrite getList_push.
    fold (getMemberPools s (msg_sender tx)). fold (getMemberPools s m').
    destruct (decide (msg_sender tx = m')) as [<- | Hm]; [|apply H6].
    apply NoDup_app. split; [apply H6|]. split; [|apply NoDup_singleton].
    intros x Hx ->%list_elem_of_singleton. done.
  - intros a j. change (getOwnerPools (joined tx pid s) a) with (getOwnerPools s a).
    rewrite H7. unfold joined, store_pool. simpl.
    destruct (decide (pid = j)) as [<- | Hne].
    + rewrite lookup_insert_eq, Hp. split.
      * intros (p & [= <-] & <-). eauto.
      * intros (p & [= <-] & <-). eauto.
    + by rewrite lookup_insert_ne.
  - intros a. apply H8.
Qed.

Lemma checked_mul_ok a b : a * b <= MAX_UINT256 -> checked_mul a b = Ok (a * b).
Proof. intros H. unfold checked_mul. apply N.leb_le in H. by rewrite H. Qed.

Lemma checked_div_ok a b : b <> 0 -> checked_div a b = Ok (a / b).
Proof. intros H. unfold checked_div. apply N.eqb_neq in H. by rewrite H. Qed.

Lemma pool_ledger_calls_app (l1 l2 : list Effect) :
  ledger_calls (l1 ++ l2) = ledger_calls l1 ++ ledger_calls l2.
Proof. unfold ledger_calls. apply omap_app. Qed.

Lemma processPayout_inv tx pid a s log log1 :
  _processPayout tx pid a s log = Ok log1 ->
  a * platformFee s <= MAX_UINT256 /\ a * platformFee s / 10000 <= a /\
  ledger_calls log1 = ledger_calls log ++ payout_calls s (pool_at s pid) a.
Proof.
  unfold _processPayout. intros H. peel H.
  apply checked_mul_inv in E as [-> Hmul]. apply checked_sub_inv in E0 as [-> Hsub].
  injection H as <-. split; [done|]. split; [done|].
  rewrite pool_ledger_calls_app. simpl. rewrite app_nil_r.
  unfold payout_calls, credit.
  destruct (token (pool_at s pid) =? 0).
  - peel E1. destruct (oracle tx (calls_made log)); [discriminate|].
    injection E as <-. destruct (oracle tx _); [discriminate|].
    injection E1 as <-. rewrite !pool_ledger_calls_app. simpl. by rewrite <- app_assoc.
  - peel E1. destruct (oracle tx (calls_made log)); [discriminate|].
    injection E as <-. destruct (oracle tx _); [discriminate|].
    injection E1 as <-. rewrite !pool_ledger_calls_app. simpl. by rewrite <- app_assoc.
Qed.

Lemma calls_made_app (l1 l2 : list Effect) :
  calls_made (l1 ++ l2) = (calls_made l1 + calls_made l2)%nat.
Proof. unfold calls_made. by rewrite omap_app, length_app. Qed.

Lemma processPayout_ok tx pid a s log :
  ledger_ok tx -> a * platformFee s <= MAX_UINT256 -> platformFee s <= 10000 ->
  exists log1, _processPayout tx pid a s log = Ok log1.
Proof.
  intros Hok Hmul Hfee. unfold _processPayout.
  rewrite (checked_mul_ok a (platformFee s)) by done. cbn [mbind Result_bind].
  rewrite checked_sub_ok by (apply N.Div0.div_le_upper_bound; nia).
  cbn [mbind Result_bind].
  destruct (token (pool_at s pid) =? 0); rewrite !Hok; cbn [mbind Result_bind];
    rewrite !Hok; cbn [mbind Result_bind]; eauto.
Qed.

Lemma checkAndProcessPayout_inv tx pid s log log1 :
  let p := pool_at s pid in
  _checkAndProcessPayout tx pid s log = Ok log1 ->
  maxMembers p <> 0 /\
  ledger_calls log1 =
    ledger_calls log ++ balance_calls tx p ++ eager_payout tx s p (currentMembers p).
Proof.
  intros p. unfold _checkAndProcessPayout. fold p. intros H. peel H.
  apply checked_div_inv in E as [-> Hmax]. apply checked_mul_inv in E0 as [-> Hmul].
  split; [done|]. unfold eager_payout, balance_calls, share_of.
  assert (Hlog : ledger_calls r1 =
            ledger_calls log ++ (if token p =? 0 then [] else [BalanceOf (token p) (this tx)])).
  { destruct (token p =? 0).
    - injection E1 as <-. by rewrite app_nil_r.
    - destruct (oracle tx (calls_made log)); [discriminate|].
      injection E1 as <-. by rewrite pool_ledger_calls_app. }
  destruct (_ <=? self_balance tx).
  - apply processPayout_inv in H as (_ & _ & ->). fold p. by rewrite Hlog, <- app_assoc.
  - injection H as <-. by rewrite Hlog, app_nil_r.
Qed.

Lemma checkAndProcessPayout_ok tx pid s log :
  let p := pool_at s pid in
  ledger_ok tx -> maxMembers p <> 0 -> currentMembers p <= maxMembers p ->
  monthlyAmount p <= MAX_UINT256 ->
  monthlyAmount p * platformFee s <= MAX_UINT256 -> platformFee s <= 10000 ->
  exists log1, _checkAndProcessPayout tx pid s log = Ok log1.
Proof.
  intros p Hok Hmax Hcap Hamt Hmul Hfee. unfold _checkAndProcessPayout. fold p.
  assert (Hexp : monthlyAmount p / maxMembers p * currentMembers p <= monthlyAmount p).
  { pose proof (N.Div0.mul_div_le (monthlyAmount p) (maxMembers p)). nia. }
  rewrite checked_div_ok by done. cbn [mbind Result_bind].
  rewrite checked_mul_ok by lia.
  cbn [mbind Result_bind].
  assert (Hq : exists log0,
    (if token p =? 0 then Ok log
     else match oracle tx (calls_made log) with
          | Returns _ => Ok (log ++ [Ledger (BalanceOf (token p) (this tx))])
          | Reverts => Fail Bubbled
          end) = Ok log0).
  { destruct (token p =? 0); [eauto|]. rewrite Hok. eauto. }
  destruct Hq as [log0 ->]. cbn [mbind Result_bind].
  destruct (_ <=? self_balance tx); [|eauto].
  apply processPayout_ok; [done| |done]. nia.
Qed.

(** ** What a successful call tells about the state it ran in *)

Lemma pool_zero s : well_formed s -> pool_at s 0 = zero_pool.
Proof. intros Hwf. apply pool_absent; [done | lia]. Qed.

Lemma guard_released_pools s s1 :
  entered s = false ->
  pools s1 = pools s -> ownerPools s1 = ownerPools s -> memberPools s1 = memberPools s ->
  nextPoolId s1 = nextPoolId s -> platformFee s1 = platformFee s ->
  feeRecipient s1 = feeRecipient s -> _owner s1 = _owner s ->
  nonReentrantAfter s1 = s.
Proof.
  destruct s, s1. simpl. intros -> -> -> -> -> -> -> ->. reflexivity.
Qed.

Lemma createPool_inv tx n a t mx s i s1 log :
  well_formed s ->
  createPool tx n a t mx s = Ok (i, s1, log) ->
  n <> EmptyString /\ 0 < a /\ 2 <= mx <= 20 /\
  nextPoolId s + 1 <= MAX_UINT256 /\ block_timestamp tx + THIRTY_DAYS <= MAX_UINT256 /\
  i = nextPoolId s /\ s1 = created tx n a t mx s /\
  log = [Emit (EvPoolCreated i (msg_sender tx) n a mx)].
Proof.
  intros Hwf H. unfold createPool in H. peel H.
  apply checked_add_inv in E as [-> Hnext]. apply checked_add_inv in E0 as [-> Hdue].
  injection H as <- <- <-.
  apply andb_prop in H2 as [Hlo Hhi].
  apply N.ltb_lt in H0, H1. apply N.leb_le in Hlo, Hhi.
  split; [by destruct n|]. do 5 (split; [done|]). split; [|done].
  unfold created, new_pool.
  change (pool_at (set_nextPoolId (nextPoolId s + 1) s) (nextPoolId s))
    with (pool_at s (nextPoolId s)).
  rewrite (pool_absent s (nextPoolId s)) by (done || lia). reflexivity.
Qed.

Lemma joinPool_inv tx v i s s1 log :
  let p := pool_at s i in
  joinPool tx v i s = Ok (s1, log) ->
  i < nextPoolId s /\ status p = Active /\ entered s = false /\
  currentMembers p < maxMembers p /\ isActive (member_at p (msg_sender tx)) = false /\
  msg_sender tx <> owner p /\ v = (if token p =? 0 then share_of p else 0) /\
  s1 = joined tx i s /\
  ledger_calls log =
    payment_calls tx p ++ balance_calls tx p ++ eager_payout tx s p (currentMembers p + 1).
Proof.
  intros p H. unfold joinPool, validPool, poolActive in H. peel H.
  apply nonReentrantBefore_inv in E as [Hent ->].
  rewrite !pool_at_set_entered in *. fold p in H2, H3, H4, E0, E1, E2, E3, H.
  apply N.ltb_lt in H0, H2. apply bool_decide_eq_true in H1.
  apply negb_true_iff in H3, H4. apply N.eqb_neq in H4.
  apply checked_div_inv in E0 as [-> Hmax].
  apply checked_add_inv in E2 as [-> Hcnt]. simpl in Hcnt.
  injection H as <- <-.
  apply checkAndProcessPayout_inv in E3 as [_ Hlog].
  do 6 (split; [done|]).
  assert (Hv : v = (if token p =? 0 then share_of p else 0) /\
               ledger_calls r1 = payment_calls tx p).
  { unfold payment_calls, share_of. destruct (token p =? 0).
    - peel E1. injection E1 as <-. by apply N.eqb_eq in H.
    - peel E1. destruct (oracle tx 0%nat); [discriminate|].
      injection E1 as <-. by apply N.eqb_eq in H. }
  destruct Hv as [Hv Hpay]. split; [done|]. split.
  - apply guard_released_pools; try done.
  - rewrite Hlog, pool_ledger_calls_app, Hpay. simpl. rewrite app_nil_r.
    match goal with |- context [pool_at ?S i] =>
      replace (pool_at S i) with (with_new_member tx p)
        by (symmetry; apply pool_at_store_eq) end.
    reflexivity.
Qed.

Lemma leavePool_inv tx i s s1 log :
  let p := pool_at s i in
  leavePool tx i s = Ok (s1, log) ->
  i < nextPoolId s /\ entered s = false /\
  isActive (member_at p (msg_sender tx)) = true /\ 1 <= currentMembers p /\
  s1 = removed i (msg_sender tx) s /\
  log = [Emit (EvMemberRemoved i (msg_sender tx) "Member left voluntarily");
         Emit (EvMemberLeft i (msg_sender tx))].
Proof.
  intros p H. unfold leavePool, validPool in H. peel H.
  apply nonReentrantBefore_inv in E as [Hent ->].
  rewrite pool_at_set_entered in H1. fold p in H1.
  destruct r0 as [s2 log2]. injection H as <- <-.
  apply removeMember_inv in E0 as (Hcm & -> & ->).
  apply N.ltb_lt in H0.
  do 4 (split; [done|]). split; [|done].
  by apply guard_released_pools.
Qed.

Lemma manualPayment_inv tx v i s s1 log :
  let p := pool_at s i in
  manualPayment tx v i s = Ok (s1, log) ->
  i < nextPoolId s /\ status p = Active /\ entered s = false /\
  isActive (member_at p (msg_sender tx)) = true /\ maxMembers p <> 0 /\
  v = (if token p =? 0 then share_of p else 0) /\
  s1 = store_pool i (with_payment tx p) s /\
  ledger_calls log =
    payment_calls tx p ++ balance_calls tx p ++ eager_payout tx s p (currentMembers p).
Proof.
  intros p H. unfold manualPayment, validPool, poolActive in H. peel H.
  apply nonReentrantBefore_inv in E as [Hent ->].
  rewrite !pool_at_set_entered in *. fold p in H2, E0, E1, E2, E3, H.
  apply N.ltb_lt in H0. apply bool_decide_eq_true in H1.
  apply checked_div_inv in E0 as [-> Hmax].
  apply checked_add_inv in E2 as [-> Hpaid].
  injection H as <- <-.
  apply checkAndProcessPayout_inv in E3 as [_ Hlog].
  do 5 (split; [done|]).
  assert (Hv : v = (if token p =? 0 then share_of p else 0) /\
               ledger_calls r1 = payment_calls tx p).
  { unfold payment_calls, share_of. destruct (token p =? 0).
    - peel E1. injection E1 as <-. by apply N.eqb_eq in H.
    - peel E1. destruct (oracle tx 0%nat); [discriminate|].
      injection E1 as <-. by apply N.eqb_eq in H. }
  destruct Hv as [Hv Hpay]. split; [done|]. split.
  - apply guard_released_pools; try done.
  - rewrite Hlog, pool_ledger_calls_app, Hpay. simpl. rewrite app_nil_r.
    match goal with |- context [pool_at ?S i] =>
      replace (pool_at S i) with (with_payment tx p)
        by (symmetry; apply pool_at_store_eq) end.
    reflexivity.
Qed.

Lemma status_request_exec tx o i st s :
  status_request o = Some (i, st) ->
  exec tx o s =
    (validPool s i;; onlyPoolOwner tx s i;;
     Ok (store_pool i (with_status st (pool_at s i)) s, [Emit (EvPoolStatusChanged i st)])).
Proof. destruct o; simpl; intros [= <- <-]; reflexivity. Qed.

Lemma status_request_inv tx o i st s s1 log :
  status_request o = Some (i, st) -> exec tx o s = Ok (s1, log) ->
  i < nextPoolId s /\ owner (pool_at s i) = msg_sender tx /\
  s1 = store_pool i (with_status st (pool_at s i)) s /\
  log = [Emit (EvPoolStatusChanged i st)].
Proof.
  intros Ho H. rewrite (status_request_exec tx o i st s Ho) in H.
  unfold validPool, onlyPoolOwner in H. peel H. injection H as <- <-.
  apply N.ltb_lt in H0. apply N.eqb_eq in H1. done.
Qed.

Lemma tryCollectPayment_inv tx pid m amt s log c s1 log1 :
  let p := pool_at s pid in
  _tryCollectPayment tx pid m amt s log = Ok (c, s1, log1) ->
  (c = false /\ s1 = s /\ ledger_calls log1 = ledger_calls log) \/
  (c = true /\ token p <> 0 /\
   ledger_calls log1 = ledger_calls log ++ [TransferFrom (token p) m (this tx) amt] /\
   exists r, isActive r = isActive (member_at p m) /\
     s1 = store_pool pid (store_member m r p) s).
Proof.
  intros p. unfold _tryCollectPayment, collectFromMember. fold p.
  destruct (token p =? 0) eqn:Ht.
  - intros [= <- <- <-]. by left.
  - apply N.eqb_neq in Ht. destruct (oracle tx (calls_made log)).
    + intros [= <- <- <-]. left. rewrite pool_ledger_calls_app. simpl.
      by rewrite app_nil_r.
    + intros H. peel H. injection H as <- <- <-. right.
      split; [done|]. split; [done|]. split.
      * rewrite !pool_ledger_calls_app. simpl. by rewrite app_nil_r.
      * eexists. split; [|reflexivity]. reflexivity.
Qed.

(** The loop of [collectPayments] rewrites records of members without
    touching their membership, and removes active members. *)
Lemma collect_loop_preserves (P : State -> Prop) tx pid share :
  (forall s m r, P s -> isActive r = isActive (member_at (pool_at s pid) m) ->
     P (store_pool pid (store_member m r (pool_at s pid)) s)) ->
  (forall s m, P s -> isActive (member_at (pool_at s pid) m) = true ->
     1 <= currentMembers (pool_at s pid) -> P (removed pid m s)) ->
  forall gas i sp tc s log tc' s' log',
    P s -> collect_loop gas tx pid share i sp tc s log = Ok (tc', s', log') -> P s'.
Proof.
  intros Hupd Hrem. induction gas as [|gas IH]; intros i sp tc s log tc' s' log' HP H.
  - simpl in H. destruct (negb _); [|discriminate]. by injection H as <- <- <-.
  - cbn [collect_loop] in H. destruct (negb (i <? _)); [by injection H as <- <- <-|].
    destruct (memberList _ !! _) as [m|]; [|discriminate].
    destruct (isActive (member_at (pool_at s pid) m)) eqn:Hact; cbn [negb] in H.
    2: { peel H. by apply IH in H. }
    peel H. destruct r as [[c s1] log1].
    apply tryCollectPayment_inv in E as [(-> & -> & _) | (-> & _ & _ & r & Hr & ->)].
    + peel H. destruct r0 as [[s3 log3] i0]. peel H.
      apply IH in H; [done|].
      destruct (MAX_FAILED_PAYMENTS <=? r).
      * apply EscrowFacts.bind_ok in E0 as ([s4 log4] & Hrm & E0).
        apply EscrowFacts.bind_ok in E0 as (i1 & Hsub & E0).
        injection E0 as <- <- <-.
        apply removeMember_inv in Hrm as (Hcm & -> & _).
        apply Hrem.
        -- apply Hupd; [done|]. reflexivity.
        -- by rewrite pool_at_store_eq, member_at_store_eq.
        -- done.
      * injection E0 as <- <- <-. apply Hupd; [done|]. reflexivity.
    + peel H. apply IH in H; [done|]. by apply Hupd.
Qed.

Lemma collectPayments_inv gas tx i s s1 log :
  let p := pool_at s i in
  let due := block_timestamp tx + THIRTY_DAYS in
  collectPayments gas tx i s = Ok (s1, log) ->
  i < nextPoolId s /\ status p = Active /\ entered s = false /\
  nextPaymentDue p <= block_timestamp tx /\ maxMembers p <> 0 /\
  due <= MAX_UINT256 /\
  exists tc s2 log2,
    collect_loop gas tx i (share_of p) 0 0 0 (set_entered true s) [] = Ok (tc, s2, log2) /\
    s1 = nonReentrantAfter (store_pool i (with_nextPaymentDue due (pool_at s2 i)) s2) /\
    ledger_calls log =
      ledger_calls log2 ++
      (if 0 <? tc then payout_calls s2 (pool_at s2 i) tc else []).
Proof.
  intros p due H. unfold collectPayments, validPool, poolActive in H. peel H.
  apply nonReentrantBefore_inv in E as [Hent ->].
  rewrite !pool_at_set_entered in *. fold p in H2, E0, E1.
  apply N.ltb_lt in H0. apply bool_decide_eq_true in H1. apply N.leb_le in H2.
  apply checked_div_inv in E0 as [-> Hmax].
  destruct r1 as [[tc s2] log2]. peel H.
  apply checked_add_inv in E as [-> Hdue]. injection H as <- <-.
  do 6 (split; [done|]). exists tc, s2, log2. split; [done|]. split; [done|].
  destruct (0 <? tc).
  - apply processPayout_inv in E0 as (_ & _ & ->). f_equal.
    rewrite pool_at_store_eq. reflexivity.
  - injection E0 as <-. by rewrite app_nil_r.
Qed.

(** ** The invariant holds of every state of a deployed contract *)

Lemma pool_well_formed_created tx n a t mx s :
  well_formed s -> n <> EmptyString -> 0 < a -> 2 <= mx <= 20 ->
  well_formed (created tx n a t mx s).
Proof.
  intros Hwf Hn Ha Hmx.
  assert (Hnone : pools s !! nextPoolId s = None).
  { destruct (pools s !! nextPoolId s) eqn:E; [|done].
    assert (H : is_Some (pools s !! nextPoolId s)) by eauto.
    apply (wf_domain s Hwf) in H. lia. }
  assert (Hzero : pool_at s (nextPoolId s) = zero_pool).
  { unfold pool_at. by rewrite Hnone. }
  destruct Hwf as [H1 H2 H3 H4 H5 H6 H7 H8].
  assert (Hpool : forall j, pool_at (created tx n a t mx s) j =
            if decide (nextPoolId s = j) then new_pool tx n a t mx (nextPoolId s)
            else pool_at s j).
  { intros j. unfold created, pool_at. simpl. destruct (decide (nextPoolId s = j)) as [<- | Hne].
    - by rewrite lookup_insert_eq.
    - by rewrite lookup_insert_ne. }
  assert (Hown : forall b, getOwnerPools (created tx n a t mx s) b =
            if decide (msg_sender tx = b) then getOwnerPools s (msg_sender tx) ++ [nextPoolId s]
            else getOwnerPools s b).
  { intros b. unfold getOwnerPools, created. simpl. apply getList_push. }
  split.
  - simpl. lia.
  - intros j. unfold created, store_pool. simpl. rewrite lookup_insert_is_Some, H2.
    split; [intros [<- | [_ ?]]; lia|].
    intros Hj. destruct (decide (nextPoolId s = j)); [by left | right; split; [done | lia]].
  - intros j. rewrite Hpool. destruct (decide (nextPoolId s = j)); [|apply H3].
    split; simpl.
    + constructor.
    + intros m. unfold member_at. simpl. rewrite lookup_empty. simpl.
      split; [by intros ?%elem_of_nil | done].
    + done.
    + lia.
  - intros j p. unfold created, store_pool. simpl.
    destruct (decide (nextPoolId s = j)) as [<- | Hne].
    + rewrite lookup_insert_eq. intros [= <-]. simpl. done.
    + rewrite lookup_insert_ne by done. apply H4.
  - intros m j. change (getMemberPools (created tx n a t mx s) m) with (getMemberPools s m).
    rewrite H5, Hpool. destruct (decide (nextPoolId s = j)) as [<- | Hne]; [|done].
    rewrite Hzero. unfold member_at. simpl. by rewrite !lookup_empty.
  - intros m. apply H6.
  - intros b j. rewrite Hown. unfold created, store_pool. simpl.
    assert (Hnew : nextPoolId s ∉ getOwnerPools s (msg_sender tx)).
    { rewrite H7. intros (p & Hp & _). congruence. }
    destruct (decide (nextPoolId s = j)) as [<- | Hne].
    + rewrite lookup_insert_eq. destruct (decide (msg_sender tx = b)) as [<- | Hb].
      * rewrite elem_of_app, list_elem_of_singleton. split; [eauto|by right].
      * rewrite H7, Hnone. split; [by intros (p & ? & _)|].
        intros (p & [= <-] & Hp). simpl in Hp. done.
    + rewrite lookup_insert_ne by done. rewrite <- H7.
      destruct (decide (msg_sender tx = b)) as [<- | Hb]; [|done].
      rewrite elem_of_app, list_elem_of_singleton.
      split; [intros [? | ?]; [done | congruence] | by left].
  - intros b. rewrite Hown. destruct (decide (msg_sender tx = b)) as [<- | Hb]; [|apply H8].
    apply NoDup_app. split; [apply H8|]. split; [|apply NoDup_singleton].
    intros x Hx ->%list_elem_of_singleton. revert Hx. rewrite H7.
    intros (p & Hp & _). congruence.
Qed.

Lemma same_roster_status st p : same_roster p (with_status st p).
Proof. done. Qed.

Lemma same_roster_due t p : same_roster p (with_nextPaymentDue t p).
Proof. done. Qed.

Lemma onlyOwner_inv tx s : onlyOwner tx s = Ok tt -> _owner s = msg_sender tx.
Proof. unfold onlyOwner. destruct (_owner s =? msg_sender tx) eqn:E; [|discriminate].
  intros _. by apply N.eqb_eq in E. Qed.

(** The loop keeps the invariant, the counter and everything outside the
    pool it runs on. *)
Lemma collect_loop_well_formed gas tx pid share i sp tc s log tc' s' log' :
  well_formed s -> 1 <= pid < nextPoolId s ->
  collect_loop gas tx pid share i sp tc s log = Ok (tc', s', log') ->
  well_formed s' /\ nextPoolId s' = nextPoolId s.
Proof.
  intros Hwf Hi H.
  apply (collect_loop_preserves
           (fun s1 => well_formed s1 /\ nextPoolId s1 = nextPoolId s) tx pid share)
    in H; [done| | |done].
  - intros s1 m r [Hwf1 Hn] Hr. split; [|done].
    apply pool_well_formed_update; [done | by rewrite Hn |].
    by apply same_roster_member.
  - intros s1 m [Hwf1 Hn] Hact _. split; [|done].
    apply pool_well_formed_removed; [done | by rewrite Hn | done].
Qed.

Lemma pool_well_formed_exec tx o s s1 log :
  well_formed s -> msg_sender tx <> 0 -> exec tx o s = Ok (s1, log) -> well_formed s1.
Proof.
  intros Hwf Hsender H.
  pose proof (pool_zero s Hwf) as Hz.
  assert (Hst : forall i st, status_request o = Some (i, st) -> well_formed s1).
  { intros i st Ho. apply (status_request_inv tx o i st s s1 log Ho) in H
      as (Hi & Hown & -> & _).
    apply pool_well_formed_update; [done| |apply same_roster_status].
    destruct (decide (i = 0)) as [-> | Hne]; [|lia].
    rewrite Hz in Hown. simpl in Hown. congruence. }
  destruct o as [[n a t mx | v i | i | gas i] | v i | i | i | i | f | r | w |];
    try (by eapply Hst); simpl in H.
  - peel H. destruct r as [[i s2] log2]. injection H as <- <-.
    apply createPool_inv in E as (Hn & Ha & Hmx & _ & _ & _ & -> & _); [|done].
    by apply pool_well_formed_created.
  - apply joinPool_inv in H as (Hi & _ & _ & Hroom & Hact & _ & _ & -> & _).
    apply pool_well_formed_joined; try done.
    destruct (decide (i = 0)) as [-> | Hne]; [|lia].
    rewrite Hz in Hroom. simpl in Hroom. lia.
  - apply leavePool_inv in H as (Hi & _ & Hact & _ & -> & _).
    apply pool_well_formed_removed; try done.
    destruct (decide (i = 0)) as [-> | Hne]; [|lia].
    rewrite Hz in Hact. done.
  - apply collectPayments_inv in H as (Hi & _ & Hent & _ & Hmax & _ & tc & s2 & log2 & Hloop & -> & _).
    assert (Hi1 : 1 <= i < nextPoolId s).
    { destruct (decide (i = 0)) as [-> | Hne]; [|lia]. rewrite Hz in Hmax. done. }
    apply collect_loop_well_formed in Hloop as [Hwf2 Hn]; [| |done].
    2: { by apply (pool_well_formed_ext s). }
    apply (pool_well_formed_ext
             (store_pool i (with_nextPaymentDue (block_timestamp tx + THIRTY_DAYS)
                              (pool_at s2 i)) s2)); try reflexivity.
    apply pool_well_formed_update; [done | by rewrite Hn | apply same_roster_due].
  - apply manualPayment_inv in H as (Hi & _ & _ & Hact & _ & _ & -> & _).
    apply pool_well_formed_update; [done| |by apply same_roster_member].
    destruct (decide (i = 0)) as [-> | Hne]; [|lia].
    rewrite Hz in Hact. done.
  - unfold setPlatformFee in H. peel H. injection H as <- <-.
    by apply (pool_well_formed_ext s).
  - unfold setFeeRecipient in H. peel H. injection H as <- <-.
    by apply (pool_well_formed_ext s).
  - unfold transferOwnership in H. peel H. destruct (w =? 0); [discriminate|].
    injection H as <- <-. by apply (pool_well_formed_ext s).
  - unfold renounceOwnership in H. peel H. injection H as <- <-.
    by apply (pool_well_formed_ext s).
Qed.

Lemma pool_reachable_well_formed s : reachable s -> well_formed s.
Proof.
  induction 1 as [d r Hd | tx o s s1 log Hr IH Hsender H].
  - apply pool_well_formed_constructor.
  - by apply (pool_well_formed_exec tx o s s1 log).
Qed.

(** ** What one transaction leaves in place *)

Lemma settings_removed pid m s i :
  settings (pool_at (removed pid m s) i) = settings (pool_at s i).
Proof.
  destruct (decide (pid = i)) as [<- | Hne].
  - by rewrite pool_at_removed_eq.
  - by rewrite pool_at_removed_ne.
Qed.

Lemma settings_joined tx pid s i :
  settings (pool_at (joined tx pid s) i) = settings (pool_at s i).
Proof.
  destruct (decide (pid = i)) as [<- | Hne].
  - by rewrite pool_at_joined_eq.
  - by rewrite pool_at_joined_ne.
Qed.

Lemma settings_store pid p s i :
  settings p = settings (pool_at s pid) ->
  settings (pool_at (store_pool pid p s) i) = settings (pool_at s i).
Proof.
  intros Hp. destruct (decide (pid = i)) as [<- | Hne].
  - by rewrite pool_at_store_eq.
  - by rewrite pool_at_store_ne.
Qed.

Lemma settings_inv p q :
  settings p = settings q ->
  terms p = terms q /\ status p = status q /\ nextPaymentDue p = nextPaymentDue q.
Proof.
  intros H.
  pose proof (f_equal (fun x => fst (fst x)) H) as Ht.
  pose proof (f_equal (fun x => snd (fst x)) H) as Hs.
  pose proof (f_equal snd H) as Hd. done.
Qed.

(** The loop writes members' records and the roster of its pool only. *)
Lemma collect_loop_frame gas tx pid share i0 sp tc s log tc' s' log' :
  collect_loop gas tx pid share i0 sp tc s log = Ok (tc', s', log') ->
  config s' = config s /\ ownerPools s' = ownerPools s /\
  forall i, settings (pool_at s' i) = settings (pool_at s i).
Proof.
  intros H.
  apply (collect_loop_preserves
           (fun s1 => config s1 = config s /\ ownerPools s1 = ownerPools s /\
                      forall i, settings (pool_at s1 i) = settings (pool_at s i))
           tx pid share) in H; [done| | |done].
  - intros s1 m r (Hc & Ho & Hs) _. split; [done|]. split; [done|].
    intros i. rewrite <- Hs. by apply settings_store.
  - intros s1 m (Hc & Ho & Hs) _ _. split; [done|]. split; [done|].
    intros i. rewrite <- Hs. apply settings_removed.
Qed.

Lemma createPool_frame tx n a t mx s i s1 log :
  createPool tx n a t mx s = Ok (i, s1, log) ->
  i = nextPoolId s /\ nextPoolId s1 = i + 1 /\
  (platformFee s1, feeRecipient s1, _owner s1, entered s1) =
    (platformFee s, feeRecipient s, _owner s, entered s) /\
  memberPools s1 = memberPools s /\
  (forall j, j <> i -> pool_at s1 j = pool_at s j) /\
  log = [Emit (EvPoolCreated i (msg_sender tx) n a mx)].
Proof.
  intros H. unfold createPool in H. peel H.
  apply checked_add_inv in E as [-> _]. injection H as <- <- <-.
  do 4 (split; [done|]). split; [|done].
  intros j Hj. unfold pool_at. simpl. by rewrite lookup_insert_ne.
Qed.

(** One successful call: the counter does not go back, the guard is as it
    was, and of an existing pool only the status (on its owner's request) and
    the due date (by a collection that was due) can differ. *)
Lemma exec_frame tx o s s1 log i :
  exec tx o s = Ok (s1, log) -> i < nextPoolId s ->
  i < nextPoolId s1 /\ entered s1 = entered s /\
  terms (pool_at s1 i) = terms (pool_at s i) /\
  (status (pool_at s1 i) = status (pool_at s i) \/
   (status_request o = Some (i, status (pool_at s1 i)) /\
    owner (pool_at s i) = msg_sender tx)) /\
  (nextPaymentDue (pool_at s1 i) = nextPaymentDue (pool_at s i) \/
   ((exists gas, o = Core (CollectPayments gas i)) /\
    nextPaymentDue (pool_at s i) <= block_timestamp tx /\
    nextPaymentDue (pool_at s1 i) = block_timestamp tx + THIRTY_DAYS)).
Proof.
  intros H Hi.
  assert (Hsame : settings (pool_at s1 i) = settings (pool_at s i) ->
            nextPoolId s <= nextPoolId s1 -> entered s1 = entered s ->
            i < nextPoolId s1 /\ entered s1 = entered s /\
            terms (pool_at s1 i) = terms (pool_at s i) /\
            (status (pool_at s1 i) = status (pool_at s i) \/
             (status_request o = Some (i, status (pool_at s1 i)) /\
              owner (pool_at s i) = msg_sender tx)) /\
            (nextPaymentDue (pool_at s1 i) = nextPaymentDue (pool_at s i) \/
             ((exists gas, o = Core (CollectPayments gas i)) /\
              nextPaymentDue (pool_at s i) <= block_timestamp tx /\
              nextPaymentDue (pool_at s1 i) = block_timestamp tx + THIRTY_DAYS))).
  { intros Hs Hn He. apply settings_inv in Hs as (Ht & Hst & Hd).
    split; [lia|]. split; [done|]. split; [done|]. split; by left. }
  assert (Hst : forall j st, status_request o = Some (j, st) ->
            i < nextPoolId s1 /\ entered s1 = entered s /\
            terms (pool_at s1 i) = terms (pool_at s i) /\
            (status (pool_at s1 i) = status (pool_at s i) \/
             (status_request o = Some (i, status (pool_at s1 i)) /\
              owner (pool_at s i) = msg_sender tx)) /\
            (nextPaymentDue (pool_at s1 i) = nextPaymentDue (pool_at s i) \/
             ((exists gas, o = Core (CollectPayments gas i)) /\
              nextPaymentDue (pool_at s i) <= block_timestamp tx /\
              nextPaymentDue (pool_at s1 i) = block_timestamp tx + THIRTY_DAYS))).
  { intros j st Ho. apply (status_request_inv tx o j st s s1 log Ho) in H
      as (Hj & Hown & -> & _).
    destruct (decide (j = i)) as [-> | Hne].
    - rewrite pool_at_store_eq. simpl. do 3 (split; [done|]).
      split; [by right | by left].
    - apply Hsame; [|done|done]. by rewrite pool_at_store_ne. }
  destruct o as [[n a t mx | v j | j | gas j] | v j | j | j | j | f | r | w |];
    try (by eapply Hst); simpl in H.
  - peel H. destruct r as [[j s2] log2]. injection H as <- <-.
    apply createPool_frame in E as (-> & Hn & Hc & _ & Hp & _).
    injection Hc as _ _ _ He.
    apply Hsame; [|lia|done]. rewrite Hp; [done | lia].
  - apply joinPool_inv in H as (_ & _ & _ & _ & _ & _ & _ & -> & _).
    apply Hsame; [apply settings_joined | done | done].
  - apply leavePool_inv in H as (_ & _ & _ & _ & -> & _).
    apply Hsame; [apply settings_removed | done | done].
  - apply collectPayments_inv in H
      as (_ & _ & Hent & Hdue & _ & _ & tc & s2 & log2 & Hloop & -> & _).
    apply collect_loop_frame in Hloop as (Hc & _ & Hs).
    unfold config in Hc. simpl in Hc. injection Hc as Hn _ _ _ _.
    destruct (decide (j = i)) as [-> | Hne].
    + change (pool_at (nonReentrantAfter ?x) i) with (pool_at x i).
      rewrite pool_at_store_eq. specialize (Hs i).
      rewrite pool_at_set_entered in Hs.
      apply settings_inv in Hs as (Ht & Hst' & Hd).
      simpl. split; [lia|]. split; [done|]. split; [done|].
      split; [by left|]. right. eauto.
    + apply Hsame; [|simpl; lia|done].
      change (pool_at (nonReentrantAfter ?x) i) with (pool_at x i).
      rewrite pool_at_store_ne by done. apply Hs.
  - apply manualPayment_inv in H as (_ & _ & _ & _ & _ & _ & -> & _).
    apply Hsame; [by apply settings_store | done | done].
  - unfold setPlatformFee in H. peel H. injection H as <- <-. by apply Hsame.
  - unfold setFeeRecipient in H. peel H. injection H as <- <-. by apply Hsame.
  - unfold transferOwnership in H. peel H. destruct (w =? 0); [discriminate|].
    injection H as <- <-. by apply Hsame.
  - unfold renounceOwnership in H. peel H. injection H as <- <-. by apply Hsame.
Qed.

(** One successful call: the guard is as it was; the fee, the fee recipient
    and the owner of the contract change only by the owner's own calls. *)
Lemma exec_config tx o s s1 log :
  exec tx o s = Ok (s1, log) ->
  entered s1 = entered s /\
  (platformFee s1 = platformFee s \/
   (_owner s = msg_sender tx /\ o = SetPlatformFee (platformFee s1) /\
    platformFee s1 <= 500)) /\
  (feeRecipient s1 = feeRecipient s \/
   (_owner s = msg_sender tx /\ o = SetFeeRecipient (feeRecipient s1) /\
    feeRecipient s1 <> 0)) /\
  (_owner s1 = _owner s \/
   (_owner s = msg_sender tx /\
    ((o = TransferOwnership (_owner s1) /\ _owner s1 <> 0) \/
     (o = RenounceOwnership /\ _owner s1 = 0)))).
Proof.
  intros H.
  assert (Hsame : (platformFee s1, feeRecipient s1, _owner s1, entered s1) =
                  (platformFee s, feeRecipient s, _owner s, entered s) ->
            entered s1 = entered s /\
            (platformFee s1 = platformFee s \/
             (_owner s = msg_sender tx /\ o = SetPlatformFee (platformFee s1) /\
              platformFee s1 <= 500)) /\
            (feeRecipient s1 = feeRecipient s \/
             (_owner s = msg_sender tx /\ o = SetFeeRecipient (feeRecipient s1) /\
              feeRecipient s1 <> 0)) /\
            (_owner s1 = _owner s \/
             (_owner s = msg_sender tx /\
              ((o = TransferOwnership (_owner s1) /\ _owner s1 <> 0) \/
               (o = RenounceOwnership /\ _owner s1 = 0))))).
  { intros [= -> -> -> ->]. split; [done|]. split; [by left|]. split; by left. }
  assert (Hst : forall j st, status_request o = Some (j, st) ->
            (platformFee s1, feeRecipient s1, _owner s1, entered s1) =
            (platformFee s, feeRecipient s, _owner s, entered s)).
  { intros j st Ho. by apply (status_request_inv tx o j st s s1 log Ho) in H
      as (_ & _ & -> & _). }
  destruct o as [[n a t mx | v j | j | gas j] | v j | j | j | j | f | r | w |];
    try (by eapply Hsame, Hst); simpl in H.
  - peel H. destruct r as [[j s2] log2]. injection H as <- <-.
    apply createPool_frame in E as (_ & _ & Hc & _). by apply Hsame.
  - apply joinPool_inv in H as (_ & _ & _ & _ & _ & _ & _ & -> & _). by apply Hsame.
  - apply leavePool_inv in H as (_ & _ & _ & _ & -> & _). by apply Hsame.
  - apply collectPayments_inv in H
      as (_ & _ & Hent & _ & _ & _ & tc & s2 & log2 & Hloop & -> & _).
    apply collect_loop_frame in Hloop as (Hc & _ & _).
    unfold config in Hc. simpl in Hc. injection Hc as _ Hf Hr Ho _.
    apply Hsame. simpl. by rewrite Hf, Hr, Ho, Hent.
  - apply manualPayment_inv in H as (_ & _ & _ & _ & _ & _ & -> & _). by apply Hsame.
  - unfold setPlatformFee in H. peel H. injection H as <- <-.
    destruct r. apply onlyOwner_inv in E. apply N.leb_le in H0.
    split; [done|]. split; [by right|]. split; by left.
  - unfold setFeeRecipient in H. peel H. injection H as <- <-.
    destruct r0. apply onlyOwner_inv in E. apply negb_true_iff, N.eqb_neq in H0.
    split; [done|]. split; [by left|]. split; [by right | by left].
  - unfold transferOwnership in H. peel H. destruct r.
    apply onlyOwner_inv in E. destruct (w =? 0) eqn:Hw; [discriminate|].
    apply N.eqb_neq in Hw. injection H as <- <-.
    split; [done|]. split; [by left|]. split; [by left|]. right. split; [done|]. by left.
  - unfold renounceOwnership in H. peel H. destruct r.
    apply onlyOwner_inv in E. injection H as <- <-.
    split; [done|]. split; [by left|]. split; [by left|]. right. split; [done|]. by right.
Qed.

Lemma pool_reachable_config s : reachable s -> entered s = false /\ platformFee s <= 500.
Proof.
  induction 1 as [d r Hd | tx o s s1 log Hr [IHe IHf] Hsender H].
  - simpl. split; [done | lia].
  - apply exec_config in H as (He & [Hf | (_ & _ & Hf)] & _); split; congruence || lia.
Qed.

Lemma commit_ok tx o s r : exec tx o s = Ok r -> commit tx o s = r.
Proof. unfold commit. by intros ->. Qed.

Lemma commit_fail tx o s f : exec tx o s = Fail f -> commit tx o s = (s, []).
Proof. unfold commit. by intros ->. Qed.

Lemma pool_reachable_commit tx o s :
  reachable s -> msg_sender tx <> 0 -> reachable (fst (commit tx o s)).
Proof.
  intros Hr Hs. unfold commit. destruct (exec tx o s) as [[s1 log]|] eqn:E; [|done].
  by apply (reachable_exec tx o s s1 log).
Qed.

Lemma pool_reachable_commits txs s :
  reachable s -> Forall (fun p => msg_sender (fst p) <> 0) txs ->
  reachable (fst (commits txs s)).
Proof.
  intros Hr Hall. revert s Hr.
  induction Hall as [|[tx o] txs Hs _ IH]; intros s Hr; simpl; [done|].
  pose proof (pool_reachable_commit tx o s Hr Hs) as Hr1.
  destruct (commit tx o s) as [s1 log1]. simpl in Hr1.
  specialize (IH s1 Hr1). destruct (commits txs s1) as [s2 log2]. done.
Qed.

Lemma pool_reachable_run txs s :
  reachable s -> Forall (fun p => msg_sender (fst p) <> 0) txs ->
  reachable (fst (run txs s)).
Proof.
  intros Hr Hall. revert s Hr.
  induction Hall as [|[tx c] txs Hs _ IH]; intros s Hr; simpl; [done|].
  pose proof (pool_reachable_commit tx (Core c) s Hr Hs) as Hr1.
  change (commit tx (Core c) s) with (transact tx c s) in Hr1.
  destruct (transact tx c s) as [s1 log1]. simpl in Hr1.
  specialize (IH s1 Hr1). destruct (run txs s1) as [s2 log2]. done.
Qed.

Lemma pool_deployed_reachable : reachable deployed.
Proof. by apply reachable_constructor. Qed.

Lemma two_members_reachable : reachable two_members.
Proof. apply pool_reachable_run; [apply pool_deployed_reachable | by repeat constructor]. Qed.

(** A property of the storage kept by every transaction is kept by every
    sequence of transactions. *)
Lemma commits_invariant (P : State -> Prop) :
  (forall tx o s, P s -> P (fst (commit tx o s))) ->
  forall txs s, P s -> P (fst (commits txs s)).
Proof.
  intros Hstep. induction txs as [|[tx o] txs IH]; intros s HP; simpl; [done|].
  pose proof (Hstep tx o s HP) as H1.
  destruct (commit tx o s) as [s1 log1]. simpl in H1.
  specialize (IH s1 H1). destruct (commits txs s1) as [s2 log2]. done.
Qed.

(** ** Properties of the pools *)

(** X11: on a deployed contract the bookkeeping of every pool agrees: the
    member list holds each active member once and nobody else, the member
    counter is the length of the list and does not exceed the capacity; for
    a created pool [getPoolMembers] returns this list, and the pool carries
    its id, a positive monthly amount and a capacity from 2 to 20. *)
Theorem pool_roster_is_consistent s i :
  reachable s ->
  NoDup (memberList (pool_at s i)) /\
  (forall m, m ∈ memberList (pool_at s i) <->
     isActive (member_at (pool_at s i) m) = true) /\
  currentMembers (pool_at s i) = N.of_nat (length (memberList (pool_at s i))) /\
  currentMembers (pool_at s i) <= maxMembers (pool_at s i) /\
  (1 <= i < nextPoolId s ->
     getPoolMembers s i = Ok (memberList (pool_at s i)) /\
     id (pool_at s i) = i /\ 0 < monthlyAmount (pool_at s i) /\
     2 <= maxMembers (pool_at s i) <= 20).
Proof.
  intros Hr. pose proof (pool_reachable_well_formed s Hr) as Hwf.
  destruct (wf_pools s Hwf i) as [A B C D].
  do 4 (split; [done|]). intros Hi.
  destruct (wf_created s Hwf i _ (pool_present s i Hwf Hi)) as (Hid & Ha & Hm & _).
  split; [|done]. unfold getPoolMembers, validPool.
  destruct Hi as [_ Hi]. apply N.ltb_lt in Hi. by rewrite Hi.
Qed.

(** The pool of 400 a month with members 5 and 6. *)
Lemma pool_roster_is_consistent_witness :
  NoDup (memberList (pool_at two_members 1)) /\
  (forall m, m ∈ memberList (pool_at two_members 1) <->
     isActive (member_at (pool_at two_members 1) m) = true) /\
  currentMembers (pool_at two_members 1) =
    N.of_nat (length (memberList (pool_at two_members 1))) /\
  currentMembers (pool_at two_members 1) <= maxMembers (pool_at two_members 1) /\
  (1 <= 1 < nextPoolId two_members ->
     getPoolMembers two_members 1 = Ok (memberList (pool_at two_members 1)) /\
     id (pool_at two_members 1) = 1 /\ 0 < monthlyAmount (pool_at two_members 1) /\
     2 <= maxMembers (pool_at two_members 1) <= 20).
Proof. apply (pool_roster_is_consistent two_members 1), two_members_reachable. Defined.

(** X12: on a deployed contract [getMemberPools(a)] lists exactly the pools
    that list [a] as a member and [getOwnerPools(a)] exactly the created
    pools whose owner is [a], each id once. *)
Theorem pool_indexes_are_exact s a i :
  reachable s ->
  (i ∈ getMemberPools s a <-> a ∈ memberList (pool_at s i)) /\
  (i ∈ getOwnerPools s a <-> 1 <= i < nextPoolId s /\ owner (pool_at s i) = a) /\
  NoDup (getMemberPools s a) /\ NoDup (getOwnerPools s a).
Proof.
  intros Hr. pose proof (pool_reachable_well_formed s Hr) as Hwf.
  split; [|split; [|split]].
  - rewrite (wf_memberPools s Hwf). symmetry. apply (wf_pools s Hwf i).
  - rewrite (wf_ownerPools s Hwf). split.
    + intros (p & Hp & <-). unfold pool_at. rewrite Hp. split; [|done].
      apply (wf_domain s Hwf). eauto.
    + intros [Hi <-]. exists (pool_at s i). split; [|done]. by apply pool_present.
  - apply (wf_memberPools_once s Hwf).
  - apply (wf_ownerPools_once s Hwf).
Qed.

Lemma pool_indexes_are_exact_witness :
  (1 ∈ getMemberPools two_members 5 <-> 5 ∈ memberList (pool_at two_members 1)) /\
  (1 ∈ getOwnerPools two_members 5 <->
     1 <= 1 < nextPoolId two_members /\ owner (pool_at two_members 1) = 5) /\
  NoDup (getMemberPools two_members 5) /\ NoDup (getOwnerPools two_members 5).
Proof. apply (pool_indexes_are_exact two_members 5 1), two_members_reachable. Defined.

(** X13: no sequence of transactions changes the id, owner, service name,
    monthly amount, token, capacity or creation time of an existing pool. *)
Theorem pool_terms_never_change txs s i :
  i < nextPoolId s ->
  terms (pool_at (fst (commits txs s)) i) = terms (pool_at s i).
Proof.
  intros Hi.
  apply (commits_invariant (fun s1 => i < nextPoolId s1 /\
                              terms (pool_at s1 i) = terms (pool_at s i))); [|done].
  intros tx o s1 [Hi1 Ht]. unfold commit.
  destruct (exec tx o s1) as [[s2 log]|] eqn:E; [|done]. simpl.
  apply (exec_frame tx o s1 s2 log i) in E as (Hi2 & _ & Ht2 & _); [|done].
  split; [done | congruence].
Qed.

(** The owner's attempt to cancel and a stranger's attempts to take the pool
    over leave the terms of pool 1 as they were. *)
Lemma pool_terms_never_change_witness :
  terms (pool_at (fst (commits [(at_time 1 20 none_fails, CancelPool 1);
                                (at_time 9 21 none_fails, ManualPayment 0 1);
                                (at_time 9 22 none_fails, Core (LeavePool 1));
                                (at_time 5 23 none_fails, Core (LeavePool 1))]
                         two_members)) 1) =
  terms (pool_at two_members 1).
Proof. apply pool_terms_never_change. vm_compute. reflexivity. Defined.

(** X14: a call in which no further call is nested (a top-level call whose
    external callees do not call back into the contract, or a call of one of
    the functions without [nonReentrant], which make no external call, also
    when it is itself nested in another call) changes the status of an
    existing pool, in every state of the storage, only when it is
    [pausePool], [resumePool] or [cancelPool] for this pool sent by the
    pool's owner. Such a call of the owner succeeds from every status (a
    cancelled pool is resumed like a paused one) and leaves the terms, the
    due date and the members as they were. While the status is not Active,
    [joinPool], [manualPayment] and [collectPayments] fail with
    "Pool not active". Nothing is said here of the whole of a transaction in
    which calls are nested: a pool owner that is paid by [_processPayout]
    inside a member's [joinPool] can call [pausePool] while being paid. *)
Theorem pool_status_is_set_by_its_owner tx o s i :
  i < nextPoolId s ->
  (status (pool_at (fst (commit tx o s)) i) = status (pool_at s i) \/
   (status_request o = Some (i, status (pool_at (fst (commit tx o s)) i)) /\
    owner (pool_at s i) = msg_sender tx)) /\
  (forall st, status_request o = Some (i, st) -> owner (pool_at s i) = msg_sender tx ->
     status (pool_at (fst (commit tx o s)) i) = st /\
     nextPaymentDue (pool_at (fst (commit tx o s)) i) = nextPaymentDue (pool_at s i) /\
     same_roster (pool_at s i) (pool_at (fst (commit tx o s)) i)) /\
  (status (pool_at s i) <> Active ->
     forall v gas,
       joinPool tx v i s = Fail (RequireFailed "Pool not active") /\
       manualPayment tx v i s = Fail (RequireFailed "Pool not active") /\
       collectPayments gas tx i s = Fail (RequireFailed "Pool not active")).
Proof.
  intros Hi. split; [|split].
  - unfold commit. destruct (exec tx o s) as [[s1 log]|] eqn:E; [|by left]. simpl.
    by apply (exec_frame tx o s s1 log i) in E as (_ & _ & _ & Hst & _).
  - intros st Ho Hown.
    pose proof (status_request_exec tx o i st s Ho) as E.
    unfold validPool, onlyPoolOwner in E. apply N.ltb_lt in Hi.
    rewrite Hi, Hown, N.eqb_refl in E. cbn [require mbind Result_bind] in E.
    rewrite (commit_ok _ _ _ _ E). simpl. rewrite pool_at_store_eq.
    split; [done|]. split; [done|]. apply same_roster_status.
  - intros Hst v gas.
    unfold joinPool, manualPayment, collectPayments, validPool, poolActive.
    apply N.ltb_lt in Hi. rewrite Hi. cbn [require mbind Result_bind].
    by rewrite bool_decide_eq_false_2.
Qed.

(** The owner of pool 1 cancels it and resumes it. *)
Lemma pool_status_is_set_by_its_owner_witness :
  status (pool_at (fst (commits [(at_time 1 20 none_fails, CancelPool 1);
                                 (at_time 1 21 none_fails, ResumePool 1)]
                          two_members)) 1) = Active /\
  (forall st, status_request (CancelPool 1) = Some (1, st) ->
     owner (pool_at two_members 1) = msg_sender (at_time 1 20 none_fails) ->
     status (pool_at (fst (commit (at_time 1 20 none_fails) (CancelPool 1) two_members)) 1)
       = st /\
     nextPaymentDue
       (pool_at (fst (commit (at_time 1 20 none_fails) (CancelPool 1) two_members)) 1) =
       nextPaymentDue (pool_at two_members 1) /\
     same_roster (pool_at two_members 1)
       (pool_at (fst (commit (at_time 1 20 none_fails) (CancelPool 1) two_members)) 1)).
Proof.
  split; [vm_compute; reflexivity|].
  apply (pool_status_is_set_by_its_owner (at_time 1 20 none_fails) (CancelPool 1)
           two_members 1).
  vm_compute. reflexivity.
Defined.



Lemma taken_app l1 l2 : taken (l1 ++ l2) = taken l1 + taken l2.
Proof. unfold taken. induction l1 as [|c l1 IH]; simpl; [done | rewrite IH; lia]. Qed.

Lemma paid_app l1 l2 : paid (l1 ++ l2) = paid l1 + paid l2.
Proof. unfold paid. induction l1 as [|c l1 IH]; simpl; [done | rewrite IH; lia]. Qed.

Lemma paid_payout_calls s p a :
  platformFee s <= 10000 ->
  paid (payout_calls s p a) = a /\ taken (payout_calls s p a) = 0.
Proof.
  intros Hf. pose proof (EscrowFacts.fee_le_amount a (platformFee s) Hf) as Hle.
  unfold payout_calls, credit, paid, taken.
  destruct (token p =? 0); simpl; split; lia.
Qed.

(** X16: on a deployed contract the platform fee is at most 500 basis
    points, and [setPlatformFee] succeeds exactly when the owner of the
    contract sends it with a rate of at most 500. Whenever [_processPayout]
    succeeds, with no call nested in its two transfers, on a storage that
    holds this rate (the storage in the middle of
    [joinPool], [manualPayment] and [collectPayments], none of which writes
    the rate), the custody calls it adds are the credit of the amount less
    the fee to the pool's owner and the credit of the fee, the amount times
    the rate divided by 10000 and rounded down, to the fee recipient: they
    pay the whole amount, take nothing, and the fee is at most a twentieth
    of the amount. With every external call going through and reporting
    success and the amount times the rate within 2^256 - 1,
    [_processPayout] does succeed. *)
Theorem pool_fee_is_capped s :
  reachable s ->
  platformFee s <= 500 /\
  (forall tx f, (exists r, setPlatformFee tx f s = Ok r) <->
     _owner s = msg_sender tx /\ f <= 500) /\
  (forall tx i a s' log log1,
     platformFee s' = platformFee s ->
     _processPayout tx i a s' log = Ok log1 ->
     ledger_calls log1 =
       ledger_calls log ++
       [credit (token (pool_at s' i)) (owner (pool_at s' i))
          (a - a * platformFee s / 10000);
        credit (token (pool_at s' i)) (feeRecipient s') (a * platformFee s / 10000)] /\
     paid (ledger_calls log1) = paid (ledger_calls log) + a /\
     taken (ledger_calls log1) = taken (ledger_calls log) /\
     20 * (a * platformFee s / 10000) <= a) /\
  (forall tx i a s' log,
     platformFee s' = platformFee s -> ledger_ok tx ->
     a * platformFee s <= MAX_UINT256 ->
     exists log1, _processPayout tx i a s' log = Ok log1).
Proof.
  intros Hr. destruct (pool_reachable_config s Hr) as [_ Hfee].
  split; [done|]. split; [|split].
  - intros tx f. unfold setPlatformFee, onlyOwner. split.
    + intros [r H]. destruct (_owner s =? msg_sender tx) eqn:Ho; [|discriminate].
      cbn [mbind Result_bind] in H. peel H.
      apply N.eqb_eq in Ho. apply N.leb_le in H0. done.
    + intros [Ho Hf]. apply N.eqb_eq in Ho. apply N.leb_le in Hf.
      rewrite Ho, Hf. simpl. eauto.
  - intros tx i a s' log log1 Hsame H.
    apply processPayout_inv in H as (_ & _ & Hlog).
    destruct (paid_payout_calls s' (pool_at s' i) a) as [Hp Ht]; [lia|].
    rewrite Hlog, paid_app, taken_app, Hp, Ht.
    unfold payout_calls. rewrite Hsame.
    split; [done|]. split; [done|]. split; [lia|].
    assert (H1 : a * platformFee s / 10000 <= a * 500 / 10000).
    { apply N.Div0.div_le_mono. nia. }
    pose proof (N.Div0.mul_div_le (a * 500) 10000). lia.
  - intros tx i a s' log Hsame Hok Hmul.
    apply processPayout_ok; [done | by rewrite Hsame | lia].
Qed.

(** At the initial rate of 200 a payout of 100 from pool 1 is 98 for the
    pool's owner and 2 for the fee recipient. *)
Lemma pool_fee_is_capped_witness :
  _processPayout (at_time 50 20 none_fails) 1 100 two_members [] =
    Ok [Ledger (Transfer 7 1 98); Ledger (Transfer 7 200 2);
        Emit (EvPayoutCompleted 1 98 2)] /\
  platformFee two_members <= 500 /\
  (forall tx f, (exists r, setPlatformFee tx f two_members = Ok r) <->
     _owner two_members = msg_sender tx /\ f <= 500).
Proof.
  split; [vm_compute; reflexivity|].
  pose proof (pool_fee_is_capped two_members two_members_reachable) as (H1 & H2 & _).
  split; [exact H1 | exact H2].
Defined.

(** X17: a call in which no further call is nested (a top-level call whose
    external callees do not call back into the contract, or a call of one of
    the functions without [nonReentrant], which make no external call, also
    when it is itself nested in another call) and which is not sent by the
    owner of the contract leaves the platform fee, the fee recipient and the
    owner of the contract as they are, in every state of the storage.
    Nothing is said here of the whole of a transaction in which calls are
    nested: an owner of the contract that is paid as fee recipient or as
    pool owner inside a member's call can call [setPlatformFee] while being
    paid. *)
Theorem pool_administration_is_the_owners tx o s :
  _owner s <> msg_sender tx ->
  platformFee (fst (commit tx o s)) = platformFee s /\
  feeRecipient (fst (commit tx o s)) = feeRecipient s /\
  _owner (fst (commit tx o s)) = _owner s.
Proof.
  intros Hno. unfold commit.
  destruct (exec tx o s) as [[s1 log]|] eqn:E; [|done]. simpl.
  apply exec_config in E as (_ & [Hf | [? _]] & [Hr | [? _]] & [Ho | [? _]]); done.
Qed.

(** The owner of pool 1, who does not own the contract, asks for a fee of
    zero. *)
Lemma pool_administration_is_the_owners_witness :
  platformFee (fst (commit (at_time 1 20 none_fails) (SetPlatformFee 0) two_members)) =
    platformFee two_members /\
  feeRecipient (fst (commit (at_time 1 20 none_fails) (SetPlatformFee 0) two_members)) =
    feeRecipient two_members /\
  _owner (fst (commit (at_time 1 20 none_fails) (SetPlatformFee 0) two_members)) =
    _owner two_members.
Proof.
  apply (pool_administration_is_the_owners (at_time 1 20 none_fails) (SetPlatformFee 0)
           two_members).
  vm_compute. discriminate.
Defined.

(** X18: on a deployed contract the id 0, which passes the existence check,
    names no pool: its details are all zero, it has no members, and every
    call aimed at it fails whoever sends it. *)
Theorem pool_zero_is_inert tx s :
  reachable s -> msg_sender tx <> 0 ->
  getPoolDetails s 0 = Ok (0, 0, EmptyString, 0, 0, 0, 0, Active, 0) /\
  getPoolMembers s 0 = Ok [] /\
  (forall m, getMemberDetails s 0 m = Ok zero_member) /\
  (forall v gas,
     joinPool tx v 0 s = Fail (RequireFailed "Pool is full") /\
     leavePool tx 0 s = Fail (RequireFailed "Not a member of this pool") /\
     manualPayment tx v 0 s = Fail (RequireFailed "Not a member") /\
     collectPayments gas tx 0 s = Fail Panic /\
     pausePool tx 0 s = Fail (RequireFailed "Only pool owner can call this") /\
     resumePool tx 0 s = Fail (RequireFailed "Only pool owner can call this") /\
     cancelPool tx 0 s = Fail (RequireFailed "Only pool owner can call this")).
Proof.
  intros Hr Hsender. pose proof (pool_reachable_well_formed s Hr) as Hwf.
  destruct (pool_reachable_config s Hr) as [Hent _].
  pose proof (pool_zero s Hwf) as Hz. pose proof (wf_counter s Hwf) as Hc.
  assert (Hv : (0 <? nextPoolId s) = true) by (apply N.ltb_lt; lia).
  unfold getPoolDetails, getPoolMembers, getMemberDetails, joinPool, leavePool,
    manualPayment, collectPayments, pausePool, resumePool, cancelPool,
    validPool, poolActive, onlyPoolOwner, nonReentrantBefore.
  rewrite Hv, Hent. cbn [require mbind Result_bind].
  rewrite !pool_at_set_entered, Hz.
  assert (Hm : forall m, member_at zero_pool m = zero_member).
  { intros m. unfold member_at. simpl. by rewrite lookup_empty. }
  assert (Hdue : (0 <=? block_timestamp tx) = true) by (apply N.leb_le; lia).
  destruct (msg_sender tx) as [|q]; [done|]. simpl.
  rewrite Hdue. setoid_rewrite Hm. simpl. done.
Qed.

Lemma pool_zero_is_inert_witness :
  getPoolDetails two_members 0 = Ok (0, 0, EmptyString, 0, 0, 0, 0, Active, 0) /\
  getPoolMembers two_members 0 = Ok [] /\
  (forall m, getMemberDetails two_members 0 m = Ok zero_member) /\
  (forall v gas,
     joinPool (at_time 5 20 none_fails) v 0 two_members =
       Fail (RequireFailed "Pool is full") /\
     leavePool (at_time 5 20 none_fails) 0 two_members =
       Fail (RequireFailed "Not a member of this pool") /\
     manualPayment (at_time 5 20 none_fails) v 0 two_members =
       Fail (RequireFailed "Not a member") /\
     collectPayments gas (at_time 5 20 none_fails) 0 two_members = Fail Panic /\
     pausePool (at_time 5 20 none_fails) 0 two_members =
       Fail (RequireFailed "Only pool owner can call this") /\
     resumePool (at_time 5 20 none_fails) 0 two_members =
       Fail (RequireFailed "Only pool owner can call this") /\
     cancelPool (at_time 5 20 none_fails) 0 two_members =
       Fail (RequireFailed "Only pool owner can call this")).
Proof.
  apply (pool_zero_is_inert (at_time 5 20 none_fails) two_members).
  - apply two_members_reachable.
  - vm_compute. discriminate.
Defined.

Lemma createPool_ok tx n a t mx s :
  well_formed s -> n <> EmptyString -> 0 < a -> 2 <= mx <= 20 ->
  nextPoolId s + 1 <= MAX_UINT256 -> block_timestamp tx + THIRTY_DAYS <= MAX_UINT256 ->
  createPool tx n a t mx s =
    Ok (nextPoolId s, created tx n a t mx s,
        [Emit (EvPoolCreated (nextPoolId s) (msg_sender tx) n a mx)]).
Proof.
  intros Hwf Hn Ha [Hlo Hhi] Hnext Hdue. unfold createPool.
  assert (H1 : (0 <? N.of_nat (String.length n)) = true).
  { apply N.ltb_lt. destruct n; [done | simpl; lia]. }
  apply N.ltb_lt in Ha. apply N.leb_le in Hlo, Hhi.
  rewrite H1, Ha, Hlo, Hhi. cbn [require andb mbind Result_bind].
  rewrite (checked_add_ok (nextPoolId s) 1) by done. cbn [mbind Result_bind].
  rewrite (checked_add_ok (block_timestamp tx) THIRTY_DAYS) by done.
  cbn [mbind Result_bind].
  change (pool_at (set_nextPoolId (nextPoolId s + 1) s) (nextPoolId s))
    with (pool_at s (nextPoolId s)).
  rewrite (pool_absent s (nextPoolId s)) by (done || lia). reflexivity.
Qed.

(** X19: on a deployed contract whose counter and clock are not at the end
    of their range, [createPool] succeeds exactly when the service name is
    not empty, the monthly amount is positive and the capacity is between 2
    and 20. It returns the counter as id and advances it by one; the new pool
    is Active, owned by the caller, without any member, first due 30 days
    after the call, and is appended to the caller's owner index; no other
    pool changes and no custody call is made. *)
Theorem createPool_opens_an_empty_pool tx n a t mx s :
  reachable s -> nextPoolId s + 1 <= MAX_UINT256 ->
  block_timestamp tx + THIRTY_DAYS <= MAX_UINT256 ->
  ((exists r, createPool tx n a t mx s = Ok r) <->
     n <> EmptyString /\ 0 < a /\ 2 <= mx <= 20) /\
  (forall i s1 log, createPool tx n a t mx s = Ok (i, s1, log) ->
     i = nextPoolId s /\ nextPoolId s1 = i + 1 /\
     pool_at s1 i = new_pool tx n a t mx i /\
     getPoolMembers s1 i = Ok [] /\
     (forall m, isActive (member_at (pool_at s1 i) m) = false) /\
     (forall j, j <> i -> pool_at s1 j = pool_at s j) /\
     getOwnerPools s1 (msg_sender tx) = getOwnerPools s (msg_sender tx) ++ [i] /\
     ledger_calls log = []).
Proof.
  intros Hr Hnext Hdue. pose proof (pool_reachable_well_formed s Hr) as Hwf.
  split.
  - split.
    + intros [[[i s1] log] H].
      by apply createPool_inv in H as (Hn & Ha & Hmx & _).
    + intros (Hn & Ha & Hmx). rewrite createPool_ok by done. eauto.
  - intros i s1 log H.
    pose proof (createPool_frame _ _ _ _ _ _ _ _ _ H) as (_ & Hn1 & _ & _ & Hothers & _).
    apply createPool_inv in H as (_ & _ & _ & _ & _ & -> & -> & ->); [|done].
    assert (Hnew : pool_at (created tx n a t mx s) (nextPoolId s) =
                   new_pool tx n a t mx (nextPoolId s)).
    { unfold created, pool_at. simpl. by rewrite lookup_insert_eq. }
    split; [done|]. split; [done|]. split; [done|]. split; [|split; [|split; [|split]]].
    + unfold getPoolMembers, validPool. rewrite Hn1, Hnew. simpl.
      assert (Hlt : (nextPoolId s <? nextPoolId s + 1) = true) by (apply N.ltb_lt; lia).
      by rewrite Hlt.
    + intros m. rewrite Hnew. unfold member_at. simpl. by rewrite lookup_empty.
    + done.
    + unfold getOwnerPools, created. simpl. rewrite getList_push.
      by rewrite decide_True.
    + done.
Qed.

(** Account 2 opens a second pool on the contract that holds pool 1. *)
Lemma createPool_opens_an_empty_pool_witness :
  createPool (at_time 2 30 none_fails) "tv" 90 0 3 two_members =
    Ok (2, created (at_time 2 30 none_fails) "tv" 90 0 3 two_members,
        [Emit (EvPoolCreated 2 2 "tv" 90 3)]) /\
  ((exists r, createPool (at_time 2 30 none_fails) "tv" 90 0 3 two_members = Ok r) <->
     "tv" <> EmptyString /\ 0 < 90 /\ 2 <= 3 <= 20).
Proof.
  split; [vm_compute; reflexivity|].
  apply (createPool_opens_an_empty_pool (at_time 2 30 none_fails) "tv" 90 0 3 two_members).
  - apply two_members_reachable.
  - vm_compute. discriminate.
  - vm_compute. discriminate.
Defined.

Lemma small_fits (n : N) : n <= 21 -> n <= MAX_UINT256.
Proof. intros H. apply (N.le_trans _ 21); [done|]. by vm_compute. Qed.

Lemma joinPool_ok tx v i s :
  let p := pool_at s i in
  well_formed s -> entered s = false -> platformFee s <= 500 -> ledger_ok tx ->
  monthlyAmount p * 500 <= MAX_UINT256 ->
  i < nextPoolId s -> status p = Active -> currentMembers p < maxMembers p ->
  isActive (member_at p (msg_sender tx)) = false -> msg_sender tx <> owner p ->
  v = (if token p =? 0 then share_of p else 0) ->
  exists r, joinPool tx v i s = Ok r.
Proof.
  intros p Hwf Hent Hfee Hok Hamt Hi Hst Hroom Hact Hown Hv.
  assert (Hi1 : 1 <= i < nextPoolId s).
  { destruct (decide (i = 0)) as [-> | Hne]; [|lia].
    unfold p in Hroom. rewrite (pool_zero s Hwf) in Hroom. simpl in Hroom. lia. }
  destruct (wf_created s Hwf i _ (pool_present s i Hwf Hi1)) as (_ & _ & Hmx & _).
  fold p in Hmx.
  unfold joinPool, validPool, poolActive, nonReentrantBefore.
  apply N.ltb_lt in Hi. rewrite Hi. cbn [require mbind Result_bind].
  rewrite bool_decide_eq_true_2 by done. cbn [mbind Result_bind].
  rewrite Hent. cbn [mbind Result_bind]. rewrite !pool_at_set_entered. fold p.
  pose proof Hroom as Hroom'. apply N.ltb_lt in Hroom'. rewrite Hroom', Hact.
  cbn [require negb mbind Result_bind].
  assert (Hno : (msg_sender tx =? owner p) = false) by by apply N.eqb_neq.
  rewrite Hno. cbn [require negb mbind Result_bind].
  rewrite checked_div_ok by lia. cbn [mbind Result_bind].
  assert (Hpay : exists l : list Effect,
    ((if token p =? 0
     then require (v =? monthlyAmount p / maxMembers p) "Incorrect ETH amount";; Ok []
     else require (v =? 0) "Do not send ETH for token payments";;
          match oracle tx 0%nat with
          | Reverts => Fail Bubbled
          | Returns _ =>
              Ok [Ledger (TransferFrom (token p) (msg_sender tx) (this tx)
                            (monthlyAmount p / maxMembers p))]
          end) : Result (list Effect)) = Ok l).
  { unfold share_of in Hv. destruct (token p =? 0); subst v; rewrite N.eqb_refl;
      cbn [require mbind Result_bind]; [eauto|]. rewrite Hok. eauto. }
  destruct Hpay as [l ->]. cbn [mbind Result_bind].
  rewrite checked_add_ok by (apply small_fits; simpl; lia).
  cbn [mbind Result_bind].
  match goal with |- context [_checkAndProcessPayout tx i ?S ?L] =>
    destruct (checkAndProcessPayout_ok tx i S L) as [l2 ->];
      try replace (pool_at S i) with (with_new_member tx p)
        by (symmetry; apply pool_at_store_eq)
  end; simpl; try done; try lia.
  - nia.
  - cbn [mbind Result_bind]. eauto.
Qed.

(** X20: on a deployed contract [joinPool], taken as a call in which no
    further call is nested, succeeds only if the pool exists,
    is Active and has a free place, the caller is neither a member nor the
    owner, and the value sent is the share (monthly amount divided by
    capacity, rounded down) for a native-coin pool and zero for a token
    pool. If all this holds, every external call of the transaction goes
    through and reports success, and the monthly amount times 500 does not
    exceed 2^256 - 1, then [joinPool] succeeds. Whenever it succeeds, the
    caller is the last of the member list with one share recorded as paid,
    the counter has grown by one, no other member's record has changed, and
    the custody calls are the debit of one share (token pool), the balance
    query (token pool) and, when the balance read covers one share per
    member including the new one, a payout of that whole amount. *)
Theorem joinPool_admits_paying_members tx v i s :
  reachable s ->
  ((exists r, joinPool tx v i s = Ok r) ->
     i < nextPoolId s /\ status (pool_at s i) = Active /\
     currentMembers (pool_at s i) < maxMembers (pool_at s i) /\
     isActive (member_at (pool_at s i) (msg_sender tx)) = false /\
     msg_sender tx <> owner (pool_at s i) /\
     v = (if token (pool_at s i) =? 0 then share_of (pool_at s i) else 0)) /\
  (ledger_ok tx -> monthlyAmount (pool_at s i) * 500 <= MAX_UINT256 ->
   i < nextPoolId s /\ status (pool_at s i) = Active /\
   currentMembers (pool_at s i) < maxMembers (pool_at s i) /\
   isActive (member_at (pool_at s i) (msg_sender tx)) = false /\
   msg_sender tx <> owner (pool_at s i) /\
   v = (if token (pool_at s i) =? 0 then share_of (pool_at s i) else 0) ->
     exists r, joinPool tx v i s = Ok r) /\
  (forall s1 log, joinPool tx v i s = Ok (s1, log) ->
     memberList (pool_at s1 i) = memberList (pool_at s i) ++ [msg_sender tx] /\
     currentMembers (pool_at s1 i) = currentMembers (pool_at s i) + 1 /\
     member_at (pool_at s1 i) (msg_sender tx) =
       {| isActive := true; joinedAt := block_timestamp tx;
          lastPayment := block_timestamp tx; failedPaymentCount := 0;
          totalPaid := share_of (pool_at s i) |} /\
     (forall m, m <> msg_sender tx ->
        member_at (pool_at s1 i) m = member_at (pool_at s i) m) /\
     getMemberPools s1 (msg_sender tx) = getMemberPools s (msg_sender tx) ++ [i] /\
     ledger_calls log =
       payment_calls tx (pool_at s i) ++ balance_calls tx (pool_at s i) ++
       eager_payout tx s (pool_at s i) (currentMembers (pool_at s i) + 1)).
Proof.
  intros Hr. pose proof (pool_reachable_well_formed s Hr) as Hwf.
  destruct (pool_reachable_config s Hr) as [Hent Hfee].
  split; [|split].
  - intros [[s1 log] H].
    by apply joinPool_inv in H as (? & ? & _ & ? & ? & ? & ? & _).
  - intros Hok Hamt (? & ? & ? & ? & ? & ?). by apply joinPool_ok.
  - intros s1 log H.
    apply joinPool_inv in H as (_ & _ & _ & _ & _ & _ & _ & -> & ->).
    rewrite pool_at_joined_eq. split; [done|]. split; [done|]. split; [|split; [|split]].
    + unfold with_new_member, member_at. simpl. by rewrite lookup_insert_eq.
    + intros m Hm. unfold with_new_member, member_at. simpl.
      by rewrite lookup_insert_ne.
    + unfold getMemberPools, joined. simpl. rewrite getList_push.
      by rewrite decide_True.
    + done.
Qed.

(** Account 8 joins pool 1 (two members, share 100) while the contract
    holds 1000 of the token: 100 comes in, 294 + 6 go out. *)
Lemma joinPool_admits_paying_members_witness :
  ledger_calls
    (snd (commit {| msg_sender := 8; block_timestamp := 20; this := 999;
                    self_balance := 1000; oracle := fun _ => Returns true |}
                 (Core (JoinPool 0 1)) two_members)) =
    [TransferFrom 7 8 999 100; BalanceOf 7 999; Transfer 7 1 294; Transfer 7 200 6] /\
  exists r, joinPool {| msg_sender := 8; block_timestamp := 20; this := 999;
                        self_balance := 1000; oracle := fun _ => Returns true |}
              0 1 two_members = Ok r.
Proof.
  split; [vm_compute; reflexivity|].
  destruct (joinPool_admits_paying_members
              {| msg_sender := 8; block_timestamp := 20; this := 999;
                 self_balance := 1000; oracle := fun _ => Returns true |} 0 1 two_members
              two_members_reachable) as (_ & Hgo & _).
  apply Hgo.
  - intros k. reflexivity.
  - vm_compute. discriminate.
  - split; [vm_compute; reflexivity|]. split; [vm_compute; reflexivity|].
    split; [vm_compute; reflexivity|]. split; [vm_compute; reflexivity|].
    split; [vm_compute; discriminate | vm_compute; reflexivity].
Defined.

(** X21: on a deployed contract [leavePool] succeeds exactly when the pool
    id is below the counter and the caller is an active member, whatever the
    status of the pool. It makes no custody call (nothing is paid back), the
    caller is no member afterwards and keeps the record of what it paid, the
    other members stay, the counter drops by one, the pool leaves the
    caller's index, and the terms, the status and the due date of the pool
    stay. *)
Theorem leavePool_pays_nothing_back tx i s :
  reachable s ->
  ((exists r, leavePool tx i s = Ok r) <->
     i < nextPoolId s /\ isActive (member_at (pool_at s i) (msg_sender tx)) = true) /\
  (forall s1 log, leavePool tx i s = Ok (s1, log) ->
     ledger_calls log = [] /\
     isActive (member_at (pool_at s1 i) (msg_sender tx)) = false /\
     totalPaid (member_at (pool_at s1 i) (msg_sender tx)) =
       totalPaid (member_at (pool_at s i) (msg_sender tx)) /\
     (forall m, m ∈ memberList (pool_at s1 i) <->
        m ∈ memberList (pool_at s i) /\ m <> msg_sender tx) /\
     (forall m, m <> msg_sender tx ->
        member_at (pool_at s1 i) m = member_at (pool_at s i) m) /\
     currentMembers (pool_at s1 i) + 1 = currentMembers (pool_at s i) /\
     (i ∉ getMemberPools s1 (msg_sender tx)) /\
     settings (pool_at s1 i) = settings (pool_at s i)).
Proof.
  intros Hr. pose proof (pool_reachable_well_formed s Hr) as Hwf.
  destruct (pool_reachable_config s Hr) as [Hent _].
  destruct (wf_pools s Hwf i) as [A B C D].
  split.
  - split.
    + intros [[s1 log] H]. by apply leavePool_inv in H as (? & _ & ? & _).
    + intros [Hi Hact].
      destruct (leavePool_spec tx i s Hi Hent Hact) as (s1 & log & H & _); [|eauto].
      apply B in Hact. rewrite C.
      destruct (memberList (pool_at s i)); [by apply elem_of_nil in Hact | simpl; lia].
  - intros s1 log H.
    apply leavePool_inv in H as (Hi & _ & Hact & Hcm & -> & ->).
    assert (Hi1 : 1 <= i < nextPoolId s).
    { destruct (decide (i = 0)) as [-> | Hne]; [|lia].
      rewrite (pool_zero s Hwf) in Hact. done. }
    pose proof (pool_well_formed_removed i (msg_sender tx) s Hwf Hi1 Hact) as Hwf1.
    assert (Hin : msg_sender tx ∈ memberList (pool_at s i)) by by apply B.
    destruct (swap_remove_spec _ _ Hin A) as (_ & _ & Hmem).
    split; [done|]. rewrite pool_at_removed_eq, isActive_without_member.
    rewrite decide_True by done. split; [done|]. split; [|split; [|split; [|split; [|split]]]].
    + unfold without_member, member_at. simpl. by rewrite lookup_insert_eq.
    + done.
    + intros m Hm. unfold without_member, member_at. simpl. by rewrite lookup_insert_ne.
    + simpl. lia.
    + rewrite (wf_memberPools _ Hwf1), pool_at_removed_eq, isActive_without_member.
      by rewrite decide_True.
    + done.
Qed.

(** Member 5 leaves pool 1 after the owner has cancelled it. *)
Lemma leavePool_pays_nothing_back_witness :
  status (pool_at (fst (commit (at_time 1 20 none_fails) (CancelPool 1) two_members)) 1) =
    Cancelled /\
  ((exists r, leavePool (at_time 5 21 none_fails) 1
                (fst (commit (at_time 1 20 none_fails) (CancelPool 1) two_members)) = Ok r) <->
     1 < nextPoolId (fst (commit (at_time 1 20 none_fails) (CancelPool 1) two_members)) /\
     isActive (member_at
                 (pool_at (fst (commit (at_time 1 20 none_fails) (CancelPool 1) two_members)) 1)
                 (msg_sender (at_time 5 21 none_fails))) = true).
Proof.
  split; [vm_compute; reflexivity|].
  apply (leavePool_pays_nothing_back (at_time 5 21 none_fails) 1).
  apply pool_reachable_commit; [apply two_members_reachable | vm_compute; discriminate].
Defined.

Lemma manualPayment_ok tx v i s :
  let p := pool_at s i in
  well_formed s -> entered s = false -> platformFee s <= 500 -> ledger_ok tx ->
  monthlyAmount p * 500 <= MAX_UINT256 ->
  totalPaid (member_at p (msg_sender tx)) + share_of p <= MAX_UINT256 ->
  i < nextPoolId s -> status p = Active ->
  isActive (member_at p (msg_sender tx)) = true ->
  v = (if token p =? 0 then share_of p else 0) ->
  exists r, manualPayment tx v i s = Ok r.
Proof.
  intros p Hwf Hent Hfee Hok Hamt Hpaid Hi Hst Hact Hv.
  assert (Hi1 : 1 <= i < nextPoolId s).
  { destruct (decide (i = 0)) as [-> | Hne]; [|lia].
    unfold p in Hact. rewrite (pool_zero s Hwf) in Hact. done. }
  destruct (wf_created s Hwf i _ (pool_present s i Hwf Hi1)) as (_ & _ & Hmx & _).
  destruct (wf_pools s Hwf i) as [_ _ _ Hcap].
  fold p in Hmx, Hcap.
  unfold manualPayment, validPool, poolActive, nonReentrantBefore.
  apply N.ltb_lt in Hi. rewrite Hi. cbn [require mbind Result_bind].
  rewrite bool_decide_eq_true_2 by done. cbn [mbind Result_bind].
  rewrite Hent. cbn [mbind Result_bind]. rewrite !pool_at_set_entered. fold p.
  rewrite Hact. cbn [require mbind Result_bind].
  rewrite checked_div_ok by lia. cbn [mbind Result_bind].
  assert (Hpay : exists l : list Effect,
    ((if token p =? 0
     then require (v =? monthlyAmount p / maxMembers p) "Incorrect ETH amount";; Ok []
     else require (v =? 0) "Do not send ETH for token payments";;
          match oracle tx 0%nat with
          | Reverts => Fail Bubbled
          | Returns _ =>
              Ok [Ledger (TransferFrom (token p) (msg_sender tx) (this tx)
                            (monthlyAmount p / maxMembers p))]
          end) : Result (list Effect)) = Ok l).
  { unfold share_of in Hv. destruct (token p =? 0); subst v; rewrite N.eqb_refl;
      cbn [require mbind Result_bind]; [eauto|]. rewrite Hok. eauto. }
  destruct Hpay as [l ->]. cbn [mbind Result_bind].
  rewrite checked_add_ok by done. cbn [mbind Result_bind].
  match goal with |- context [_checkAndProcessPayout tx i ?S ?L] =>
    destruct (checkAndProcessPayout_ok tx i S L) as [l2 ->];
      rewrite ?pool_at_store_eq
  end; simpl; try done; try lia.
  - nia.
  - cbn [mbind Result_bind]. eauto.
Qed.

(** X22: on a deployed contract [manualPayment], taken as a call in which
    no further call is nested, succeeds only if the pool
    exists and is Active, the caller is an active member and the value sent
    is the share for a native-coin pool and zero for a token pool; the due
    date plays no part. If all this holds, every external call of the
    transaction goes through and reports success, the monthly amount times
    500 does not exceed 2^256 - 1 and the caller's recorded total plus one
    share does not exceed 2^256 - 1, then [manualPayment] succeeds.
    Whenever it succeeds, it has added one share to what the member has
    paid, set the time of the last payment and cleared the failure count of
    this member only; the members, the terms, the status and the due date
    of the pool are as before. The custody calls are the debit of one share
    (token pool), the balance query (token pool) and, when the balance read
    covers one share per member, a payout of that whole amount. *)
Theorem manualPayment_settles_one_share tx v i s :
  reachable s ->
  ((exists r, manualPayment tx v i s = Ok r) ->
     i < nextPoolId s /\ status (pool_at s i) = Active /\
     isActive (member_at (pool_at s i) (msg_sender tx)) = true /\
     v = (if token (pool_at s i) =? 0 then share_of (pool_at s i) else 0)) /\
  (ledger_ok tx -> monthlyAmount (pool_at s i) * 500 <= MAX_UINT256 ->
   totalPaid (member_at (pool_at s i) (msg_sender tx)) + share_of (pool_at s i)
     <= MAX_UINT256 ->
   i < nextPoolId s /\ status (pool_at s i) = Active /\
   isActive (member_at (pool_at s i) (msg_sender tx)) = true /\
   v = (if token (pool_at s i) =? 0 then share_of (pool_at s i) else 0) ->
     exists r, manualPayment tx v i s = Ok r) /\
  (forall s1 log, manualPayment tx v i s = Ok (s1, log) ->
     member_at (pool_at s1 i) (msg_sender tx) =
       {| isActive := true;
          joinedAt := joinedAt (member_at (pool_at s i) (msg_sender tx));
          lastPayment := block_timestamp tx; failedPaymentCount := 0;
          totalPaid := totalPaid (member_at (pool_at s i) (msg_sender tx)) +
                       share_of (pool_at s i) |} /\
     (forall m, m <> msg_sender tx ->
        member_at (pool_at s1 i) m = member_at (pool_at s i) m) /\
     memberList (pool_at s1 i) = memberList (pool_at s i) /\
     currentMembers (pool_at s1 i) = currentMembers (pool_at s i) /\
     settings (pool_at s1 i) = settings (pool_at s i) /\
     ledger_calls log =
       payment_calls tx (pool_at s i) ++ balance_calls tx (pool_at s i) ++
       eager_payout tx s (pool_at s i) (currentMembers (pool_at s i))).
Proof.
  intros Hr. pose proof (pool_reachable_well_formed s Hr) as Hwf.
  destruct (pool_reachable_config s Hr) as [Hent Hfee].
  split; [|split].
  - intros [[s1 log] H].
    by apply manualPayment_inv in H as (? & ? & _ & ? & _ & ? & _).
  - intros Hok Hamt Hpaid (? & ? & ? & ?). by apply manualPayment_ok.
  - intros s1 log H.
    apply manualPayment_inv in H as (_ & _ & _ & Hact & _ & _ & -> & ->).
    rewrite pool_at_store_eq. split; [|split].
    + unfold with_payment. rewrite member_at_store_eq. by rewrite Hact.
    + intros m Hm. unfold with_payment. by rewrite member_at_store_ne.
    + done.
Qed.

(** Member 5 pays a share of pool 1 by hand while the contract holds 150 of
    the token: 100 comes in, nothing goes out (200 would be needed). *)
Lemma manualPayment_settles_one_share_witness :
  ledger_calls
    (snd (commit {| msg_sender := 5; block_timestamp := 20; this := 999;
                    self_balance := 150; oracle := fun _ => Returns true |}
                 (ManualPayment 0 1) two_members)) =
    [TransferFrom 7 5 999 100; BalanceOf 7 999] /\
  exists r, manualPayment {| msg_sender := 5; block_timestamp := 20; this := 999;
                             self_balance := 150; oracle := fun _ => Returns true |}
              0 1 two_members = Ok r.
Proof.
  split; [vm_compute; reflexivity|].
  destruct (manualPayment_settles_one_share
              {| msg_sender := 5; block_timestamp := 20; this := 999;
                 self_balance := 150; oracle := fun _ => Returns true |} 0 1 two_members
              two_members_reachable) as (_ & Hgo & _).
  apply Hgo.
  - intros k. reflexivity.
  - vm_compute. discriminate.
  - vm_compute. discriminate.
  - split; [vm_compute; reflexivity|]. split; [vm_compute; reflexivity|].
    split; vm_compute; reflexivity.
Defined.

Lemma taken_debits t to a (ms : list N) :
  taken (map (fun m => TransferFrom t m to a) ms) = a * N.of_nat (length ms) /\
  paid (map (fun m => TransferFrom t m to a) ms) = 0.
Proof.
  unfold taken, paid. induction ms as [|m ms [IH1 IH2]]; simpl; [split; lia|].
  rewrite IH1, IH2. split; lia.
Qed.

(** What the loop of [collectPayments] adds to the custody calls: one debit
    of the share for each member it collected from, all of them members
    when the loop began. *)
Lemma collect_loop_ledger gas tx pid share :
  forall i sp tc s log tc' s' log',
    collect_loop gas tx pid share i sp tc s log = Ok (tc', s', log') ->
    exists ms,
      ledger_calls log' =
        ledger_calls log ++
        map (fun m => TransferFrom (token (pool_at s pid)) m (this tx) share) ms /\
      tc' = tc + share * N.of_nat (length ms) /\
      Forall (fun m => isActive (member_at (pool_at s pid) m) = true) ms /\
      (token (pool_at s pid) = 0 -> ms = []).
Proof.
  induction gas as [|gas IH]; intros i sp tc s log tc' s' log' H.
  - simpl in H. destruct (negb _); [|discriminate]. injection H as <- <- <-.
    exists []. simpl. rewrite app_nil_r. split; [done|]. split; [lia | done].
  - cbn [collect_loop] in H. destruct (negb (i <? _)).
    { injection H as <- <- <-. exists []. simpl. rewrite app_nil_r.
      split; [done|]. split; [lia | done]. }
    destruct (memberList _ !! _) as [m|]; [|discriminate].
    destruct (isActive (member_at (pool_at s pid) m)) eqn:Hact; cbn [negb] in H.
    2: { peel H. by apply IH in H. }
    peel H. destruct r as [[c s1] log1].
    apply tryCollectPayment_inv in E
      as [(-> & -> & Hlog) | (-> & Htok & Hlog & r & Hr & ->)].
    + peel H. destruct r0 as [[s3 log3] i0]. peel H.
      assert (Hs3 : ledger_calls log3 = ledger_calls log /\
                    token (pool_at s3 pid) = token (pool_at s pid) /\
                    forall x, isActive (member_at (pool_at s3 pid) x) = true ->
                              isActive (member_at (pool_at s pid) x) = true).
      { destruct (MAX_FAILED_PAYMENTS <=? r).
        - apply EscrowFacts.bind_ok in E0 as ([s4 log4] & Hrm & E0).
          apply EscrowFacts.bind_ok in E0 as (i1 & Hsub & E0).
          injection E0 as <- <- <-.
          apply removeMember_inv in Hrm as (_ & -> & ->).
          rewrite !pool_ledger_calls_app, Hlog. simpl. rewrite !app_nil_r.
          split; [done|]. rewrite pool_at_removed_eq, pool_at_store_eq.
          split; [done|]. intros x. rewrite isActive_without_member.
          destruct (decide (m = x)) as [<- | Hne]; [done|].
          by rewrite member_at_store_ne.
        - injection E0 as <- <- <-.
          rewrite pool_ledger_calls_app, Hlog. simpl. rewrite app_nil_r.
          split; [done|]. rewrite pool_at_store_eq. split; [done|].
          intros x. destruct (decide (m = x)) as [<- | Hne].
          + by rewrite member_at_store_eq.
          + by rewrite member_at_store_ne. }
      destruct Hs3 as (Hl3 & Ht3 & Ha3).
      apply IH in H as (ms & Hl & Htc & Hall & Hz).
      exists ms. rewrite Hl, Hl3, Ht3. split; [done|]. split; [done|].
      split; [|by rewrite <- Ht3].
      eapply Forall_impl; [exact Hall | done].
    + peel H. apply checked_add_inv in E0 as [-> _].
      apply IH in H as (ms & Hl & Htc & Hall & Hz).
      rewrite pool_at_store_eq in Hl, Hall, Hz. simpl in Hl, Hz.
      exists (m :: ms). rewrite Hl, Hlog, <- app_assoc. simpl.
      split; [done|]. split; [lia|]. split; [|done].
      constructor; [done|].
      eapply Forall_impl; [exact Hall|]. intros x. simpl.
      destruct (decide (m = x)) as [<- | Hne].
      * by rewrite member_at_store_eq, Hr.
      * by rewrite member_at_store_ne.
Qed.

(** X23: on a deployed contract the custody calls of a successful
    [collectPayments] are debits of one share each, from accounts that were
    active members of the pool when the call began, followed, when the
    debits add up to a positive total, by a payout of exactly this total
    (the pool owner's part and the fee); it pays out what it took in. A
    native-coin pool is never debited: its collection makes no custody
    call. *)
Theorem collectPayments_pays_what_it_collects gas tx i s s1 log :
  reachable s -> collectPayments gas tx i s = Ok (s1, log) ->
  exists ms,
    Forall (fun m => isActive (member_at (pool_at s i) m) = true) ms /\
    ledger_calls log =
      map (fun m => TransferFrom (token (pool_at s i)) m (this tx) (share_of (pool_at s i)))
          ms ++
      (if 0 <? share_of (pool_at s i) * N.of_nat (length ms)
       then payout_calls s (pool_at s i) (share_of (pool_at s i) * N.of_nat (length ms))
       else []) /\
    paid (ledger_calls log) = taken (ledger_calls log) /\
    (token (pool_at s i) = 0 -> ledger_calls log = []).
Proof.
  intros Hr H. destruct (pool_reachable_config s Hr) as [_ Hfee].
  apply collectPayments_inv in H
    as (_ & _ & _ & _ & _ & _ & tc & s2 & log2 & Hloop & _ & Hlog).
  pose proof (collect_loop_frame _ _ _ _ _ _ _ _ _ _ _ _ Hloop) as (Hc & _ & Hs).
  apply collect_loop_ledger in Hloop as (ms & Hl & -> & Hall & Hz).
  rewrite pool_at_set_entered in Hl, Hall, Hz. simpl in Hl.
  specialize (Hs i). rewrite pool_at_set_entered in Hs.
  apply settings_inv in Hs as (Ht & _ & _).
  unfold config in Hc. simpl in Hc. injection Hc as _ Hf Hrc _ _.
  assert (Hpay : forall a, payout_calls s2 (pool_at s2 i) a = payout_calls s (pool_at s i) a).
  { intros a. unfold payout_calls. unfold terms in Ht. injection Ht as _ Ho _ _ Htk _ _.
    by rewrite Hf, Hrc, Ho, Htk. }
  rewrite Hpay, N.add_0_l in Hlog.
  exists ms. split; [done|]. split; [by rewrite Hlog, Hl|]. split.
  - rewrite Hlog, Hl, paid_app, taken_app.
    destruct (taken_debits (token (pool_at s i)) (this tx) (share_of (pool_at s i)) ms)
      as [-> ->].
    destruct (0 <? _) eqn:Hpos; [|simpl; apply N.ltb_ge in Hpos; unfold paid, taken; simpl; lia].
    destruct (paid_payout_calls s (pool_at s i)
                (share_of (pool_at s i) * N.of_nat (length ms))) as [-> ->]; lia.
  - intros Htok. rewrite Hlog, Hl, (Hz Htok). simpl. by rewrite N.mul_0_r.
Qed.

(** The first collection of pool 1: 100 from member 5 and 100 from member 6
    come in, 196 and 4 go out. *)
Lemma collectPayments_pays_what_it_collects_witness :
  ledger_calls (snd (commit (at_time 50 (THIRTY_DAYS + 20) none_fails)
                            (Core (CollectPayments 10 1)) two_members)) =
    [TransferFrom 7 5 999 100; TransferFrom 7 6 999 100;
     Transfer 7 1 196; Transfer 7 200 4] /\
  exists ms,
    Forall (fun m => isActive (member_at (pool_at two_members 1) m) = true) ms /\
    ledger_calls (snd (commit (at_time 50 (THIRTY_DAYS + 20) none_fails)
                              (Core (CollectPayments 10 1)) two_members)) =
      map (fun m => TransferFrom (token (pool_at two_members 1)) m
                      (this (at_time 50 (THIRTY_DAYS + 20) none_fails))
                      (share_of (pool_at two_members 1))) ms ++
      (if 0 <? share_of (pool_at two_members 1) * N.of_nat (length ms)
       then payout_calls two_members (pool_at two_members 1)
              (share_of (pool_at two_members 1) * N.of_nat (length ms))
       else []) /\
    paid (ledger_calls (snd (commit (at_time 50 (THIRTY_DAYS + 20) none_fails)
                            (Core (CollectPayments 10 1)) two_members))) =
    taken (ledger_calls (snd (commit (at_time 50 (THIRTY_DAYS + 20) none_fails)
                            (Core (CollectPayments 10 1)) two_members))) /\
    (token (pool_at two_members 1) = 0 ->
     ledger_calls (snd (commit (at_time 50 (THIRTY_DAYS + 20) none_fails)
                            (Core (CollectPayments 10 1)) two_members)) = []).
Proof.
  split; [vm_compute; reflexivity|].
  apply (collectPayments_pays_what_it_collects 10
           (at_time 50 (THIRTY_DAYS + 20) none_fails) 1 two_members
           (fst (commit (at_time 50 (THIRTY_DAYS + 20) none_fails)
                        (Core (CollectPayments 10 1)) two_members))).
  - apply two_members_reachable.
  - vm_compute. reflexivity.
Defined.

End PoolFacts.

(** * Properties of ContentOwnershipRegistry *)

Module RegistryFacts.
Import ContentOwnershipRegistry.

(** Peel the guards off a hypothesis [H : ... = Ok _]. *)
Ltac unguard H :=
  repeat first
    [ apply EscrowFacts.require_bind_ok in H as [? H]
    | let a := fresh "r" in let E := fresh "E" in
      apply EscrowFacts.bind_ok in H as (a & E & H) ].

(** ** Storage *)

Lemma record_at_store_eq h r s : record_at (store_record h r s) h = r.
Proof. unfold record_at, store_record. simpl. by rewrite lookup_insert_eq. Qed.

Lemma record_at_store_ne h h' r s :
  h <> h' -> record_at (store_record h r s) h' = record_at s h'.
Proof. intros. unfold record_at, store_record. simpl. by rewrite lookup_insert_ne. Qed.

Lemma nonempty_length (x : string) : (0 <? N.of_nat (String.length x)) = true <-> x <> EmptyString.
Proof.
  destruct x; simpl; split; done.
Qed.

Lemma content_list_push (a a' : N) (h : string) (m : gmap N (list string)) :
  default [] (push_to a h m !! a') =
  if decide (a = a') then default [] (m !! a) ++ [h] else default [] (m !! a').
Proof.
  unfold push_to. destruct (decide (a = a')) as [<- | Hne].
  - by rewrite lookup_insert_eq.
  - by rewrite lookup_insert_ne.
Qed.

(** ** The removal loop *)

Lemma content_swap_remove_spec (x : string) (l : list string) :
  x ∈ l -> NoDup l -> forall y, y ∈ swap_remove x l <-> y ∈ l /\ y <> x.
Proof.
  intros Hin Hnd. unfold swap_remove.
  destruct (list_find (λ y, y = x) l) as [[i y]|] eqn:Hfind.
  2: { apply list_find_None in Hfind. rewrite Forall_forall in Hfind.
       exfalso. by apply (Hfind x). }
  apply list_find_Some in Hfind as (Hi & -> & Hbefore).
  destruct (last l) as [z|] eqn:Hlast.
  2: { apply last_None in Hlast. subst l. by apply elem_of_nil in Hin. }
  rewrite last_lookup in Hlast.
  pose proof (lookup_lt_Some _ _ _ Hi) as Hlt.
  intros y. rewrite !list_elem_of_lookup. split.
  - intros [j Hj]. apply lookup_take_Some in Hj as [Hj Hjlt].
    destruct (decide (i = j)) as [-> | Hne].
    + rewrite list_lookup_insert_eq in Hj by done.
      injection Hj as <-. split; [eauto|]. intros ->.
      pose proof (NoDup_lookup _ _ _ _ Hnd Hi Hlast). lia.
    + rewrite list_lookup_insert_ne in Hj by done. split; [eauto|]. intros ->.
      pose proof (NoDup_lookup _ _ _ _ Hnd Hi Hj). lia.
  - intros [[j Hj] Hy].
    destruct (decide (j = pred (length l))) as [-> | Hne].
    + exists i. rewrite lookup_take_Some. split.
      * rewrite list_lookup_insert_eq by done. congruence.
      * destruct (decide (i = pred (length l))) as [-> | Hne2]; [congruence | lia].
    + exists j. rewrite lookup_take_Some. split.
      * rewrite list_lookup_insert_ne; [done|]. intros ->. congruence.
      * apply lookup_lt_Some in Hj. lia.
Qed.

Lemma content_swap_remove_NoDup (x : string) (l : list string) :
  NoDup l -> NoDup (swap_remove x l).
Proof.
  intros Hnd. unfold swap_remove.
  destruct (list_find (λ y, y = x) l) as [[i y]|] eqn:Hfind; [|done].
  destruct (last l) as [z|] eqn:Hlast; [|done].
  apply list_find_Some in Hfind as (Hi & -> & _).
  rewrite last_lookup in Hlast.
  pose proof (lookup_lt_Some _ _ _ Hi) as Hlt.
  apply NoDup_alt. intros j1 j2 y H1 H2.
  apply lookup_take_Some in H1 as [H1 L1]. apply lookup_take_Some in H2 as [H2 L2].
  destruct (decide (i = j1)) as [<-|N1]; destruct (decide (i = j2)) as [<-|N2]; try done.
  - rewrite list_lookup_insert_eq in H1 by done.
    rewrite list_lookup_insert_ne in H2 by done.
    injection H1 as <-. pose proof (NoDup_lookup _ _ _ _ Hnd Hlast H2). lia.
  - rewrite list_lookup_insert_eq in H2 by done.
    rewrite list_lookup_insert_ne in H1 by done.
    injection H2 as <-. pose proof (NoDup_lookup _ _ _ _ Hnd Hlast H1). lia.
  - rewrite list_lookup_insert_ne in H1, H2 by done.
    apply (NoDup_lookup _ _ _ _ Hnd H1 H2).
Qed.

(** ** What a successful call tells about the state it ran in *)

Lemma registerContent_inv tx h i t d b s s1 log :
  registerContent tx h i t d b s = Ok (s1, log) ->
  entered s = false /\ exists_at s h = false /\ h <> EmptyString /\ i <> EmptyString /\
  contentRegistry s1 =
    <[h := {| owner := msg_sender tx; contentHash := h; ipfsHash := i;
              timestamp := block_timestamp tx; title := t; description := d;
              isTransferable := b |}]> (contentRegistry s) /\
  ownerContent s1 = push_to (msg_sender tx) h (ownerContent s) /\
  contentExists s1 = <[h := true]> (contentExists s) /\
  entered s1 = false /\
  log = [Emit (EvContentRegistered h (msg_sender tx) i (block_timestamp tx))].
Proof.
  unfold registerContent, nonReentrantBefore, contentNotExists. intros H.
  destruct (entered s) eqn:Hent; [discriminate|]. cbn [mbind Result_bind] in H.
  unguard H. injection H as <- <-.
  apply negb_true_iff in H0. apply nonempty_length in H1, H2.
  done.
Qed.

Lemma transferOwnership_inv tx h a s s1 log :
  transferOwnership tx h a s = Ok (s1, log) ->
  owner (record_at s h) = msg_sender tx /\ entered s = false /\ a <> 0 /\
  isTransferable (record_at s h) = true /\
  contentRegistry s1 = <[h := with_owner a (record_at s h)]> (contentRegistry s) /\
  ownerContent s1 =
    push_to a h (<[msg_sender tx := swap_remove h (getOwnerContent s (msg_sender tx))]>
                   (ownerContent s)) /\
  contentExists s1 = contentExists s /\ entered s1 = false /\
  log = [Emit (EvOwnershipTransferred h (msg_sender tx) a (block_timestamp tx))].
Proof.
  unfold transferOwnership, contentOwner, nonReentrantBefore. intros H.
  unguard H. destruct (entered s) eqn:Hent; [discriminate|]. injection E as <-.
  unguard H. injection H as <- <-.
  apply N.eqb_eq in H0. apply negb_true_iff, N.eqb_neq in H1.
  change (record_at (set_entered true s) h) with (record_at s h) in *.
  rewrite H0. done.
Qed.

Lemma updateContentMetadata_inv tx h t d s s1 log :
  updateContentMetadata tx h t d s = Ok (s1, log) ->
  owner (record_at s h) = msg_sender tx /\
  s1 = store_record h (with_metadata t d (record_at s h)) s /\ log = [].
Proof.
  unfold updateContentMetadata, contentOwner. intros H. unguard H.
  injection H as <- <-. by apply N.eqb_eq in H0.
Qed.

Lemma setTransferability_inv tx h b s s1 log :
  setTransferability tx h b s = Ok (s1, log) ->
  owner (record_at s h) = msg_sender tx /\
  s1 = store_record h (with_isTransferable b (record_at s h)) s /\ log = [].
Proof.
  unfold setTransferability, contentOwner. intros H. unguard H.
  injection H as <- <-. by apply N.eqb_eq in H0.
Qed.

(** ** The invariant holds of every state of the deployed registry *)

Lemma registry_well_formed_initial : well_formed initial.
Proof.
  split.
  - intros h. unfold exists_at. simpl. rewrite !lookup_empty. simpl.
    split; [done | by intros [? ?]].
  - intros h r. simpl. by rewrite lookup_empty.
  - intros a h. unfold getOwnerContent. simpl. rewrite !lookup_empty. simpl.
    split; [by intros ?%elem_of_nil | by intros (r & ? & _)].
  - intros a. unfold getOwnerContent. simpl. rewrite lookup_empty. constructor.
Qed.

Lemma registered_record s h :
  well_formed s -> owner (record_at s h) <> 0 ->
  contentRegistry s !! h = Some (record_at s h).
Proof.
  intros Hwf Ho. unfold record_at in *.
  destruct (contentRegistry s !! h); [done|]. simpl in Ho. done.
Qed.

Lemma unregistered_record s h :
  well_formed s -> exists_at s h = false -> contentRegistry s !! h = None.
Proof.
  intros Hwf He. destruct (contentRegistry s !! h) eqn:E; [|done].
  assert (H : is_Some (contentRegistry s !! h)) by eauto.
  apply (wf_exists s Hwf) in H. congruence.
Qed.

(** Rewriting a registered record without touching its owner, its hashes. *)
Lemma registry_well_formed_update h r s :
  well_formed s -> contentRegistry s !! h = Some (record_at s h) ->
  owner r = owner (record_at s h) -> contentHash r = contentHash (record_at s h) ->
  ipfsHash r = ipfsHash (record_at s h) ->
  well_formed (store_record h r s).
Proof.
  intros Hwf Hp Ho Hc Hi. destruct Hwf as [H1 H2 H3 H4]. split.
  - intros h'. change (exists_at (store_record h r s) h') with (exists_at s h').
    rewrite H1. unfold store_record. simpl. rewrite lookup_insert_is_Some.
    split; [intros ?; destruct (decide (h = h')); [by left | by right]|].
    intros [<- | [_ ?]]; [eauto | done].
  - intros h' r'. unfold store_record. simpl.
    destruct (decide (h = h')) as [<- | Hne].
    + rewrite lookup_insert_eq. intros [= <-]. rewrite Ho, Hc, Hi. by apply H2.
    + rewrite lookup_insert_ne by done. apply H2.
  - intros a h'. change (getOwnerContent (store_record h r s) a) with (getOwnerContent s a).
    rewrite H3. unfold store_record. simpl.
    destruct (decide (h = h')) as [<- | Hne].
    + rewrite lookup_insert_eq, Hp. split.
      * intros (r' & [= <-] & <-). eauto.
      * intros (r' & [= <-] & <-). eauto.
    + by rewrite lookup_insert_ne.
  - intros a. apply H4.
Qed.

Lemma registry_well_formed_step tx c s s1 log :
  well_formed s -> msg_sender tx <> 0 -> step tx c s = Ok (s1, log) -> well_formed s1.
Proof.
  intros Hwf Hsender H. destruct c as [h i t d b | h a | h t d | h b]; simpl in H.
  - apply registerContent_inv in H
      as (_ & Hex & Hh & Hi & Hreg & Hoc & Hce & _ & _).
    pose proof (unregistered_record s h Hwf Hex) as Hnone.
    destruct Hwf as [H1 H2 H3 H4].
    assert (Hnot : forall a, h ∉ getOwnerContent s a).
    { intros a. rewrite H3. intros (r & Hr & _). congruence. }
    assert (Hlist : forall a, getOwnerContent s1 a =
              if decide (msg_sender tx = a) then getOwnerContent s (msg_sender tx) ++ [h]
              else getOwnerContent s a).
    { intros a. unfold getOwnerContent. rewrite Hoc. apply content_list_push. }
    split.
    + intros h'. unfold exists_at. rewrite Hce, Hreg.
      destruct (decide (h = h')) as [<- | Hne].
      * rewrite !lookup_insert_eq. simpl. split; [eauto | done].
      * rewrite !lookup_insert_ne by done. apply H1.
    + intros h' r. rewrite Hreg. destruct (decide (h = h')) as [<- | Hne].
      * rewrite lookup_insert_eq. intros [= <-]. simpl. done.
      * rewrite lookup_insert_ne by done. apply H2.
    + intros a h'. rewrite Hlist, Hreg. destruct (decide (h = h')) as [<- | Hne].
      * rewrite lookup_insert_eq. destruct (decide (msg_sender tx = a)) as [<- | Ha].
        -- rewrite elem_of_app, list_elem_of_singleton. split; [eauto | by right].
        -- split; [by intros ?%Hnot|]. intros (r & [= <-] & Hr). simpl in Hr. done.
      * rewrite lookup_insert_ne by done. rewrite <- H3.
        destruct (decide (msg_sender tx = a)) as [<- | Ha]; [|done].
        rewrite elem_of_app, list_elem_of_singleton.
        split; [intros [? | ?]; [done | congruence] | by left].
    + intros a. rewrite Hlist. destruct (decide (msg_sender tx = a)); [|apply H4].
      apply NoDup_app. split; [apply H4|]. split; [|apply NoDup_singleton].
      intros x Hx ->%list_elem_of_singleton. by apply Hnot in Hx.
  - apply transferOwnership_inv in H
      as (Hown & _ & Ha & _ & Hreg & Hoc & Hce & _ & _).
    assert (Hp : contentRegistry s !! h = Some (record_at s h)).
    { apply registered_record; [done | congruence]. }
    destruct Hwf as [H1 H2 H3 H4].
    assert (Hin : h ∈ getOwnerContent s (msg_sender tx)) by (apply H3; eauto).
    pose proof (content_swap_remove_spec h _ Hin (H4 _)) as Hsr.
    assert (Hlist : forall a', getOwnerContent s1 a' =
              (if decide (msg_sender tx = a')
               then swap_remove h (getOwnerContent s (msg_sender tx))
               else getOwnerContent s a') ++ (if decide (a = a') then [h] else [])).
    { intros a'. unfold getOwnerContent at 1. rewrite Hoc, content_list_push.
      destruct (decide (a = a')) as [<- | Hne].
      - f_equal. destruct (decide (msg_sender tx = a)) as [<- | Hne2].
        + by rewrite lookup_insert_eq.
        + by rewrite lookup_insert_ne.
      - rewrite app_nil_r. destruct (decide (msg_sender tx = a')) as [<- | Hne2].
        + by rewrite lookup_insert_eq.
        + by rewrite lookup_insert_ne. }
    assert (Hrest : forall a' x,
              x ∈ (if decide (msg_sender tx = a')
                   then swap_remove h (getOwnerContent s (msg_sender tx))
                   else getOwnerContent s a') <-> x ∈ getOwnerContent s a' /\ x <> h).
    { intros a' x. destruct (decide (msg_sender tx = a')) as [<- | Hne]; [apply Hsr|].
      split; [|by intros [? _]]. intros Hx. split; [done|]. intros ->.
      apply H3 in Hx as (r & Hr & Hr2). rewrite Hp in Hr. injection Hr as <-. congruence. }
    split.
    + intros h'. unfold exists_at. rewrite Hce, Hreg. fold (exists_at s h').
      rewrite H1, lookup_insert_is_Some.
      split; [intros ?; destruct (decide (h = h')); [by left | by right]|].
      intros [<- | [_ ?]]; [eauto | done].
    + intros h' r. rewrite Hreg. destruct (decide (h = h')) as [<- | Hne].
      * rewrite lookup_insert_eq. intros [= <-]. simpl.
        destruct (H2 h _ Hp) as (? & ? & ? & _). done.
      * rewrite lookup_insert_ne by done. apply H2.
    + intros a' h'. rewrite Hlist, Hreg, elem_of_app, Hrest.
      destruct (decide (h = h')) as [<- | Hne].
      * rewrite lookup_insert_eq. destruct (decide (a = a')) as [<- | Hne2].
        -- split; [eauto|]. intros _. right. by apply list_elem_of_singleton.
        -- split; [intros [[_ ?] | ?%elem_of_nil]; done|].
           intros (r & [= <-] & Hr). simpl in Hr. done.
      * rewrite lookup_insert_ne by done. rewrite <- H3.
        split; [intros [[? _] | Hx]; [done|] | intros ?; left; split; [done | congruence]].
        destruct (decide (a = a')); [|by apply elem_of_nil in Hx].
        apply list_elem_of_singleton in Hx. congruence.
    + intros a'. rewrite Hlist. apply NoDup_app. split; [|split].
      * destruct (decide (msg_sender tx = a')); [|apply H4].
        apply content_swap_remove_NoDup, H4.
      * intros x Hx Hx2. apply Hrest in Hx as [_ Hx].
        destruct (decide (a = a')); [|by apply elem_of_nil in Hx2].
        by apply list_elem_of_singleton in Hx2.
      * destruct (decide (a = a')); [apply NoDup_singleton | constructor].
  - apply updateContentMetadata_inv in H as (Hown & -> & _).
    apply registry_well_formed_update; try done.
    apply registered_record; [done | congruence].
  - apply setTransferability_inv in H as (Hown & -> & _).
    apply registry_well_formed_update; try done.
    apply registered_record; [done | congruence].
Qed.

Lemma registry_reachable_well_formed s : reachable s -> well_formed s.
Proof.
  induction 1 as [| tx c s s1 log Hr IH Hsender H].
  - apply registry_well_formed_initial.
  - by apply (registry_well_formed_step tx c s s1 log).
Qed.

Lemma registry_reachable_idle s : reachable s -> entered s = false.
Proof.
  induction 1 as [| tx c s s1 log Hr IH Hsender H]; [done|].
  destruct c as [h i t d b | h a | h t d | h b]; simpl in H.
  - by apply registerContent_inv in H as (_ & _ & _ & _ & _ & _ & _ & ? & _).
  - by apply transferOwnership_inv in H as (_ & _ & _ & _ & _ & _ & _ & ? & _).
  - by apply updateContentMetadata_inv in H as (_ & -> & _).
  - by apply setTransferability_inv in H as (_ & -> & _).
Qed.

Lemma registry_reachable_transact tx c s :
  reachable s -> msg_sender tx <> 0 -> reachable (fst (transact tx c s)).
Proof.
  intros Hr Hs. unfold transact. destruct (step tx c s) as [[s1 log]|] eqn:E; [|done].
  by apply (reachable_step tx c s s1 log).
Qed.

Lemma registry_reachable_run txs s :
  reachable s -> Forall (fun p => msg_sender (fst p) <> 0) txs ->
  reachable (fst (run txs s)).
Proof.
  intros Hr Hall. revert s Hr.
  induction Hall as [|[tx c] txs Hs _ IH]; intros s Hr; simpl; [done|].
  pose proof (registry_reachable_transact tx c s Hr Hs) as Hr1.
  destruct (transact tx c s) as [s1 log1]. simpl in Hr1.
  specialize (IH s1 Hr1). destruct (run txs s1) as [s2 log2]. done.
Qed.

Lemma two_works_reachable : reachable two_works.
Proof. apply registry_reachable_run; [apply reachable_initial | by repeat constructor]. Qed.

Lemma registry_run_invariant (P : State -> Prop) :
  (forall tx c s, P s -> P (fst (transact tx c s))) ->
  forall txs s, P s -> P (fst (run txs s)).
Proof.
  intros Hstep. induction txs as [|[tx c] txs IH]; intros s HP; simpl; [done|].
  pose proof (Hstep tx c s HP) as H1.
  destruct (transact tx c s) as [s1 log1]. simpl in H1.
  specialize (IH s1 H1). destruct (run txs s1) as [s2 log2]. done.
Qed.

(** ** What one transaction does to a record *)

Lemma registry_step_cases tx c s s1 log h :
  step tx c s = Ok (s1, log) ->
  entered s1 = entered s /\
  (target c <> h -> record_at s1 h = record_at s h /\ exists_at s1 h = exists_at s h) /\
  (target c = h ->
     (exists_at s h = false /\ exists_at s1 h = true /\
      exists i t d b, c = RegisterContent h i t d b /\
        record_at s1 h = {| owner := msg_sender tx; contentHash := h; ipfsHash := i;
                            timestamp := block_timestamp tx; title := t;
                            description := d; isTransferable := b |}) \/
     (owner (record_at s h) = msg_sender tx /\ exists_at s1 h = exists_at s h /\
      ((exists a, c = TransferOwnership h a /\ a <> 0 /\
          isTransferable (record_at s h) = true /\
          record_at s1 h = with_owner a (record_at s h)) \/
       (exists t d, c = UpdateContentMetadata h t d /\
          record_at s1 h = with_metadata t d (record_at s h)) \/
       (exists b, c = SetTransferability h b /\
          record_at s1 h = with_isTransferable b (record_at s h))))).
Proof.
  intros H. destruct c as [h0 i t d b | h0 a | h0 t d | h0 b]; simpl in *.
  - apply registerContent_inv in H
      as (Hent & Hex & _ & _ & Hreg & _ & Hce & Hent1 & _).
    split; [congruence|]. unfold record_at, exists_at. rewrite Hreg, Hce. split.
    + intros Hne. by rewrite !lookup_insert_ne.
    + intros <-. left. rewrite !lookup_insert_eq. simpl.
      split; [done|]. split; [done|]. by exists i, t, d, b.
  - apply transferOwnership_inv in H
      as (Hown & Hent & Ha & Htr & Hreg & _ & Hce & Hent1 & _).
    assert (Hrec : forall x, record_at s1 x =
              if decide (h0 = x) then with_owner a (record_at s h0) else record_at s x).
    { intros x. unfold record_at at 1. rewrite Hreg.
      destruct (decide (h0 = x)) as [<- | Hne].
      - by rewrite lookup_insert_eq.
      - by rewrite lookup_insert_ne. }
    assert (Hexs : forall x, exists_at s1 x = exists_at s x).
    { intros x. unfold exists_at. by rewrite Hce. }
    split; [congruence|]. rewrite Hrec, Hexs. split.
    + intros Hne. by rewrite decide_False.
    + intros <-. right. rewrite decide_True by done.
      split; [done|]. split; [done|]. left. by exists a.
  - apply updateContentMetadata_inv in H as (Hown & -> & _).
    split; [done|]. split.
    + intros Hne. by rewrite record_at_store_ne.
    + intros <-. right. rewrite record_at_store_eq.
      split; [done|]. split; [done|]. right. left. by exists t, d.
  - apply setTransferability_inv in H as (Hown & -> & _).
    split; [done|]. split.
    + intros Hne. by rewrite record_at_store_ne.
    + intros <-. right. rewrite record_at_store_eq.
      split; [done|]. split; [done|]. right. right. by exists b.
Qed.

Lemma registry_transact_ok tx c s r : step tx c s = Ok r -> transact tx c s = r.
Proof. unfold transact. by intros ->. Qed.

(** A registered content stays registered with the same proof, and the
    guard stays released. *)
Lemma registered_transact tx c s h :
  entered s = false -> exists_at s h = true ->
  entered (fst (transact tx c s)) = false /\
  exists_at (fst (transact tx c s)) h = true /\
  proof_of (record_at (fst (transact tx c s)) h) = proof_of (record_at s h).
Proof.
  intros Hent Hex. unfold transact.
  destruct (step tx c s) as [[s1 log]|] eqn:E; [|done]. simpl.
  destruct (registry_step_cases tx c s s1 log h E) as (He & Hother & Hsame).
  split; [congruence|].
  destruct (decide (target c = h)) as [Ht | Ht].
  - destruct (Hsame Ht) as [(Hno & _) | (_ & Hex1 & Hc)]; [congruence|].
    split; [congruence|].
    destruct Hc as [(a & _ & _ & _ & ->) | [(t & d & _ & ->) | (b & _ & ->)]]; done.
  - destruct (Hother Ht) as [-> ->]. done.
Qed.

(** ** Properties of the registry *)

(** X24: on a deployed registry [registerContent] succeeds exactly when the
    content hash and the IPFS hash are not empty and the content hash is not
    registered yet. [verifyContent] then returns the caller as owner with
    the IPFS hash, the time of the call, the title and the description; the
    hash is appended to the caller's list; no other record changes; and
    whatever transactions follow, registering the same content hash again
    fails with "Content already registered". *)
Theorem registration_is_first_come tx h i t d b s :
  reachable s ->
  ((exists r, registerContent tx h i t d b s = Ok r) <->
     h <> EmptyString /\ i <> EmptyString /\ exists_at s h = false) /\
  (forall s1 log, registerContent tx h i t d b s = Ok (s1, log) ->
     verifyContent s1 h = Ok (msg_sender tx, i, block_timestamp tx, t, d) /\
     getOwnerContent s1 (msg_sender tx) = getOwnerContent s (msg_sender tx) ++ [h] /\
     (forall h', h' <> h ->
        record_at s1 h' = record_at s h' /\ exists_at s1 h' = exists_at s h') /\
     forall txs tx' i' t' d' b',
       registerContent tx' h i' t' d' b' (fst (run txs s1)) =
         Fail (RequireFailed "Content already registered")).
Proof.
  intros Hr. pose proof (registry_reachable_idle s Hr) as Hent. split.
  - split.
    + intros [[s1 log] H].
      by apply registerContent_inv in H as (_ & ? & ? & ? & _).
    + intros (Hh & Hi & Hex). unfold registerContent, nonReentrantBefore, contentNotExists.
      rewrite Hent. cbn [mbind Result_bind].
      change (exists_at (set_entered true s) h) with (exists_at s h). rewrite Hex.
      apply nonempty_length in Hh, Hi. rewrite Hh, Hi. simpl. eauto.
  - intros s1 log H.
    pose proof (registry_step_cases tx (RegisterContent h i t d b) s s1 log h H)
      as (He & _ & Hsame).
    destruct (Hsame eq_refl) as [(_ & Hex1 & i0 & t0 & d0 & b0 & [= <- <- <- <-] & Hrec) | (_ & _ & Hc)].
    2: { destruct Hc as [(? & ? & _) | [(? & ? & ? & _) | (? & ? & _)]]; discriminate. }
    split; [|split; [|split]].
    + unfold verifyContent. rewrite Hex1, Hrec. reflexivity.
    + apply registerContent_inv in H as (_ & _ & _ & _ & _ & Hoc & _).
      unfold getOwnerContent. rewrite Hoc, content_list_push. by rewrite decide_True.
    + intros h' Hne.
      pose proof (registry_step_cases tx (RegisterContent h i t d b) s s1 log h' H)
        as (_ & Hother & _).
      apply Hother. simpl. congruence.
    + intros txs tx' i' t' d' b'.
      assert (Hinv : entered (fst (run txs s1)) = false /\
                     exists_at (fst (run txs s1)) h = true).
      { apply (registry_run_invariant
                 (fun s2 => entered s2 = false /\ exists_at s2 h = true)).
        - intros tx0 c0 s2 [He2 Hx2].
          by destruct (registered_transact tx0 c0 s2 h He2 Hx2) as (? & ? & _).
        - split; [congruence | done]. }
      destruct Hinv as [He2 Hx2].
      unfold registerContent, nonReentrantBefore, contentNotExists.
      rewrite He2. cbn [mbind Result_bind].
      change (exists_at (set_entered true (fst (run txs s1))) h)
        with (exists_at (fst (run txs s1)) h).
      by rewrite Hx2.
Qed.

(** Account 4 registers a third work; account 3 cannot register it again. *)
Lemma registration_is_first_come_witness :
  verifyContent
    (fst (transact (by_at 4 102) (RegisterContent "h3" "Qm3" "book" "a book" true)
            two_works)) "h3" = Ok (4, "Qm3", 102, "book", "a book") /\
  ((exists r, registerContent (by_at 4 102) "h3" "Qm3" "book" "a book" true two_works
              = Ok r) <->
     "h3" <> EmptyString /\ "Qm3" <> EmptyString /\ exists_at two_works "h3" = false).
Proof.
  split; [vm_compute; reflexivity|].
  apply (registration_is_first_come (by_at 4 102) "h3" "Qm3" "book" "a book" true
           two_works).
  apply two_works_reachable.
Defined.

(** X25: on a deployed registry [getOwnerContent(a)] lists exactly the
    registered content hashes whose record names [a] as owner, each once;
    [verifyContent] fails with "Content not found" exactly for the hashes
    that are not registered, and what it returns for a registered hash is a
    non-zero owner, in whose list the hash is, and a non-empty IPFS hash. *)
Theorem content_index_is_exact s a h :
  reachable s ->
  (h ∈ getOwnerContent s a <-> exists_at s h = true /\ owner (record_at s h) = a) /\
  NoDup (getOwnerContent s a) /\
  (verifyContent s h = Fail (RequireFailed "Content not found") <-> exists_at s h = false) /\
  (forall o i ts t d, verifyContent s h = Ok (o, i, ts, t, d) ->
     o <> 0 /\ i <> EmptyString /\ h <> EmptyString /\ h ∈ getOwnerContent s o).
Proof.
  intros Hr. pose proof (registry_reachable_well_formed s Hr) as Hwf.
  assert (Hidx : forall b, h ∈ getOwnerContent s b <->
            exists_at s h = true /\ owner (record_at s h) = b).
  { intros b. rewrite (wf_index s Hwf), (wf_exists s Hwf). unfold record_at. split.
    - intros (r & Hr1 & <-). rewrite Hr1. split; [eauto | done].
    - intros [[r Hr1] <-]. rewrite Hr1. eauto. }
  split; [apply Hidx|]. split; [apply (wf_index_once s Hwf)|]. split.
  - unfold verifyContent. destruct (exists_at s h); simpl; split; done.
  - intros o i ts t d. unfold verifyContent.
    destruct (exists_at s h) eqn:Hex; [|discriminate]. simpl. intros [= <- <- <- <- <-].
    pose proof Hex as Hex1. apply (wf_exists s Hwf) in Hex1 as [r Hr1].
    destruct (wf_record s Hwf h r Hr1) as (_ & Hh & Hi & Ho).
    unfold record_at at 1 2. rewrite Hr1. simpl.
    split; [done|]. split; [done|]. split; [done|].
    apply Hidx. split; [done|]. reflexivity.
Qed.

Lemma content_index_is_exact_witness :
  getOwnerContent two_works 3 = ["h1"; "h2"] /\
  ("h1" ∈ getOwnerContent two_works 3 <->
     exists_at two_works "h1" = true /\ owner (record_at two_works "h1") = 3) /\
  NoDup (getOwnerContent two_works 3).
Proof.
  split; [vm_compute; reflexivity|].
  pose proof (content_index_is_exact two_works 3 "h1" two_works_reachable) as (H1 & H2 & _).
  split; [exact H1 | exact H2].
Defined.

(** X26: once a content hash is registered it stays registered, and no
    sequence of transactions changes the content hash, the IPFS hash or the
    timestamp of its record. *)
Theorem proof_of_registration_is_permanent txs s h :
  entered s = false -> exists_at s h = true ->
  exists_at (fst (run txs s)) h = true /\
  proof_of (record_at (fst (run txs s)) h) = proof_of (record_at s h).
Proof.
  intros Hent Hex.
  assert (Hinv : entered (fst (run txs s)) = false /\
                 exists_at (fst (run txs s)) h = true /\
                 proof_of (record_at (fst (run txs s)) h) = proof_of (record_at s h)).
  { apply (registry_run_invariant
             (fun s2 => entered s2 = false /\ exists_at s2 h = true /\
                        proof_of (record_at s2 h) = proof_of (record_at s h))); [|done].
    intros tx c s2 (He2 & Hx2 & Hp2).
    destruct (registered_transact tx c s2 h He2 Hx2) as (? & ? & Hp).
    split; [done|]. split; [done|]. congruence. }
  by destruct Hinv as (_ & ? & ?).
Qed.

(** The owner hands the first work over and the new owner renames it: the
    proof of registration is what it was. *)
Lemma proof_of_registration_is_permanent_witness :
  exists_at (fst (run [(by_at 3 200, TransferOwnership "h1" 4);
                       (by_at 4 201, UpdateContentMetadata "h1" "tune" "a tune");
                       (by_at 9 202, RegisterContent "h1" "Qm9" "mine" "mine" true)]
                  two_works)) "h1" = true /\
  proof_of (record_at (fst (run [(by_at 3 200, TransferOwnership "h1" 4);
                                 (by_at 4 201, UpdateContentMetadata "h1" "tune" "a tune");
                                 (by_at 9 202, RegisterContent "h1" "Qm9" "mine" "mine" true)]
                            two_works)) "h1") =
  proof_of (record_at two_works "h1").
Proof.
  apply proof_of_registration_is_permanent; vm_compute; reflexivity.
Defined.

Lemma proof_of_run txs s h :
  entered s = false -> exists_at s h = true ->
  proof_of (record_at (fst (run txs s)) h) = proof_of (record_at s h).
Proof.
  intros Hent Hex.
  assert (Hinv : entered (fst (run txs s)) = false /\
                 exists_at (fst (run txs s)) h = true /\
                 proof_of (record_at (fst (run txs s)) h) = proof_of (record_at s h)).
  { apply (registry_run_invariant
             (fun s2 => entered s2 = false /\ exists_at s2 h = true /\
                        proof_of (record_at s2 h) = proof_of (record_at s h))); [|done].
    intros tx c s2 (He2 & Hx2 & Hp2).
    destruct (registered_transact tx c s2 h He2 Hx2) as (? & ? & Hp).
    split; [done|]. split; [done|]. congruence. }
  by destruct Hinv as (_ & _ & ?).
Qed.

Lemma content_index_exact s a h :
  well_formed s ->
  h ∈ getOwnerContent s a <-> exists_at s h = true /\ owner (record_at s h) = a.
Proof.
  intros Hwf. rewrite (wf_index s Hwf), (wf_exists s Hwf). unfold record_at. split.
  - intros (r & Hr1 & <-). rewrite Hr1. split; [eauto | done].
  - intros [[r Hr1] <-]. rewrite Hr1. eauto.
Qed.

Lemma contentOwner_registered tx s h :
  well_formed s -> owner (record_at s h) = msg_sender tx ->
  isTransferable (record_at s h) = true -> exists_at s h = true /\ msg_sender tx <> 0.
Proof.
  intros Hwf Hown Htr. unfold record_at in *.
  destruct (contentRegistry s !! h) as [r|] eqn:E; [|done]. simpl in *.
  split; [apply (wf_exists s Hwf); eauto|].
  destruct (wf_record s Hwf h r E) as (_ & _ & _ & Ho). congruence.
Qed.

(** X27: one transaction changes the record of a registered content only
    when it is aimed at this content and sent by the record's current owner;
    the owner of the record changes only by [transferOwnership] to a non-zero
    address while the record is marked transferable. *)
Theorem records_change_by_their_owner_only tx c s h :
  exists_at s h = true ->
  record_at (fst (transact tx c s)) h = record_at s h \/
  (owner (record_at s h) = msg_sender tx /\ target c = h /\
   (owner (record_at (fst (transact tx c s)) h) <> owner (record_at s h) ->
      isTransferable (record_at s h) = true /\
      owner (record_at (fst (transact tx c s)) h) <> 0 /\
      c = TransferOwnership h (owner (record_at (fst (transact tx c s)) h)))).
Proof.
  intros Hex. unfold transact.
  destruct (step tx c s) as [[s1 log]|] eqn:E; [|by left]. simpl.
  destruct (registry_step_cases tx c s s1 log h E) as (_ & Hother & Hsame).
  destruct (decide (target c = h)) as [Ht | Ht].
  - destruct (Hsame Ht) as [(Hno & _) | (Hown & _ & Hc)]; [congruence|].
    right. split; [done|]. split; [done|].
    destruct Hc as [(a & -> & Ha & Htr & ->) | [(t & d & _ & ->) | (b & _ & ->)]];
      simpl; done.
  - left. by destruct (Hother Ht).
Qed.

(** A stranger tries to take the first work; its owner hands it over. *)
Lemma records_change_by_their_owner_only_witness :
  record_at (fst (transact (by_at 9 200) (TransferOwnership "h1" 9) two_works)) "h1" =
    record_at two_works "h1" /\
  owner (record_at (fst (transact (by_at 3 200) (TransferOwnership "h1" 4) two_works)) "h1")
    = 4 /\
  (record_at (fst (transact (by_at 3 200) (TransferOwnership "h1" 4) two_works)) "h1" =
     record_at two_works "h1" \/
   (owner (record_at two_works "h1") = msg_sender (by_at 3 200) /\
    target (TransferOwnership "h1" 4) = "h1" /\
    (owner (record_at (fst (transact (by_at 3 200) (TransferOwnership "h1" 4) two_works))
              "h1") <> owner (record_at two_works "h1") ->
       isTransferable (record_at two_works "h1") = true /\
       owner (record_at (fst (transact (by_at 3 200) (TransferOwnership "h1" 4) two_works))
                "h1") <> 0 /\
       TransferOwnership "h1" 4 =
         TransferOwnership "h1"
           (owner (record_at (fst (transact (by_at 3 200) (TransferOwnership "h1" 4)
                                     two_works)) "h1"))))).
Proof.
  split; [vm_compute; reflexivity|]. split; [vm_compute; reflexivity|].
  apply (records_change_by_their_owner_only (by_at 3 200) (TransferOwnership "h1" 4)
           two_works "h1").
  vm_compute. reflexivity.
Defined.

(** X28: on a deployed registry [transferOwnership] succeeds exactly when
    the caller is the owner named by the record, the new owner is not the
    zero address and the record is marked transferable. The record then
    names the new owner and is otherwise unchanged (it stays transferable);
    the hash is in the new owner's list and, unless the owner transfers to
    itself, no longer in the caller's; every other hash stays in the list it
    was in. *)
Theorem transferOwnership_hands_over tx h a s :
  reachable s ->
  ((exists r, transferOwnership tx h a s = Ok r) <->
     owner (record_at s h) = msg_sender tx /\ a <> 0 /\
     isTransferable (record_at s h) = true) /\
  (forall s1 log, transferOwnership tx h a s = Ok (s1, log) ->
     exists_at s h = true /\
     record_at s1 h = with_owner a (record_at s h) /\
     verifyContent s1 h =
       Ok (a, ipfsHash (record_at s h), timestamp (record_at s h),
           title (record_at s h), description (record_at s h)) /\
     h ∈ getOwnerContent s1 a /\
     (a <> msg_sender tx -> h ∉ getOwnerContent s1 (msg_sender tx)) /\
     (forall b x, x <> h -> x ∈ getOwnerContent s1 b <-> x ∈ getOwnerContent s b) /\
     log = [Emit (EvOwnershipTransferred h (msg_sender tx) a (block_timestamp tx))]).
Proof.
  intros Hr. pose proof (registry_reachable_well_formed s Hr) as Hwf.
  pose proof (registry_reachable_idle s Hr) as Hent. split.
  - split.
    + intros [[s1 log] H].
      by apply transferOwnership_inv in H as (? & _ & ? & ? & _).
    + intros (Hown & Ha & Htr).
      unfold transferOwnership, contentOwner, nonReentrantBefore.
      rewrite Hown, N.eqb_refl, Hent. cbn [require mbind Result_bind].
      apply N.eqb_neq in Ha. rewrite Ha. cbn [negb require mbind Result_bind].
      change (record_at (set_entered true s) h) with (record_at s h).
      rewrite Htr. cbn [require mbind Result_bind]. eauto.
  - intros s1 log H.
    pose proof (fun x => registry_step_cases tx (TransferOwnership h a) s s1 log x H)
      as Hcases.
    pose proof (transferOwnership_inv _ _ _ _ _ _ H)
      as (Hown & _ & Ha & Htr & _ & _ & _ & _ & ->).
    destruct (contentOwner_registered tx s h Hwf Hown Htr) as [Hex Hsender].
    assert (Hwf1 : well_formed s1).
    { exact (registry_well_formed_step tx (TransferOwnership h a) s s1 _ Hwf Hsender H). }
    destruct (Hcases h) as (_ & _ & Hsame).
    destruct (Hsame eq_refl) as [(Hno & _) | (_ & Hex1 & Hc)]; [congruence|].
    destruct Hc as [(a0 & [= <-] & _ & _ & Hrec) | [(? & ? & ? & _) | (? & ? & _)]];
      try discriminate.
    split; [done|]. split; [done|]. split; [|split; [|split; [|split]]].
    + unfold verifyContent. rewrite Hex1, Hex, Hrec. reflexivity.
    + apply (content_index_exact s1 a h Hwf1). rewrite Hex1, Hrec. done.
    + intros Hne. rewrite (content_index_exact s1 _ h Hwf1), Hrec. simpl.
      intros [_ ?]. done.
    + intros b x Hx. rewrite (content_index_exact s1 b x Hwf1), (content_index_exact s b x Hwf).
      destruct (Hcases x) as (_ & Hother & _).
      destruct Hother as [-> ->]; [simpl; congruence | done].
    + done.
Qed.

(** Account 3 hands the first work, which is transferable, over to
    account 4. *)
Lemma transferOwnership_hands_over_witness :
  getOwnerContent (fst (transact (by_at 3 200) (TransferOwnership "h1" 4) two_works)) 3
    = ["h2"] /\
  getOwnerContent (fst (transact (by_at 3 200) (TransferOwnership "h1" 4) two_works)) 4
    = ["h1"] /\
  ((exists r, transferOwnership (by_at 3 200) "h1" 4 two_works = Ok r) <->
     owner (record_at two_works "h1") = msg_sender (by_at 3 200) /\ 4 <> 0 /\
     isTransferable (record_at two_works "h1") = true).
Proof.
  split; [vm_compute; reflexivity|]. split; [vm_compute; reflexivity|].
  apply (transferOwnership_hands_over (by_at 3 200) "h1" 4 two_works).
  apply two_works_reachable.
Defined.

(** X29: [updateContentMetadata] and [setTransferability] succeed exactly
    when the caller is the owner named by the record. The first replaces the
    title and the description, the second the transferable mark; neither
    touches the rest of the record, another record or a list, and neither
    emits an event. On a deployed registry a content hash that is not
    registered has no owner: both calls and [transferOwnership] fail on it
    with "Not the content owner". *)
Theorem metadata_is_the_owners tx h t d b s :
  ((exists r, updateContentMetadata tx h t d s = Ok r) <->
     owner (record_at s h) = msg_sender tx) /\
  ((exists r, setTransferability tx h b s = Ok r) <->
     owner (record_at s h) = msg_sender tx) /\
  (forall s1 log, updateContentMetadata tx h t d s = Ok (s1, log) ->
     record_at s1 h = with_metadata t d (record_at s h) /\ log = [] /\
     (forall h', h' <> h -> record_at s1 h' = record_at s h') /\
     (forall a, getOwnerContent s1 a = getOwnerContent s a)) /\
  (forall s1 log, setTransferability tx h b s = Ok (s1, log) ->
     record_at s1 h = with_isTransferable b (record_at s h) /\ log = [] /\
     (forall h', h' <> h -> record_at s1 h' = record_at s h') /\
     (forall a, getOwnerContent s1 a = getOwnerContent s a)) /\
  (reachable s -> msg_sender tx <> 0 -> exists_at s h = false ->
     updateContentMetadata tx h t d s = Fail (RequireFailed "Not the content owner") /\
     setTransferability tx h b s = Fail (RequireFailed "Not the content owner") /\
     forall a, transferOwnership tx h a s = Fail (RequireFailed "Not the content owner")).
Proof.
  split; [|split; [|split; [|split]]].
  - unfold updateContentMetadata, contentOwner. split.
    + intros [r H]. unguard H. by apply N.eqb_eq in H0.
    + intros ->. rewrite N.eqb_refl. simpl. eauto.
  - unfold setTransferability, contentOwner. split.
    + intros [r H]. unguard H. by apply N.eqb_eq in H0.
    + intros ->. rewrite N.eqb_refl. simpl. eauto.
  - intros s1 log H. apply updateContentMetadata_inv in H as (_ & -> & ->).
    rewrite record_at_store_eq. split; [done|]. split; [done|].
    split; [|done]. intros h' Hne. by rewrite record_at_store_ne.
  - intros s1 log H. apply setTransferability_inv in H as (_ & -> & ->).
    rewrite record_at_store_eq. split; [done|]. split; [done|].
    split; [|done]. intros h' Hne. by rewrite record_at_store_ne.
  - intros Hr Hsender Hex. pose proof (registry_reachable_well_formed s Hr) as Hwf.
    pose proof (unregistered_record s h Hwf Hex) as Hnone.
    assert (Hno : (owner (record_at s h) =? msg_sender tx) = false).
    { unfold record_at. rewrite Hnone. apply N.eqb_neq. simpl. congruence. }
    unfold updateContentMetadata, setTransferability, transferOwnership, contentOwner.
    rewrite Hno. done.
Qed.

(** X30: the transferable mark is no lasting lock: whatever it is, the
    owner of a record can set it and hand the record over in the next
    transaction, and it is the only one who can; the proof of registration
    stays. *)
Theorem transferable_mark_is_the_owners_choice tx h a s :
  entered s = false -> exists_at s h = true ->
  owner (record_at s h) = msg_sender tx -> a <> 0 ->
  owner (record_at (fst (run [(tx, SetTransferability h true);
                              (tx, TransferOwnership h a)] s)) h) = a /\
  proof_of (record_at (fst (run [(tx, SetTransferability h true);
                                 (tx, TransferOwnership h a)] s)) h) =
    proof_of (record_at s h) /\
  (forall tx', msg_sender tx' <> msg_sender tx ->
     owner (record_at (fst (run [(tx', SetTransferability h true);
                                 (tx', TransferOwnership h a)] s)) h) = msg_sender tx).
Proof.
  intros Hent Hex Hown Ha.
  set (s' := store_record h (with_isTransferable true (record_at s h)) s).
  assert (Ht1 : transact tx (SetTransferability h true) s = (s', [])).
  { apply registry_transact_ok. simpl. unfold setTransferability, contentOwner.
    by rewrite Hown, N.eqb_refl. }
  assert (H2 : exists s2 log2, transferOwnership tx h a s' = Ok (s2, log2)).
  { assert (Hrec : record_at s' h = with_isTransferable true (record_at s h))
      by apply record_at_store_eq.
    unfold transferOwnership, contentOwner, nonReentrantBefore.
    change (entered s') with (entered s).
    rewrite Hrec, Hent. simpl. rewrite Hown, N.eqb_refl. simpl.
    apply N.eqb_neq in Ha. rewrite Ha. simpl.
    change (record_at (set_entered true s') h) with (record_at s' h).
    rewrite Hrec. simpl. eauto. }
  destruct H2 as (s2 & log2 & H2).
  assert (Ht2 : transact tx (TransferOwnership h a) s' = (s2, log2)).
  { by apply registry_transact_ok. }
  split; [|split].
  - cbn [run]. rewrite Ht1, Ht2. simpl.
    apply transferOwnership_inv in H2 as (_ & _ & _ & _ & Hreg & _).
    unfold record_at. rewrite Hreg, lookup_insert_eq. done.
  - by apply proof_of_run.
  - intros tx' Hne.
    assert (Hno : (owner (record_at s h) =? msg_sender tx') = false).
    { apply N.eqb_neq. congruence. }
    assert (Hf1 : transact tx' (SetTransferability h true) s = (s, [])).
    { unfold transact. simpl. unfold setTransferability, contentOwner. by rewrite Hno. }
    assert (Hf2 : transact tx' (TransferOwnership h a) s = (s, [])).
    { unfold transact. simpl. unfold transferOwnership, contentOwner. by rewrite Hno. }
    cbn [run]. rewrite Hf1, Hf2. done.
Qed.

(** The second work was registered as not transferable; its owner hands it
    over all the same. *)
Lemma transferable_mark_is_the_owners_choice_witness :
  isTransferable (record_at two_works "h2") = false /\
  owner (record_at (fst (run [(by_at 3 200, SetTransferability "h2" true);
                              (by_at 3 200, TransferOwnership "h2" 4)] two_works)) "h2")
    = 4 /\
  proof_of (record_at (fst (run [(by_at 3 200, SetTransferability "h2" true);
                                 (by_at 3 200, TransferOwnership "h2" 4)] two_works)) "h2")
    = proof_of (record_at two_works "h2") /\
  (forall tx', msg_sender tx' <> msg_sender (by_at 3 200) ->
     owner (record_at (fst (run [(tx', SetTransferability "h2" true);
                                 (tx', TransferOwnership "h2" 4)] two_works)) "h2")
       = msg_sender (by_at 3 200)).
Proof.
  split; [vm_compute; reflexivity|].
  apply (transferable_mark_is_the_owners_choice (by_at 3 200) "h2" 4 two_works);
    vm_compute; (reflexivity || discriminate).
Defined.

End RegistryFacts.
